(** * PowerSysPro Analysis Suite: the network-analysis core, embedded in Rocq

    Shallow embedding of the analysis engine of the suite
    (server/utils/phase2/topology.py and server/utils/phase3/per_unit.py,
    short_circuit.py, load_flow.py) and proofs of the properties its
    specification states.

    Modelling conventions.
    - A Python [float] is a real number ([R]) and a Python [complex] a pair
      of reals wherever a property is about the formulas that the program
      evaluates: rounding, overflow and NaN are outside that model.
    - Where a result depends on the rounding itself (the comparison and the
      [round] calls of [validate_breaker_rating], the search for the largest
      fault current of [_validate_breakers], whether two currents differ) a
      [float] is an IEEE 754 binary64 value, Rocq's primitive [float]
      (module [Binary64]).
    - A Python exception is [None] in the option monad: [ZeroDivisionError]
      for a division by zero, [KeyError] for a missing dictionary key,
      [IndexError] for an array index out of range, [NameError] for a
      variable read before it was bound.
    - A [dict] keyed by strings is a [gmap string _] where only lookups matter
      and an association list in insertion order where iteration order
      matters; a [set] of strings is a [gset string]; a numpy vector is a
      list, a numpy matrix a list of rows. *)

From Stdlib Require Import Floats.
From Stdlib Require Import Reals Lra Lia ZArith.
From stdpp Require Import base option list gmap sets strings.

Open Scope R_scope.
#[global] Set Warnings "-inexact-float".

(** ** Python arithmetic on floats *)

#[global] Instance R_eq_dec : EqDecision R := Req_EM_T.
#[global] Instance Rlt_decision (x y : R) : Decision (x < y) := Rlt_dec x y.
#[global] Instance Rle_decision (x y : R) : Decision (x <= y) := Rle_dec x y.
#[global] Instance Rge_decision (x y : R) : Decision (x >= y) := Rge_dec x y.
#[global] Instance Rgt_decision (x y : R) : Decision (x > y) := Rgt_dec x y.

(** [a / b] on floats: raises [ZeroDivisionError] when [b] is zero. *)
Definition fdiv (a b : R) : option R :=
  if decide (b = 0) then None else Some (a / b).

(** [round(x)] to an integer, ties to the even neighbour. *)
Definition round_half_even (x : R) : Z :=
  let n := Zfloor x in
  let f := x - IZR n in
  if decide (f < 1 / 2) then n
  else if decide (1 / 2 < f) then (n + 1)%Z
  else if Z.even n then n else (n + 1)%Z.

(** [round(x, ndigits)] *)
Definition py_round (x : R) (ndigits : nat) : R :=
  IZR (round_half_even (x * 10 ^ ndigits)) / 10 ^ ndigits.

(** ** Python complex numbers *)

Record complex : Type := Complex { real : R; imag : R }.

Definition C0 : complex := Complex 0 0.
Definition C1 : complex := Complex 1 0.

Definition Cadd (a b : complex) : complex :=
  Complex (real a + real b) (imag a + imag b).
Definition Csub (a b : complex) : complex :=
  Complex (real a - real b) (imag a - imag b).
Definition Cmul (a b : complex) : complex :=
  Complex (real a * real b - imag a * imag b)
          (real a * imag b + imag a * real b).
Definition Cconj (a : complex) : complex := Complex (real a) (- imag a).

(** [abs(z)] *)
Definition Cabs (a : complex) : R := sqrt (real a * real a + imag a * imag a).

#[global] Instance complex_eq_dec : EqDecision complex.
Proof. intros [a b] [c d]. unfold Decision.
  destruct (Req_EM_T a c) as [->|Hn]; [|right; congruence].
  destruct (Req_EM_T b d) as [->|Hn]; [left; reflexivity|right; congruence].
Defined.

(** [a / b] on complex numbers: raises [ZeroDivisionError] when [b == 0]. *)
Definition Cdiv (a b : complex) : option complex :=
  if decide (b = C0) then None
  else
    let d := real b * real b + imag b * imag b in
    Some (Complex ((real a * real b + imag a * imag b) / d)
                  ((imag a * real b - real a * imag b) / d)).

(** [z * k] and [z / k] for a complex [z] and a float [k]: the float is
    promoted to a complex number with imaginary part zero. *)
Definition Cmul_real (z : complex) (k : R) : complex := Cmul z (Complex k 0).
Definition Cdiv_real (z : complex) (k : R) : option complex := Cdiv z (Complex k 0).

(** [numpy.angle(z)], that is [atan2(z.imag, z.real)]. *)
Definition Cangle (z : complex) : R :=
  let x := real z in
  let y := imag z in
  if decide (0 < x) then atan (y / x)
  else if decide (x < 0) then
    (if decide (0 <= y) then atan (y / x) + PI else atan (y / x) - PI)
  else if decide (0 < y) then PI / 2
  else if decide (y < 0) then - (PI / 2)
  else 0.


(** ** numpy arrays *)

(** [a[i] = x] on a vector: raises [IndexError] out of range. *)
Definition set_at {A : Type} (l : list A) (i : nat) (x : A) : option (list A) :=
  if decide (i < length l)%nat then Some (<[i := x]> l) else None.

(** [M[i, j] = f (M[i, j])] on a matrix: raises [IndexError] out of range. *)
Definition update_at {A : Type} (f : A -> A) (i j : nat) (M : list (list A))
  : option (list (list A)) :=
  row ← M !! i;
  x ← row !! j;
  Some (<[i := <[j := f x]> row]> M).

(** [numpy.sum] of a complex vector, and Python's [sum] of floats. *)
Definition Csum (l : list complex) : complex := foldr Cadd C0 l.
Definition py_sum (l : list R) : R := foldl Rplus 0 l.

(** [numpy.max]: raises [ValueError] on an empty array. *)
Definition np_max (l : list R) : option R :=
  match l with
  | [] => None
  | x :: l' => Some (foldl Rmax x l')
  end.

(** ** Python floats as IEEE 754 binary64 values

    Rocq's primitive [float] is binary64 with every operation rounded to the
    nearest value, ties to even, as Python's [float] is.  A decimal literal
    denotes the binary64 value nearest to it, in Rocq as in Python. *)

Module Binary64.

(** [x / y]: raises [ZeroDivisionError] when [y] is zero. *)
Definition truediv (x y : float) : option float :=
  if (y =? 0)%float then None else Some (x / y)%float.

(** The integer nearest to [n / d], for [0 < d], ties to the even one. *)
Definition round_half_even_ratio (n d : Z) : Z :=
  let q := (n `div` d)%Z in
  match (2 * (n `mod` d) ?= d)%Z with
  | Lt => q
  | Gt => (q + 1)%Z
  | Eq => if Z.even q then q else (q + 1)%Z
  end.

(** [round(x, ndigits)] for [0 <= ndigits], as CPython computes it: the
    exact value of [x] is rounded to a multiple of 10^-ndigits, ties to the
    even multiple, and the result is the binary64 value nearest to that
    decimal number.  Zeros, infinities and NaN are returned as they are. *)
Definition round (x : float) (ndigits : Z) : float :=
  match Prim2SF x with
  | S754_finite s m e =>
      let p := (10 ^ ndigits)%Z in
      let k := match e with
               | Zneg e' => round_half_even_ratio (Z.pos m * p) (2 ^ Z.pos e')
               | _ => (Z.pos m * p * 2 ^ e)%Z
               end in
      match k with
      | Z.pos k' =>
          SF2Prim (SFdiv prec emax (S754_finite s k' 0)
                                   (S754_finite false (Z.to_pos p) 0))
      | _ => if s then neg_zero else zero
      end
  | _ => x
  end.

(** The real number that a finite float stands for. *)
Definition to_R (x : float) : R :=
  match Prim2SF x with
  | S754_finite s m e =>
      let v := match e with
               | Zneg e' => IZR (Z.pos m) / IZR (2 ^ Z.pos e')
               | _ => IZR (Z.pos m * 2 ^ e)
               end in
      if s then - v else v
  | _ => 0
  end.

Definition is_finite (x : float) : bool :=
  match Prim2SF x with
  | S754_zero _ | S754_finite _ _ _ => true
  | _ => false
  end.

(** Python's [complex]: two floats. *)
Record complex : Type := Complex { real : float; imag : float }.

Definition Cadd (a b : complex) : complex :=
  Complex (real a + real b) (imag a + imag b).
Definition Cmul (a b : complex) : complex :=
  Complex (real a * real b - imag a * imag b)
          (real a * imag b + imag a * real b).

(** C's [hypot], taken as the square root of the exact sum of the squares
    rounded once.  The C standard fixes hypot(x, 0) = |x|; elsewhere the
    result of a C library may be one unit in the last place away. *)
Definition hypot (x y : float) : float :=
  match Prim2SF x, Prim2SF y with
  | S754_infinity _, _ | _, S754_infinity _ => infinity
  | S754_nan, _ | _, S754_nan => nan
  | S754_zero _, _ => abs y
  | _, S754_zero _ => abs x
  | S754_finite _ mx ex, S754_finite _ my ey =>
      let e := (2 * Z.min ex ey)%Z in
      let m := (Z.pos mx * Z.pos mx * 2 ^ (2 * ex - e) +
                Z.pos my * Z.pos my * 2 ^ (2 * ey - e))%Z in
      SF2Prim (SFsqrt prec emax (S754_finite false (Z.to_pos m) e))
  end.

(** [abs(z)]: [hypot] of the parts; raises [OverflowError] when the parts
    are finite and the result is not. *)
Definition Cabs (z : complex) : option float :=
  let result := hypot (real z) (imag z) in
  if is_finite (real z) && is_finite (imag z) && negb (is_finite result)
  then None else Some result.

End Binary64.

(** ** per_unit.py *)

Module PerUnit.

Record PerUnitBase : Type := mkPerUnitBase {
  voltage_kv : R;
  power_mva : R
}.

(** Property [impedance_ohms]: Z_base = V_base^2 * 1000 / S_base. *)
Definition impedance_ohms (b : PerUnitBase) : option R :=
  fdiv (voltage_kv b ^ 2 * 1000) (power_mva b).


(** [voltage_bases] is a dict keyed by the voltage (a float). *)
Record PerUnitSystem : Type := mkPerUnitSystem {
  base_mva : R;
  voltage_bases : list (R * PerUnitBase)
}.

Definition __init__ (base_mva : R) : PerUnitSystem :=
  mkPerUnitSystem base_mva [].

Fixpoint lookup_base (voltage_kv : R) (d : list (R * PerUnitBase))
  : option PerUnitBase :=
  match d with
  | [] => None
  | (k, b) :: d' => if decide (k = voltage_kv) then Some b
                    else lookup_base voltage_kv d'
  end.

(** The methods read and extend [self.voltage_bases]: they return their
    value together with the system after the call. *)
Definition add_voltage_level (self : PerUnitSystem) (voltage_kv : R)
  : PerUnitBase * PerUnitSystem :=
  match lookup_base voltage_kv (voltage_bases self) with
  | Some b => (b, self)
  | None =>
      let b := mkPerUnitBase voltage_kv (base_mva self) in
      (b, mkPerUnitSystem (base_mva self)
            (voltage_bases self ++ [(voltage_kv, b)]))
  end.

Definition get_base (self : PerUnitSystem) (voltage_kv : R)
  : PerUnitBase * PerUnitSystem :=
  match lookup_base voltage_kv (voltage_bases self) with
  | None => add_voltage_level self voltage_kv
  | Some b => (b, self)
  end.

Definition impedance_to_pu (self : PerUnitSystem) (impedance_ohms_ : complex)
    (voltage_kv : R) : option complex * PerUnitSystem :=
  let '(base, self') := get_base self voltage_kv in
  (zb ← impedance_ohms base; Cdiv_real impedance_ohms_ zb, self').

Definition impedance_to_ohms (self : PerUnitSystem) (impedance_pu : complex)
    (voltage_kv : R) : option complex * PerUnitSystem :=
  let '(base, self') := get_base self voltage_kv in
  (zb ← impedance_ohms base; Some (Cmul_real impedance_pu zb), self').

(** The state of a system after [__init__] and any calls of its methods:
    the base power is not zero and every cached base was made by
    [add_voltage_level]. *)
Definition well_formed (self : PerUnitSystem) : Prop :=
  base_mva self <> 0 /\
  forall k b, lookup_base k (voltage_bases self) = Some b ->
              b = mkPerUnitBase k (base_mva self).

(** [node_index = {node: i for i, node in enumerate(nodes)}]: a node listed
    twice keeps its last position. *)
Definition node_index_of (nodes : list string) : gmap string nat :=
  foldl (fun (m : gmap string nat) (p : nat * string) => <[p.2 := p.1]> m)
        ∅ (imap pair nodes).

(** The loop of [build_admittance_matrix] over [impedances.items()]. *)
Fixpoint fill_admittance (node_index : gmap string nat)
    (impedances : list ((string * string) * complex))
    (Y_bus : list (list complex)) : option (list (list complex)) :=
  match impedances with
  | [] => Some Y_bus
  | ((from_node, to_node), z) :: rest =>
      if decide (z = C0) then fill_admittance node_index rest Y_bus
      else
        y ← Cdiv C1 z;
        i ← node_index !! from_node;
        j ← node_index !! to_node;
        Y1 ← update_at (fun x => Csub x y) i j Y_bus;
        Y2 ← update_at (fun x => Csub x y) j i Y1;
        Y3 ← update_at (fun x => Cadd x y) i i Y2;
        Y4 ← update_at (fun x => Cadd x y) j j Y3;
        fill_admittance node_index rest Y4
  end.

Definition build_admittance_matrix (nodes : list string)
    (impedances : list ((string * string) * complex))
  : option (list (list complex)) :=
  let n := length nodes in
  let node_index := node_index_of nodes in
  let Y_bus := replicate n (replicate n C0) in
  fill_admittance node_index impedances Y_bus.







Definition convert_cable_impedance_to_pu (resistance_per_km reactance_per_km
    length_km voltage_kv base_mva : R) : option complex :=
  let z_ohms :=
    Complex (resistance_per_km * length_km) (reactance_per_km * length_km) in
  let pu_system := __init__ base_mva in
  (impedance_to_pu pu_system z_ohms voltage_kv).1.

Definition convert_transformer_impedance_to_pu (z_percent transformer_mva
    voltage_primary_kv voltage_secondary_kv base_mva : R)
  : option (complex * complex) :=
  let z_pu_transformer_base := z_percent / 100.0 in
  ratio ← fdiv base_mva transformer_mva;
  let z_pu_system_base := z_pu_transformer_base * ratio in
  r_pu ← fdiv z_pu_system_base (sqrt (1 + 10 ^ 2));
  x_factor ← fdiv 10 (sqrt (1 + 10 ^ 2));
  let x_pu := z_pu_system_base * x_factor in
  let z_primary := Complex r_pu x_pu in
  let z_secondary := Complex r_pu x_pu in
  Some (z_primary, z_secondary).

Definition convert_motor_impedance_to_pu (motor_kw voltage_kv power_factor
    efficiency x_d_prime_prime base_mva : R) : option complex :=
  motor_mva ← fdiv (motor_kw / 1000.0) (power_factor * efficiency);
  let z_pu_motor_base := Complex 0.01 x_d_prime_prime in
  ratio ← fdiv base_mva motor_mva;
  let z_pu_system := Cmul_real z_pu_motor_base ratio in
  Some z_pu_system.

End PerUnit.

(** ** short_circuit.py *)

Module ShortCircuit.

Record ShortCircuitParameters : Type := mkShortCircuitParameters {
  voltage_kv : R;
  base_mva : R;
  source_impedance : complex;
  voltage_factor_c : R;
  frequency_hz : R
}.

Record ShortCircuitResult : Type := mkShortCircuitResult {
  i_k3_initial : R;
  i_k3_peak : R;
  i_k3_breaking : R;
  i_k3_steady_state : R;
  i_dc : R;
  i_k1 : option R;
  i_k2 : option R;
  z_total : complex;
  s_k3 : R
}.

Definition _calculate_peak_factor (z_total : complex) : option R :=
  let r := real z_total in
  let x := imag z_total in
  if decide (x = 0) then Some 1
  else
    r_x_ratio ← fdiv r x;
    Some (1.02 + 0.98 * exp (-3 * r_x_ratio)).

Definition _calculate_decay_factor (z_total : complex) : R := 1.

(** The total impedance to the fault point, in per-unit: the first half of
    [calculate_three_phase_fault]. *)
Definition total_impedance_pu (params : ShortCircuitParameters)
    (fault_impedance_pu : complex) (motor_contribution : option complex)
  : option complex :=
  let z_total_pu := Cadd (source_impedance params) fault_impedance_pu in
  match motor_contribution with
  | None => Some z_total_pu
  | Some z_motors_parallel =>
      y_system ← Cdiv C1 z_total_pu;
      y_motors ← Cdiv C1 z_motors_parallel;
      Cdiv C1 (Cadd y_system y_motors)
  end.

Definition calculate_three_phase_fault (params : ShortCircuitParameters)
    (fault_impedance_pu : complex) (motor_contribution : option complex)
  : option ShortCircuitResult :=
  let u_n := voltage_kv params in
  let c := voltage_factor_c params in
  let c_u_n := c * u_n in
  z_total_pu ← total_impedance_pu params fault_impedance_pu motor_contribution;
  z_base ← fdiv (u_n ^ 2 * 1000) (base_mva params);
  let z_total_ohms := Cmul_real z_total_pu z_base in
  i_k3_initial ← fdiv (c_u_n * 1000) (sqrt 3 * Cabs z_total_ohms);
  let i_k3_initial_ka := i_k3_initial / 1000 in
  kappa ← _calculate_peak_factor z_total_ohms;
  let i_peak_ka := kappa * sqrt 2 * i_k3_initial_ka in
  let mu := _calculate_decay_factor z_total_ohms in
  let i_breaking_ka := mu * i_k3_initial_ka in
  let i_steady_state_ka := i_k3_initial_ka in
  let i_dc_ka := sqrt 2 * i_k3_initial_ka in
  let s_k3_mva := sqrt 3 * u_n * i_k3_initial_ka in
  Some (mkShortCircuitResult i_k3_initial_ka i_peak_ka i_breaking_ka
          i_steady_state_ka i_dc_ka None None z_total_ohms s_k3_mva).

(** [calculate_three_phase_fault] up to [i_k3_initial_ka], without motor
    contribution, in binary64 arithmetic.  [u_n ** 2] is C's [pow], taken as
    the rounded square; the product of the complex impedance and the float
    [z_base] promotes the float to a complex number. *)
Definition i_k3_initial_ka_binary64 (voltage_kv base_mva : float)
    (source_impedance : Binary64.complex) (voltage_factor_c : float)
    (fault_impedance_pu : Binary64.complex) : option float :=
  let u_n := voltage_kv in
  let c := voltage_factor_c in
  let c_u_n := (c * u_n)%float in
  let z_total_pu := Binary64.Cadd source_impedance fault_impedance_pu in
  z_base ← Binary64.truediv (u_n * u_n * 1000)%float base_mva;
  let z_total_ohms := Binary64.Cmul z_total_pu (Binary64.Complex z_base 0) in
  abs_z_total_ohms ← Binary64.Cabs z_total_ohms;
  i_k3_initial ← Binary64.truediv (c_u_n * 1000)%float
                    (PrimFloat.sqrt 3 * abs_z_total_ohms)%float;
  let i_k3_initial_ka := (i_k3_initial / 1000)%float in
  Some i_k3_initial_ka.

(** The same current as a function of the value of [abs(z_total_ohms)],
    with the exact result of every multiplication, division and square root
    rounded by [rnd], as IEEE 754 arithmetic rounds it to a float. *)
Definition i_k3_initial_ka_rounded (rnd : R -> R)
    (params : ShortCircuitParameters) (abs_z_total_ohms : R) : option R :=
  let u_n := voltage_kv params in
  let c := voltage_factor_c params in
  let c_u_n := rnd (c * u_n) in
  quotient ← fdiv (rnd (c_u_n * 1000)) (rnd (rnd (sqrt 3) * abs_z_total_ohms));
  let i_k3_initial := rnd quotient in
  let i_k3_initial_ka := rnd (i_k3_initial / 1000) in
  Some i_k3_initial_ka.

(** The dictionary returned by [validate_breaker_rating]; its floats are
    binary64 values. *)
Record BreakerValidation : Type := mkBreakerValidation {
  fault_current_ka : float;
  breaker_rating_ka : float;
  required_rating_ka : float;
  is_adequate : bool;
  utilization_percent : float;
  margin_ka : float;
  margin_percent : float;
  status : string
}.

(** [validate_breaker_rating], in binary64 arithmetic; the function never
    reads [voltage_kv]. *)
Definition validate_breaker_rating (fault_current_ka breaker_rating_ka : float)
    (voltage_kv : R) : option BreakerValidation :=
  let safety_margin := 1.1%float in
  let required_rating := (fault_current_ka * safety_margin)%float in
  let is_adequate := (required_rating <=? breaker_rating_ka)%float in
  q ← Binary64.truediv fault_current_ka breaker_rating_ka;
  let utilization := (q * 100)%float in
  let margin_ka := (breaker_rating_ka - fault_current_ka)%float in
  m ← Binary64.truediv margin_ka breaker_rating_ka;
  let margin_percent := (m * 100)%float in
  Some (mkBreakerValidation
          (Binary64.round fault_current_ka 2)
          (Binary64.round breaker_rating_ka 2)
          (Binary64.round required_rating 2)
          is_adequate
          (Binary64.round utilization 1)
          (Binary64.round margin_ka 2)
          (Binary64.round margin_percent 1)
          (if is_adequate then "PASS" else "FAIL - UNDERSIZED")%string).


Definition calculate_line_to_line_fault (params : ShortCircuitParameters)
    (fault_impedance_pu : complex) : option R :=
  let u_n := voltage_kv params in
  let c := voltage_factor_c params in
  let z_1 := Cadd (source_impedance params) fault_impedance_pu in
  z_base ← fdiv (u_n ^ 2 * 1000) (base_mva params);
  let z_1_ohms := Cmul_real z_1 z_base in
  i_k2 ← fdiv (c * u_n * 1000) (2 * Cabs z_1_ohms);
  let i_k2_ka := i_k2 / 1000 in
  Some i_k2_ka.

(** A motor dictionary of [calculate_motor_contribution]: each key may be
    missing. *)
Record Motor : Type := mkMotor {
  power_kw : option R;
  motor_voltage_kv : option R
}.

(** The loop of [calculate_motor_contribution] over the motors. *)
Fixpoint motor_admittances (motors : list Motor) (base_mva : R)
    (y_total : complex) : option complex :=
  match motors with
  | [] => Some y_total
  | motor :: rest =>
      let motor_kw := default 0 (power_kw motor) in
      let voltage_kv := default 0.4 (motor_voltage_kv motor) in
      let contribution_factor := 5.0 in
      let motor_mva := (motor_kw / 1000.0) / 0.85 in
      z_motor_base ← fdiv 1.0 contribution_factor;
      ratio ← fdiv base_mva motor_mva;
      let z_motor_pu := z_motor_base * ratio in
      y ← Cdiv C1 (Complex 0.01 z_motor_pu);
      motor_admittances rest base_mva (Cadd y_total y)
  end.

(** [calculate_motor_contribution]: the outer option is an exception, the
    inner one the value [None] that the function returns when there is no
    contribution. *)
Definition calculate_motor_contribution (motors : list Motor) (base_mva : R)
  : option (option complex) :=
  match motors with
  | [] => Some None
  | _ =>
      y_total ← motor_admittances motors base_mva C0;
      if decide (Cabs y_total > 1e-10) then
        z_equivalent ← Cdiv C1 y_total;
        Some (Some z_equivalent)
      else Some None
  end.

End ShortCircuit.

(** ** load_flow.py *)

Module LoadFlow.

Inductive BusType : Type := SLACK | PV | PQ.

#[global] Instance BusType_eq_dec : EqDecision BusType.
Proof. solve_decision. Defined.

Record Bus : Type := mkBus {
  id : string;
  bus_type : BusType;
  p_specified : R;
  q_specified : R;
  v_specified : R;
  theta_specified : R;
  v_magnitude : R;
  v_angle : R;
  p_calculated : R;
  q_calculated : R
}.

Record Branch : Type := mkBranch {
  from_bus : string;
  to_bus : string;
  impedance : complex;
  p_from : R;
  q_from : R;
  p_to : R;
  q_to : R;
  p_loss : R;
  q_loss : R
}.

(** A float that may be [float('inf')]. *)
Inductive xfloat : Type := Finite (x : R) | Infinity.

Module LoadFlowResult.
Record t : Type := mk {
  converged : bool;
  iterations : nat;
  max_mismatch : xfloat;
  buses : list (string * Bus);
  branches : list Branch;
  total_generation_p : R;
  total_generation_q : R;
  total_load_p : R;
  total_load_q : R;
  total_losses_p : R;
  total_losses_q : R
}.
End LoadFlowResult.

(** The arguments of [NewtonRaphsonLoadFlow.__init__].  [buses] is the
    dictionary in insertion order; an index of [bus_index] is a position in
    the arrays; [max_iterations] below one runs no iteration. *)
Record NewtonRaphsonLoadFlow : Type := mkNewtonRaphsonLoadFlow {
  buses : list (string * Bus);
  y_bus : list (list complex);
  bus_index : gmap string nat;
  max_iterations : nat;
  tolerance : R
}.

(** The attributes that [__init__] derives from its arguments. *)
Definition n_buses (self : NewtonRaphsonLoadFlow) : nat := length (buses self).
Definition buses_values (self : NewtonRaphsonLoadFlow) : list Bus :=
  (buses self).*2.
Definition slack_buses (self : NewtonRaphsonLoadFlow) : list Bus :=
  filter (fun b => bus_type b = SLACK) (buses_values self).
Definition pv_buses (self : NewtonRaphsonLoadFlow) : list Bus :=
  filter (fun b => bus_type b = PV) (buses_values self).
Definition pq_buses (self : NewtonRaphsonLoadFlow) : list Bus :=
  filter (fun b => bus_type b = PQ) (buses_values self).
Definition n_pq (self : NewtonRaphsonLoadFlow) : nat := length (pq_buses self).
Definition n_pv (self : NewtonRaphsonLoadFlow) : nat := length (pv_buses self).

(** [numpy.linalg.solve], which is not part of the repository: it returns
    the solution, raises [LinAlgError] on a singular or non-square matrix,
    or raises another error (shapes that do not match). *)
Inductive linalg_result : Type :=
| Solution (x : list R)
| LinAlgError
| OtherError.

Section Solver.
Variable linalg_solve : list (list R) -> list R -> linalg_result.
Variable self : NewtonRaphsonLoadFlow.

(** The start of [solve]: flat start, then the specified values of the
    slack and PV buses. *)
Fixpoint set_slack (bs : list Bus) (v theta : list R)
  : option (list R * list R) :=
  match bs with
  | [] => Some (v, theta)
  | bus :: bs' =>
      idx ← bus_index self !! id bus;
      v' ← set_at v idx (v_specified bus);
      theta' ← set_at theta idx (theta_specified bus);
      set_slack bs' v' theta'
  end.

Fixpoint set_pv (bs : list Bus) (v : list R) : option (list R) :=
  match bs with
  | [] => Some v
  | bus :: bs' =>
      idx ← bus_index self !! id bus;
      v' ← set_at v idx (v_specified bus);
      set_pv bs' v'
  end.

Definition initial_state : option (list R * list R) :=
  let v := replicate (n_buses self) 1 in
  let theta := replicate (n_buses self) 0 in
  '(v, theta) ← set_slack (slack_buses self) v theta;
  v ← set_pv (pv_buses self) v;
  Some (v, theta).

(** The body of the inner loop of [_calculate_power]: the terms added to
    [p[i]] and [q[i]] for column [j]. *)
Definition power_term (v theta : list R) (i j : nat) : option (R * R) :=
  row ← y_bus self !! i;
  y ← row !! j;
  let y_mag := Cabs y in
  let y_angle := Cangle y in
  theta_i ← theta !! i;
  theta_j ← theta !! j;
  let theta_ij := theta_i - theta_j - y_angle in
  v_i ← v !! i;
  v_j ← v !! j;
  Some (v_i * v_j * y_mag * cos theta_ij, v_i * v_j * y_mag * sin theta_ij).

Fixpoint power_row (v theta : list R) (i : nat) (js : list nat)
    (acc : R * R) : option (R * R) :=
  match js with
  | [] => Some acc
  | j :: js' =>
      t ← power_term v theta i j;
      power_row v theta i js' (acc.1 + t.1, acc.2 + t.2)
  end.

Fixpoint power_rows (v theta : list R) (rows : list nat)
  : option (list (R * R)) :=
  match rows with
  | [] => Some []
  | i :: rows' =>
      pq ← power_row v theta i (seq 0 (n_buses self)) (0, 0);
      rest ← power_rows v theta rows';
      Some (pq :: rest)
  end.

Definition _calculate_power (v theta : list R) : option (list R * list R) :=
  pqs ← power_rows v theta (seq 0 (n_buses self));
  Some (pqs.*1, pqs.*2).

(** The loop of [solve] that fills [delta_p] and [delta_q]. *)
Fixpoint power_mismatch (bs : list Bus) (p_calc q_calc delta_p delta_q : list R)
  : option (list R * list R) :=
  match bs with
  | [] => Some (delta_p, delta_q)
  | bus :: bs' =>
      idx ← bus_index self !! id bus;
      delta_p' ←
        (if decide (bus_type bus <> SLACK) then
           p ← p_calc !! idx; set_at delta_p idx (p_specified bus - p)
         else Some delta_p);
      delta_q' ←
        (if decide (bus_type bus = PQ) then
           q ← q_calc !! idx; set_at delta_q idx (q_specified bus - q)
         else Some delta_q);
      power_mismatch bs' p_calc q_calc delta_p' delta_q'
  end.

(** [max(np.max(np.abs(delta_p)), np.max(np.abs(delta_q)))] *)
Definition max_abs_mismatch (delta_p delta_q : list R) : option R :=
  mp ← np_max (Rabs <$> delta_p);
  mq ← np_max (Rabs <$> delta_q);
  Some (Rmax mp mq).

Definition set_entry (M : list (list R)) (i j : nat) (x : R)
  : list (list R) :=
  alter (fun row => <[j := x]> row) i M.

(** [_build_jacobian]: [np.zeros] refuses the negative size that an empty
    system gives; every index written is inside the array. *)
Definition _build_jacobian (v theta : list R) : option (list (list R)) :=
  let n := n_buses self in
  if decide (n = 0)%nat then None
  else
    let n_theta := (n - 1)%nat in
    let n_v := n_pq self in
    let j_size := (n_theta + n_v)%nat in
    let jacobian := replicate j_size (replicate j_size 0) in
    Some (foldl
      (fun jacobian i =>
         let jacobian := set_entry jacobian i i 10 in
         if decide (0 < i /\ i < j_size)%nat then
           let jacobian := set_entry jacobian i (i - 1) (-1) in
           set_entry jacobian (i - 1) i (-1)
         else jacobian)
      jacobian (seq 0 j_size)).

Definition _build_mismatch_vector (delta_p delta_q : list R)
  : option (list R) :=
  mp ← mapM (fun bus : Bus => idx ← bus_index self !! id bus; delta_p !! idx)
            (filter (fun b => bus_type b <> SLACK) (buses_values self));
  mq ← mapM (fun bus : Bus => idx ← bus_index self !! id bus; delta_q !! idx)
            (pq_buses self);
  Some (mp ++ mq).

(** The two loops of [_update_state]; [idx] counts the corrections used. *)
Fixpoint add_corrections (bs : list Bus) (a delta : list R) (idx : nat)
  : option (list R) :=
  match bs with
  | [] => Some a
  | bus :: bs' =>
      bus_idx ← bus_index self !! id bus;
      x ← a !! bus_idx;
      d ← delta !! idx;
      a' ← set_at a bus_idx (x + d);
      add_corrections bs' a' delta (S idx)
  end.

Definition _update_state (v theta delta_x : list R)
  : option (list R * list R) :=
  let n_theta := (n_buses self - 1)%nat in
  let delta_theta := take n_theta delta_x in
  let delta_v := drop n_theta delta_x in
  theta' ← add_corrections
             (filter (fun b => bus_type b <> SLACK) (buses_values self))
             theta delta_theta 0;
  v' ← add_corrections (pq_buses self) v delta_v 0;
  Some (v', theta').

(** The local variables of [solve] that the loop changes; [p_calc] and
    [q_calc] are not bound before the first pass. *)
Record loop_state : Type := mkLoopState {
  ls_v : list R;
  ls_theta : list R;
  ls_converged : bool;
  ls_iteration : nat;
  ls_max_mismatch : xfloat;
  ls_calc : option (list R * list R)
}.

(** [for iteration in range(1, self.max_iterations + 1)], with [remaining]
    passes still to run. *)
Fixpoint newton_raphson (remaining : nat) (st : loop_state)
  : option loop_state :=
  match remaining with
  | O => Some st
  | S remaining' =>
      let iteration := S (ls_iteration st) in
      let v := ls_v st in
      let theta := ls_theta st in
      '(p_calc, q_calc) ← _calculate_power v theta;
      let delta_p := replicate (n_buses self) 0 in
      let delta_q := replicate (n_buses self) 0 in
      '(delta_p, delta_q) ←
        power_mismatch (buses_values self) p_calc q_calc delta_p delta_q;
      max_mismatch ← max_abs_mismatch delta_p delta_q;
      if decide (max_mismatch < tolerance self) then
        Some (mkLoopState v theta true iteration (Finite max_mismatch)
                (Some (p_calc, q_calc)))
      else
        jacobian ← _build_jacobian v theta;
        mismatch ← _build_mismatch_vector delta_p delta_q;
        match linalg_solve jacobian mismatch with
        | LinAlgError =>
            Some (mkLoopState v theta false iteration (Finite max_mismatch)
                    (Some (p_calc, q_calc)))
        | OtherError => None
        | Solution delta_x =>
            '(v', theta') ← _update_state v theta delta_x;
            newton_raphson remaining'
              (mkLoopState v' theta' false iteration (Finite max_mismatch)
                 (Some (p_calc, q_calc)))
        end
  end.

(** The loop of [solve] that stores the results in the buses. *)
Fixpoint store_results (bs : list (string * Bus)) (st : loop_state)
  : option (list (string * Bus)) :=
  match bs with
  | [] => Some []
  | (key, bus) :: bs' =>
      idx ← bus_index self !! id bus;
      vm ← ls_v st !! idx;
      va ← ls_theta st !! idx;
      '(p_calc, q_calc) ← ls_calc st;
      p ← p_calc !! idx;
      q ← q_calc !! idx;
      rest ← store_results bs' st;
      Some ((key, mkBus (id bus) (bus_type bus) (p_specified bus)
                     (q_specified bus) (v_specified bus)
                     (theta_specified bus) vm va p q) :: rest)
  end.

(** [_compile_results], on the buses as [solve] left them. *)
Definition _compile_results (stored : list (string * Bus))
    (converged : bool) (iterations : nat) (max_mismatch : xfloat)
  : LoadFlowResult.t :=
  let total_gen_p :=
    py_sum (p_calculated <$> filter (fun b => p_calculated b > 0) stored.*2) in
  let total_gen_q :=
    py_sum (q_calculated <$> filter (fun b => q_calculated b > 0) stored.*2) in
  let total_load_p :=
    py_sum ((fun b => Rabs (p_calculated b)) <$>
            filter (fun b => p_calculated b < 0) stored.*2) in
  let total_load_q :=
    py_sum ((fun b => Rabs (q_calculated b)) <$>
            filter (fun b => q_calculated b < 0) stored.*2) in
  let total_loss_p := total_gen_p - total_load_p in
  let total_loss_q := total_gen_q - total_load_q in
  LoadFlowResult.mk converged iterations max_mismatch stored []
    total_gen_p total_gen_q total_load_p total_load_q
    total_loss_p total_loss_q.

Definition solve : option LoadFlowResult.t :=
  '(v, theta) ← initial_state;
  st ← newton_raphson (max_iterations self)
         (mkLoopState v theta false 0 Infinity None);
  stored ← store_results (buses self) st;
  Some (_compile_results stored (ls_converged st) (ls_iteration st)
          (ls_max_mismatch st)).

(** The mismatch that the first pass of [solve] computes, when there is a
    first pass. *)
Definition first_mismatch : option R :=
  '(v, theta) ← initial_state;
  if decide (max_iterations self = 0)%nat then None
  else
    '(p_calc, q_calc) ← _calculate_power v theta;
    '(delta_p, delta_q) ←
      power_mismatch (buses_values self) p_calc q_calc
        (replicate (n_buses self) 0) (replicate (n_buses self) 0);
    max_abs_mismatch delta_p delta_q.

End Solver.



End LoadFlow.

(** What [solve] stores in a bus: entry [kb'] of the result comes from entry
    [kb] of the input, with the state [v], [theta] and the calculated powers
    [p_calc], [q_calc] read at the index of the bus. *)
Definition stored_from (self : LoadFlow.NewtonRaphsonLoadFlow)
    (v theta p_calc q_calc : list R) (kb kb' : string * LoadFlow.Bus) : Prop :=
  kb'.1 = kb.1 /\
  LoadFlow.id kb'.2 = LoadFlow.id kb.2 /\
  LoadFlow.bus_type kb'.2 = LoadFlow.bus_type kb.2 /\
  exists idx : nat,
    LoadFlow.bus_index self !! LoadFlow.id kb.2 = Some idx /\
    v !! idx = Some (LoadFlow.v_magnitude kb'.2) /\
    theta !! idx = Some (LoadFlow.v_angle kb'.2) /\
    p_calc !! idx = Some (LoadFlow.p_calculated kb'.2) /\
    q_calc !! idx = Some (LoadFlow.q_calculated kb'.2).

(** Two buses of the system never share a position in the arrays. *)
Definition distinct_indices (self : LoadFlow.NewtonRaphsonLoadFlow) : Prop :=
  forall b1 b2,
    b1 ∈ LoadFlow.buses_values self -> b2 ∈ LoadFlow.buses_values self ->
    LoadFlow.bus_index self !! LoadFlow.id b1 =
    LoadFlow.bus_index self !! LoadFlow.id b2 ->
    b1 = b2.

(** The state [v], [theta] holds the specified voltage and angle at every
    slack bus and the specified voltage at every PV bus. *)
Definition boundary_values_hold (self : LoadFlow.NewtonRaphsonLoadFlow)
    (v theta : list R) : Prop :=
  forall b idx,
    b ∈ LoadFlow.buses_values self ->
    LoadFlow.bus_index self !! LoadFlow.id b = Some idx ->
    (LoadFlow.bus_type b = LoadFlow.SLACK ->
     v !! idx = Some (LoadFlow.v_specified b) /\
     theta !! idx = Some (LoadFlow.theta_specified b)) /\
    (LoadFlow.bus_type b = LoadFlow.PV ->
     v !! idx = Some (LoadFlow.v_specified b)).

(** What [solve] leaves of a bus: every field but the four calculated ones. *)
Definition same_specification (b b' : LoadFlow.Bus) : Prop :=
  LoadFlow.id b' = LoadFlow.id b /\
  LoadFlow.bus_type b' = LoadFlow.bus_type b /\
  LoadFlow.p_specified b' = LoadFlow.p_specified b /\
  LoadFlow.q_specified b' = LoadFlow.q_specified b /\
  LoadFlow.v_specified b' = LoadFlow.v_specified b /\
  LoadFlow.theta_specified b' = LoadFlow.theta_specified b.


(** The phasor of magnitude [v] and angle [theta]. *)
Definition phasor (v theta : R) : complex :=
  Complex (v * cos theta) (v * sin theta).


(** Entry [Y[a, b]] of a matrix, when the indices are in range. *)
Definition matrix_entry {A : Type} (Y : list (list A)) (a b : nat) : option A :=
  row ← Y !! a; row !! b.

(** The complex power injected at bus [i] of a network of [n] buses:
    S_i = V_i * conj (sum_j Y_ij * V_j). *)
Definition complex_power (Y : list (list complex)) (v theta : list R)
    (n i : nat) : complex :=
  let V := fun k => phasor (default 0 (v !! k)) (default 0 (theta !! k)) in
  Cmul (V i)
    (Cconj (Csum ((fun j => Cmul (default C0 (matrix_entry Y i j)) (V j))
                  <$> seq 0 n))).

(** The entries of the matrix that [_build_jacobian] fills in. *)
Definition tridiagonal_entry (i j : nat) : R :=
  if decide (i = j) then 10
  else if decide (i = S j \/ j = S i) then -1
  else 0.

(** What one branch of admittance [y] between the positions [i] and [j] adds
    to entry [(a, b)] of the Y-bus: the four in-place updates of
    [build_admittance_matrix]. *)
Definition branch_stamp (i j : nat) (y : complex) (a b : nat) : complex :=
  Cadd (Cadd (Cadd (if decide (a = i /\ b = j) then Csub C0 y else C0)
                   (if decide (a = j /\ b = i) then Csub C0 y else C0))
             (if decide (a = i /\ b = i) then y else C0))
       (if decide (a = j /\ b = j) then y else C0).

(** The admittances of the branches of nonzero impedance that join the
    positions [a] and [b], in either direction, added up. *)
Fixpoint admittance_between (node_index : gmap string nat)
    (impedances : list ((string * string) * complex)) (a b : nat) : complex :=
  match impedances with
  | [] => C0
  | ((from_node, to_node), z) :: rest =>
      let here :=
        match Cdiv C1 z, node_index !! from_node, node_index !! to_node with
        | Some y, Some i, Some j =>
            if decide ((i = a /\ j = b) \/ (i = b /\ j = a)) then y else C0
        | _, _, _ => C0
        end in
      Cadd here (admittance_between node_index rest a b)
  end.

(** The admittances of the branches of nonzero impedance with exactly one end
    at position [a], added up. *)
Fixpoint admittance_at (node_index : gmap string nat)
    (impedances : list ((string * string) * complex)) (a : nat) : complex :=
  match impedances with
  | [] => C0
  | ((from_node, to_node), z) :: rest =>
      let here :=
        match Cdiv C1 z, node_index !! from_node, node_index !! to_node with
        | Some y, Some i, Some j =>
            if decide ((i = a /\ j <> a) \/ (i <> a /\ j = a)) then y else C0
        | _, _, _ => C0
        end in
      Cadd here (admittance_at node_index rest a)
  end.

(** The matrix is [n] by [n] and every row sums to zero. *)
Definition balanced (n : nat) (Y : list (list complex)) : Prop :=
  length Y = n /\
  forall k, (k < n)%nat ->
    length <$> (Y !! k) = Some n /\ Csum <$> (Y !! k) = Some C0.

(** ** topology.py *)

Module Topology.

(** [TopologyNode]; the free-form [properties] dictionary plays no part in
    the analysis and is left out. *)
Module TopologyNode.
Record t : Type := mk {
  id : string;
  type : string;
  tag : string;
  voltage_level : R;
  upstream_nodes : list string;
  downstream_nodes : list string;
  level : Z;
  bus_name : option string
}.

(** [node.level = l] *)
Definition set_level (node : t) (l : Z) : t :=
  mk (id node) (type node) (tag node) (voltage_level node)
     (upstream_nodes node) (downstream_nodes node) l (bus_name node).

Definition add_upstream (x : string) (node : t) : t :=
  mk (id node) (type node) (tag node) (voltage_level node)
     (upstream_nodes node ++ [x]) (downstream_nodes node) (level node)
     (bus_name node).

Definition add_downstream (x : string) (node : t) : t :=
  mk (id node) (type node) (tag node) (voltage_level node)
     (upstream_nodes node) (downstream_nodes node ++ [x]) (level node)
     (bus_name node).
End TopologyNode.

Module TopologyEdge.
Record t : Type := mk {
  id : string;
  source_id : string;
  target_id : string;
  cable_id : option string;
  impedance : complex;
  length : R
}.
End TopologyEdge.

Record TopologyGraph : Type := mkTopologyGraph {
  nodes : gmap string TopologyNode.t;
  edges : gmap string TopologyEdge.t;
  adjacency : gmap string (list string);
  reverse_adjacency : gmap string (list string);
  buses : gmap string (gset string);
  sources : list string
}.

Definition __init__ : TopologyGraph := mkTopologyGraph ∅ ∅ ∅ ∅ ∅ [].

Definition add_node (self : TopologyGraph) (node : TopologyNode.t)
  : TopologyGraph :=
  if decide (TopologyNode.type node = "Source"%string) then
    mkTopologyGraph
      (<[TopologyNode.id node := TopologyNode.set_level node 0]> (nodes self))
      (edges self) (adjacency self) (reverse_adjacency self) (buses self)
      (sources self ++ [TopologyNode.id node])
  else
    mkTopologyGraph
      (<[TopologyNode.id node := node]> (nodes self))
      (edges self) (adjacency self) (reverse_adjacency self) (buses self)
      (sources self).

(** [d[k].append(x)] on a [defaultdict(list)]. *)
Definition append_to (d : gmap string (list string)) (k x : string)
  : gmap string (list string) :=
  <[k := default [] (d !! k) ++ [x]]> d.

Definition add_edge (self : TopologyGraph) (edge : TopologyEdge.t)
  : TopologyGraph :=
  let s := TopologyEdge.source_id edge in
  let t := TopologyEdge.target_id edge in
  let nodes' :=
    if decide (is_Some (nodes self !! s) /\ is_Some (nodes self !! t)) then
      alter (TopologyNode.add_upstream s) t
        (alter (TopologyNode.add_downstream t) s (nodes self))
    else nodes self in
  mkTopologyGraph nodes'
    (<[TopologyEdge.id edge := edge]> (edges self))
    (append_to (adjacency self) s t)
    (append_to (reverse_adjacency self) t s)
    (buses self) (sources self).

(** [self.adjacency.get(node_id, [])] *)
Definition downstream_of (adjacency : gmap string (list string))
    (node_id : string) : list string :=
  default [] (adjacency !! node_id).

(** The update of one node's level in the search:
    [if level == -1 or new < level: level = new]. *)
Definition relax (new : Z) (node : TopologyNode.t) : TopologyNode.t :=
  if decide (TopologyNode.level node = (-1)%Z \/ (new < TopologyNode.level node)%Z)
  then TopologyNode.set_level node new
  else node.

(** The inner loop over the downstream nodes: the ones not visited yet are
    marked and queued at the next level. *)
Definition enqueue_downstream (level : Z) (downstream : list string)
    (queue : list (string * Z)) (visited : gset string)
  : list (string * Z) * gset string :=
  foldl (fun (qv : list (string * Z) * gset string) downstream_id =>
           if decide (downstream_id ∈ qv.2) then qv
           else (qv.1 ++ [(downstream_id, (level + 1)%Z)],
                 {[downstream_id]} ∪ qv.2))
        (queue, visited) downstream.

(** [while queue:] with a bound on the number of passes; [None] when the
    bound is too small. *)
Fixpoint bfs_loop (fuel : nat) (adjacency : gmap string (list string))
    (queue : list (string * Z)) (visited : gset string)
    (nodes : gmap string TopologyNode.t)
  : option (gmap string TopologyNode.t) :=
  match queue with
  | [] => Some nodes
  | (node_id, level) :: queue' =>
      match fuel with
      | O => None
      | S fuel' =>
          let nodes' := alter (relax level) node_id nodes in
          let qv := enqueue_downstream level
                      (downstream_of adjacency node_id) queue' visited in
          bfs_loop fuel' adjacency qv.1 qv.2 nodes'
      end
  end.

(** Every node that is the target of an edge: only these are ever queued
    after the source, each at most once, which bounds the passes. *)
Definition targets (adjacency : gmap string (list string)) : gset string :=
  ⋃ (list_to_set <$> (map_to_list adjacency).*2).

Definition bfs_fuel (adjacency : gmap string (list string)) : nat :=
  S (size (targets adjacency)).

(** The search from one source. *)
Definition bfs_from (adjacency : gmap string (list string))
    (source_id : string) (nodes : gmap string TopologyNode.t)
  : option (gmap string TopologyNode.t) :=
  bfs_loop (bfs_fuel adjacency) adjacency [(source_id, 0%Z)] {[source_id]} nodes.

Fixpoint bfs_all (adjacency : gmap string (list string))
    (sources : list string) (nodes : gmap string TopologyNode.t)
  : option (gmap string TopologyNode.t) :=
  match sources with
  | [] => Some nodes
  | source_id :: rest =>
      nodes' ← bfs_from adjacency source_id nodes;
      bfs_all adjacency rest nodes'
  end.

(** [for node in self.nodes.values(): if node.type != "Source": node.level = -1] *)
Definition reset_level (node : TopologyNode.t) : TopologyNode.t :=
  if decide (TopologyNode.type node <> "Source"%string)
  then TopologyNode.set_level node (-1)
  else node.

Definition calculate_network_levels (self : TopologyGraph)
  : option TopologyGraph :=
  nodes' ← bfs_all (adjacency self) (sources self) (reset_level <$> nodes self);
  Some (mkTopologyGraph nodes' (edges self) (adjacency self)
          (reverse_adjacency self) (buses self) (sources self)).

(** [l.remove(x)] guarded by [x in l]: the first occurrence goes. *)
Fixpoint remove_first (x : string) (l : list string) : list string :=
  match l with
  | [] => []
  | y :: l' => if decide (y = x) then l' else y :: remove_first x l'
  end.

(** [if x in d[k]: d[k].remove(x)] on a [defaultdict(list)]: reading [d[k]]
    creates the key. *)
Definition remove_from (d : gmap string (list string)) (k x : string)
  : gmap string (list string) :=
  <[k := remove_first x (default [] (d !! k))]> d.

Definition remove_downstream (x : string) (node : TopologyNode.t)
  : TopologyNode.t :=
  TopologyNode.mk (TopologyNode.id node) (TopologyNode.type node)
    (TopologyNode.tag node) (TopologyNode.voltage_level node)
    (TopologyNode.upstream_nodes node)
    (remove_first x (TopologyNode.downstream_nodes node))
    (TopologyNode.level node) (TopologyNode.bus_name node).

Definition remove_upstream (x : string) (node : TopologyNode.t)
  : TopologyNode.t :=
  TopologyNode.mk (TopologyNode.id node) (TopologyNode.type node)
    (TopologyNode.tag node) (TopologyNode.voltage_level node)
    (remove_first x (TopologyNode.upstream_nodes node))
    (TopologyNode.downstream_nodes node)
    (TopologyNode.level node) (TopologyNode.bus_name node).

Definition remove_edge (self : TopologyGraph) (edge_id : string)
  : TopologyGraph :=
  match edges self !! edge_id with
  | None => self
  | Some edge =>
      let s := TopologyEdge.source_id edge in
      let t := TopologyEdge.target_id edge in
      mkTopologyGraph
        (alter (remove_upstream s) t (alter (remove_downstream t) s (nodes self)))
        (delete edge_id (edges self))
        (remove_from (adjacency self) s t)
        (remove_from (reverse_adjacency self) t s)
        (buses self) (sources self)
  end.

(** The inner loop of [get_upstream_nodes] and [get_downstream_nodes]: the
    neighbours not visited yet are marked, recorded and queued. *)
Definition collect_neighbours (neighbours : list string)
    (queue : list string) (visited : gset string) (found : list string)
  : list string * gset string * list string :=
  foldl (fun (st : list string * gset string * list string) child =>
           if decide (child ∈ st.1.2) then st
           else (st.1.1 ++ [child], {[child]} ∪ st.1.2, st.2 ++ [child]))
        (queue, visited, found) neighbours.

(** Their [while queue:] loop, with a bound on the number of passes. *)
Fixpoint collect_loop (fuel : nat) (adjacency : gmap string (list string))
    (queue : list string) (visited : gset string) (found : list string)
  : option (list string) :=
  match queue with
  | [] => Some found
  | current :: queue' =>
      match fuel with
      | O => None
      | S fuel' =>
          let st := collect_neighbours (downstream_of adjacency current)
                      queue' visited found in
          collect_loop fuel' adjacency st.1.1 st.1.2 st.2
      end
  end.

Definition get_upstream_nodes (self : TopologyGraph) (node_id : string)
  : option (list string) :=
  if decide (is_Some (nodes self !! node_id)) then
    collect_loop (bfs_fuel (reverse_adjacency self)) (reverse_adjacency self)
      [node_id] {[node_id]} []
  else Some [].

Definition get_downstream_nodes (self : TopologyGraph) (node_id : string)
  : option (list string) :=
  if decide (is_Some (nodes self !! node_id)) then
    collect_loop (bfs_fuel (adjacency self)) (adjacency self)
      [node_id] {[node_id]} []
  else Some [].

(** The inner loop of [find_path]: each neighbour not visited yet is queued
    with the path that leads to it. *)
Definition extend_paths (path : list string) (neighbours : list string)
    (queue : list (string * list string)) (visited : gset string)
  : list (string * list string) * gset string :=
  foldl (fun (qv : list (string * list string) * gset string) neighbor =>
           if decide (neighbor ∈ qv.2) then qv
           else (qv.1 ++ [(neighbor, path ++ [neighbor])],
                 {[neighbor]} ∪ qv.2))
        (queue, visited) neighbours.

(** The loop of [find_path]: the outer [None] is a bound that was too small,
    the inner one the value [None] that the function returns. *)
Fixpoint find_path_loop (fuel : nat) (adjacency : gmap string (list string))
    (to_id : string) (queue : list (string * list string))
    (visited : gset string) : option (option (list string)) :=
  match queue with
  | [] => Some None
  | (node_id, path) :: queue' =>
      match fuel with
      | O => None
      | S fuel' =>
          if decide (node_id = to_id) then Some (Some path)
          else
            let qv := extend_paths path (downstream_of adjacency node_id)
                        queue' visited in
            find_path_loop fuel' adjacency to_id qv.1 qv.2
      end
  end.

Definition find_path (self : TopologyGraph) (from_id to_id : string)
  : option (option (list string)) :=
  if decide (is_Some (nodes self !! from_id) /\ is_Some (nodes self !! to_id))
  then
    find_path_loop (bfs_fuel (adjacency self)) (adjacency self) to_id
      [(from_id, [from_id])] {[from_id]}
  else Some None.

(** [node_id in self.nodes and self.nodes[node_id].type in ["Motor", "Load"]] *)
Definition is_feeder_load (self : TopologyGraph) (node_id : string) : bool :=
  match nodes self !! node_id with
  | Some node =>
      bool_decide (TopologyNode.type node = "Motor"%string \/
                   TopologyNode.type node = "Load"%string)
  | None => false
  end.

Definition get_feeder_loads (self : TopologyGraph) (feeder_start_id : string)
  : option (list string) :=
  downstream ← get_downstream_nodes self feeder_start_id;
  Some (filter (fun node_id => is_feeder_load self node_id) downstream).

(** A directed path of [n] edges. *)
Inductive path (adjacency : gmap string (list string))
  : string -> string -> nat -> Prop :=
| path_here (s : string) : path adjacency s s 0
| path_step (s u v : string) (n : nat) :
    path adjacency s u n -> v ∈ downstream_of adjacency u ->
    path adjacency s v (S n).

(** [n] is the least number of edges from [s] to [v]. *)
Definition distance (adjacency : gmap string (list string))
    (s v : string) (n : nat) : Prop :=
  path adjacency s v n /\ forall m, path adjacency s v m -> (n <= m)%nat.

Definition is_source (self : TopologyGraph) (s : string) : Prop :=
  exists node, nodes self !! s = Some node /\
               TopologyNode.type node = "Source"%string.

(** The state of a graph that [add_node] and [add_edge] built without giving
    the id of a Source node to a node of another type afterwards: the source
    list holds the Source nodes, which are at level 0. *)
Definition well_formed (self : TopologyGraph) : Prop :=
  (forall s, s ∈ sources self <-> is_source self s) /\
  (forall x node, nodes self !! x = Some node ->
      TopologyNode.type node = "Source"%string -> TopologyNode.level node = 0%Z).

(** The graphs that the methods of [TopologyGraph] build. *)
Inductive built : TopologyGraph -> Prop :=
| built_init : built __init__
| built_add_node (g : TopologyGraph) (node : TopologyNode.t) :
    built g -> built (add_node g node)
| built_add_edge (g : TopologyGraph) (edge : TopologyEdge.t) :
    built g -> built (add_edge g edge)
| built_remove_edge (g : TopologyGraph) (edge_id : string) :
    built g -> built (remove_edge g edge_id)
| built_levels (g g' : TopologyGraph) :
    built g -> calculate_network_levels g = Some g' -> built g'.

(** How often [x] occurs in [l]. *)
Definition occurrences (x : string) (l : list string) : nat :=
  length (filter (fun y => y = x) l).

(** Every two neighbours on the list [p] are joined by an edge. *)
Definition is_walk (adjacency : gmap string (list string)) (p : list string)
  : Prop :=
  forall i u v, p !! i = Some u -> p !! S i = Some v ->
    v ∈ downstream_of adjacency u.

(** Two nodes that differ in their level only. *)
Definition same_but_level (a b : TopologyNode.t) : Prop :=
  exists l, b = TopologyNode.set_level a l.

End Topology.

(** ** integrated_calc.py *)

Module IntegratedCalc.

(** The search of [_validate_breakers] for the largest fault current among
    the downstream nodes that have a short-circuit result, in binary64
    arithmetic; [i_k3_initial] holds the field [sc_results[id].i_k3_initial]
    for every [id] in [sc_results], the only part of the results that the
    loop reads. *)
Definition max_fault_current (downstream : list string)
    (i_k3_initial : gmap string float) : float :=
  foldl (fun max_fault_current down_id =>
           match i_k3_initial !! down_id with
           | Some fault_i =>
               if (max_fault_current <? fault_i)%float then fault_i
               else max_fault_current
           | None => max_fault_current
           end)
        0%float downstream.

(** The body of the loop of [_validate_breakers] for one node, with the
    rating [breaker_rating] read from the component data: the inner [None]
    is a node that gets no entry in [validations]. *)
Definition validate_breaker (topology : Topology.TopologyGraph)
    (i_k3_initial : gmap string float)
    (breaker_rating : float) (node : Topology.TopologyNode.t)
  : option (option ShortCircuit.BreakerValidation) :=
  if decide (Topology.TopologyNode.type node = "Breaker"%string) then
    downstream ← Topology.get_downstream_nodes topology
                   (Topology.TopologyNode.id node);
    let max_fault_current := max_fault_current downstream i_k3_initial in
    if (0 <? max_fault_current)%float then
      validation ← ShortCircuit.validate_breaker_rating max_fault_current
                     breaker_rating (Topology.TopologyNode.voltage_level node);
      Some (Some validation)
    else Some None
  else Some None.

(** The first loop of [_compile_summary], over [sc_results.items()]. *)
Definition max_fault (sc_results : list (string * ShortCircuit.ShortCircuitResult))
  : R * option string :=
  foldl (fun (acc : R * option string) item =>
           if decide (ShortCircuit.i_k3_initial item.2 > acc.1)
           then (ShortCircuit.i_k3_initial item.2, Some item.1)
           else acc)
        (0, None) sc_results.

Record LoadFlowSummary : Type := mkLoadFlowSummary {
  lf_converged : bool;
  lf_iterations : nat;
  total_load_mw : R;
  total_losses_mw : R
}.

Record Summary : Type := mkSummary {
  buses_analyzed : nat;
  max_fault_current_ka : R;
  max_fault_bus : option string;
  breakers_total : nat;
  breakers_pass : nat;
  breakers_fail : nat;
  load_flow : option LoadFlowSummary
}.

(** [_compile_summary]; [breaker_vals] holds the values of the dictionary. *)
Definition _compile_summary (base_mva : R)
    (sc_results : list (string * ShortCircuit.ShortCircuitResult))
    (lf_result : option LoadFlow.LoadFlowResult.t)
    (breaker_vals : list ShortCircuit.BreakerValidation) : Summary :=
  let '(max_fault, max_fault_bus) := max_fault sc_results in
  let breakers_pass :=
    length (filter (fun v => ShortCircuit.is_adequate v = true) breaker_vals) in
  let breakers_fail := (length breaker_vals - breakers_pass)%nat in
  mkSummary (length sc_results) (py_round max_fault 2) max_fault_bus
    (length breaker_vals) breakers_pass breakers_fail
    (lf ← lf_result;
     Some (mkLoadFlowSummary
             (LoadFlow.LoadFlowResult.converged lf)
             (LoadFlow.LoadFlowResult.iterations lf)
             (py_round (LoadFlow.LoadFlowResult.total_load_p lf * base_mva) 2)
             (py_round (LoadFlow.LoadFlowResult.total_losses_p lf * base_mva) 2))).

End IntegratedCalc.

(** The invariant of the search from [s]: [done] is the set of the nodes
    taken from the queue so far, [nodes0] the node table before the search. *)
Record bfs_invariant (adjacency : gmap string (list string)) (s : string)
    (nodes0 : gmap string Topology.TopologyNode.t)
    (queue : list (string * Z)) (visited : gset string)
    (nodes : gmap string Topology.TopologyNode.t) (done : gset string)
  : Prop := mk_bfs_invariant {
  inv_source : s ∈ visited;
  inv_visited : forall x, x ∈ visited <-> x ∈ done \/ x ∈ queue.*1;
  inv_queue : forall v l, (v, l) ∈ queue ->
      exists n, l = Z.of_nat n /\ Topology.distance adjacency s v n;
  inv_closed : forall p w, p ∈ done ->
      w ∈ Topology.downstream_of adjacency p -> w ∈ visited;
  inv_front : exists h A B, queue = A ++ B /\
      Forall (fun x => x.2 = h) A /\ Forall (fun x => x.2 = (h + 1)%Z) B;
  inv_done : forall p, p ∈ done ->
      exists n, Topology.distance adjacency s p n /\
                nodes !! p = Topology.relax (Z.of_nat n) <$> nodes0 !! p;
  inv_rest : forall x, x ∉ done -> nodes !! x = nodes0 !! x
}.

(** What [find_path] keeps in its queue: a node with a walk from [s] to it,
    beside the level that the search for the levels would give it. *)
Definition queued_path (adjacency : gmap string (list string)) (s : string)
    (e : string * list string) (g : string * Z) : Prop :=
  g.1 = e.1 /\ g.2 = (Z.of_nat (length e.2) - 1)%Z /\
  head e.2 = Some s /\ last e.2 = Some e.1 /\ Topology.is_walk adjacency e.2.

(** The levels after the searches from the sources [srcs], for a node table
    that started with level 0 at the Source nodes and -1 elsewhere. *)
Definition levels_from (adjacency : gmap string (list string))
    (srcs : list string) (node0 node : Topology.TopologyNode.t) (x : string)
  : Prop :=
  Topology.same_but_level node0 node /\
  ((Topology.TopologyNode.level node0 = 0%Z /\
    Topology.TopologyNode.level node = 0%Z) \/
   (Topology.TopologyNode.level node0 = (-1)%Z /\
    ((Topology.TopologyNode.level node = (-1)%Z /\
      forall s m, s ∈ srcs -> ~ Topology.path adjacency s x m) \/
     (exists s d, s ∈ srcs /\ Topology.distance adjacency s x d /\
        Topology.TopologyNode.level node = Z.of_nat d /\
        forall s' m, s' ∈ srcs -> Topology.path adjacency s' x m -> (d <= m)%nat)))).

(** ** Example systems

    The systems of the modules' self-tests ([__main__] blocks), and a two-bus
    load-flow system small enough to solve by hand. *)

(** short_circuit.py: 0.4 kV bus behind utility and transformer, 100 MVA
    base, maximum fault current; a 50 m cable to the fault point. *)
Definition example_params : ShortCircuit.ShortCircuitParameters :=
  ShortCircuit.mkShortCircuitParameters 0.4 100 (Complex 0.20 2.0) 1.1 50.
Definition example_z_cable_pu : complex := Complex 0.0005 0.0003.

(** The same supply with a longer cable to the fault point. *)
Definition example_z_long_cable_pu : complex := Complex 0.0010 0.0006.

(** load_flow.py: a slack bus feeding one PQ bus over a lossless line of
    reactance 0.2 pu, so that the branch admittance is -5j. *)
Definition example_slack_bus : LoadFlow.Bus :=
  LoadFlow.mkBus "1" LoadFlow.SLACK 0 0 1 0 1 0 0 0.
Definition example_load_bus : LoadFlow.Bus :=
  LoadFlow.mkBus "2" LoadFlow.PQ (-0.5) (-0.2) 1 0 1 0 0 0.
Definition example_idle_bus : LoadFlow.Bus :=
  LoadFlow.mkBus "2" LoadFlow.PQ 0 0 1 0 1 0 0 0.
Definition example_y_bus : list (list complex) :=
  [[Complex 0 (-5); Complex 0 5]; [Complex 0 5; Complex 0 (-5)]].
Definition example_bus_index : gmap string nat := <["1" := 0%nat]> (<["2" := 1%nat]> ∅).
Definition example_system (bus2 : LoadFlow.Bus) : LoadFlow.NewtonRaphsonLoadFlow :=
  LoadFlow.mkNewtonRaphsonLoadFlow
    [("1", example_slack_bus); ("2", bus2)]%string
    example_y_bus example_bus_index 20 1e-6.


(** A linear solver that reports a singular matrix; the runs below that use
    it converge before the solver is called. *)
Definition singular_solver (A : list (list R)) (b : list R)
  : LoadFlow.linalg_result := LoadFlow.LinAlgError.

(** The real power that [_calculate_power] finds at bus [i]. *)
Definition p_calc_at (self : LoadFlow.NewtonRaphsonLoadFlow)
    (v theta : list R) (i : nat) : R :=
  default 0 (pq ← LoadFlow._calculate_power self v theta; pq.1 !! i).

(** per_unit.py: three nodes in a chain. *)
Definition example_nodes : list string := ["1"; "2"; "3"]%string.
Definition example_impedances : list ((string * string) * complex) :=
  [(("1", "2"), Complex 0.01 0.05); (("2", "3"), Complex 0.02 0.06)]%string.

(** topology.py: a source, a transformer, a bus and two motor feeders. *)
Definition example_topology_nodes : list Topology.TopologyNode.t :=
  [Topology.TopologyNode.mk "1" "Source" "SRC-11-01" 11.0 [] [] 0 None;
   Topology.TopologyNode.mk "2" "Transformer" "T-11-SRC-MDP-01" 11.0 [] [] 0 None;
   Topology.TopologyNode.mk "3" "Bus" "BUS-0.4-MDP-01" 0.4 [] [] 0 None;
   Topology.TopologyNode.mk "4" "Cable" "C-0.4-MDP-M1-01" 0.4 [] [] 0 None;
   Topology.TopologyNode.mk "5" "Motor" "M-0.4-M1-01" 0.4 [] [] 0 None;
   Topology.TopologyNode.mk "6" "Cable" "C-0.4-MDP-M2-01" 0.4 [] [] 0 None;
   Topology.TopologyNode.mk "7" "Motor" "M-0.4-M2-01" 0.4 [] [] 0 None]%string.

Definition example_topology_edges : list Topology.TopologyEdge.t :=
  [Topology.TopologyEdge.mk "e1" "1" "2" None (Complex 0.05 0.15) 0;
   Topology.TopologyEdge.mk "e2" "2" "3" None (Complex 0.01 0.03) 0;
   Topology.TopologyEdge.mk "e3" "3" "4" (Some "cable1") (Complex 0.008 0.004) 50;
   Topology.TopologyEdge.mk "e4" "4" "5" None C0 0;
   Topology.TopologyEdge.mk "e5" "3" "6" (Some "cable2") (Complex 0.012 0.006) 75;
   Topology.TopologyEdge.mk "e6" "6" "7" None C0 0]%string.

Definition example_topology : Topology.TopologyGraph :=
  foldl Topology.add_edge
    (foldl Topology.add_node Topology.__init__ example_topology_nodes)
    example_topology_edges.

(** integrated_calc.py: a source feeding a load through a breaker, and the
    fault found at the load. *)
Definition example_breaker : Topology.TopologyNode.t :=
  Topology.TopologyNode.mk "2" "Breaker" "CB-0.4-MDP-01" 0.4 [] [] 0 None.
Definition example_feeder : Topology.TopologyGraph :=
  foldl Topology.add_edge
    (foldl Topology.add_node Topology.__init__
       [Topology.TopologyNode.mk "1" "Source" "SRC-0.4-01" 0.4 [] [] 0 None;
        example_breaker;
        Topology.TopologyNode.mk "3" "Load" "L-0.4-01" 0.4 [] [] 0 None]%string)
    [Topology.TopologyEdge.mk "e1" "1" "2" None C0 0;
     Topology.TopologyEdge.mk "e2" "2" "3" None C0 0]%string.
Definition example_fault_currents : gmap string float :=
  {["3"%string := 8%float]}.


(** The levels of the nodes of a graph, by node identity. *)
Definition levels_of (g : option Topology.TopologyGraph) (ids : list string)
  : list (option Z) :=
  (fun x => g' ← g; node ← Topology.nodes g' !! x;
            Some (Topology.TopologyNode.level node)) <$> ids.

(* ================================================================== *)
(** * Properties *)
(* ================================================================== *)

Lemma fdiv_Some (a b : R) : b <> 0 -> fdiv a b = Some (a / b).
Proof. intros Hb. unfold fdiv. destruct (decide (b = 0)); [contradiction|reflexivity]. Qed.

Lemma fdiv_inv (a b q : R) : fdiv a b = Some q -> b <> 0 /\ q = a / b.
Proof.
  unfold fdiv. destruct (decide (b = 0)); [discriminate|].
  intros [= <-]. split; [assumption|reflexivity].
Qed.

(** ** Complex arithmetic *)

Lemma complex_eq (a b : complex) : real a = real b -> imag a = imag b -> a = b.
Proof. destruct a, b; simpl; intros -> ->; reflexivity. Qed.

Lemma Cmul_real_eq (z : complex) (k : R) :
  Cmul_real z k = Complex (real z * k) (imag z * k).
Proof. unfold Cmul_real, Cmul; simpl. apply complex_eq; simpl; ring. Qed.

Lemma Cdiv_real_Some (z : complex) (k : R) :
  k <> 0 -> Cdiv_real z k = Some (Complex (real z / k) (imag z / k)).
Proof.
  intros Hk. unfold Cdiv_real, Cdiv.
  destruct (decide (Complex k 0 = C0)) as [E|_].
  - inversion E; contradiction.
  - f_equal. apply complex_eq; simpl; field; exact Hk.
Qed.

Lemma Cabs_nonneg (z : complex) : 0 <= Cabs z.
Proof. apply sqrt_pos. Qed.

Lemma Cabs_pos (z : complex) : z <> C0 -> 0 < Cabs z.
Proof.
  intros Hz. unfold Cabs. apply sqrt_lt_R0.
  destruct z as [a b]; simpl.
  destruct (Req_EM_T a 0) as [->|Ha].
  - destruct (Req_EM_T b 0) as [->|Hb]; [exfalso; apply Hz; reflexivity|].
    nra.
  - nra.
Qed.

Lemma Cabs_Cmul_real (z : complex) (k : R) :
  Cabs (Cmul_real z k) = Cabs z * Rabs k.
Proof.
  rewrite Cmul_real_eq. unfold Cabs; simpl.
  replace (real z * k * (real z * k) + imag z * k * (imag z * k))
    with ((real z * real z + imag z * imag z) * k²) by (unfold Rsqr; ring).
  rewrite sqrt_mult_alt by nra.
  rewrite sqrt_Rsqr_abs. reflexivity.
Qed.

Lemma sqrt3_pos : 0 < sqrt 3.
Proof. apply sqrt_lt_R0; lra. Qed.

Lemma sqrt2_pos : 0 < sqrt 2.
Proof. apply sqrt_lt_R0; lra. Qed.

(** ** Per-unit system *)

Section PerUnitProperties.
Import PerUnit.

Lemma well_formed_init (S : R) : S <> 0 -> well_formed (__init__ S).
Proof. intros HS; split; [exact HS|]. simpl; intros k b H; discriminate. Qed.

Lemma lookup_base_app (k : R) (d1 d2 : list (R * PerUnitBase)) :
  lookup_base k (d1 ++ d2) =
  match lookup_base k d1 with
  | Some b => Some b
  | None => lookup_base k d2
  end.
Proof.
  induction d1 as [|[k' b'] d1 IH]; simpl; [reflexivity|].
  destruct (decide (k' = k)); [reflexivity|exact IH].
Qed.

(** [get_base] on a well-formed system returns the base of the system's
    base power, and leaves the system well formed. *)
Lemma get_base_well_formed (self : PerUnitSystem) (V : R) :
  well_formed self ->
  (get_base self V).1 = mkPerUnitBase V (base_mva self) /\
  well_formed (get_base self V).2 /\
  base_mva (get_base self V).2 = base_mva self.
Proof.
  intros [HS Hwf]. unfold get_base, add_voltage_level.
  destruct (lookup_base V (voltage_bases self)) as [b|] eqn:E; simpl.
  - split; [apply Hwf; exact E|]. split; [split; assumption|reflexivity].
  - split; [reflexivity|]. split; [|reflexivity].
    split; [exact HS|]. simpl. intros k b. rewrite lookup_base_app.
    destruct (lookup_base k (voltage_bases self)) as [b'|] eqn:E'.
    + intros [= <-]. apply Hwf; exact E'.
    + simpl. destruct (decide (V = k)) as [->|]; [|discriminate].
      intros [= <-]; reflexivity.
Qed.

Lemma impedance_ohms_Some (V S : R) :
  0 < V -> S <> 0 ->
  impedance_ohms (mkPerUnitBase V S) = Some (V ^ 2 * 1000 / S) /\
  V ^ 2 * 1000 / S <> 0.
Proof.
  intros HV HS. unfold impedance_ohms; simpl. rewrite fdiv_Some by exact HS.
  split; [reflexivity|].
  intros H. apply (Rmult_eq_compat_r S) in H.
  replace (V * (V * 1) * 1000 / S * S) with (V * V * 1000) in H by (field; exact HS).
  nra.
Qed.

(** A second look-up of the same voltage finds the base of the first. *)
Lemma get_base_again (self : PerUnitSystem) (V : R) :
  get_base (get_base self V).2 V = get_base self V.
Proof.
  unfold get_base, add_voltage_level.
  destruct (lookup_base V (voltage_bases self)) as [b|] eqn:E; simpl.
  - rewrite E. reflexivity.
  - rewrite lookup_base_app, E. simpl.
    destruct (decide (V = V)); [reflexivity|contradiction].
Qed.

Lemma Cdiv_real_inv (z q : complex) (k : R) :
  Cdiv_real z k = Some q -> k <> 0 /\ q = Complex (real z / k) (imag z / k).
Proof.
  intros H. destruct (decide (k = 0)) as [->|Hk].
  - unfold Cdiv_real, Cdiv in H.
    destruct (decide (Complex 0 0 = C0)) as [_|N]; [discriminate|].
    exfalso; apply N; reflexivity.
  - rewrite Cdiv_real_Some in H by exact Hk. injection H as <-. auto.
Qed.

(** C4. Converting an impedance from per-unit to ohms and back at the same
    voltage, inside one per-unit system, returns the impedance unchanged (so
    within a relative error of 1e-9), and so does converting from ohms to
    per-unit and back: whenever the two conversions return, in any state of
    the system; and they do return for every voltage [V > 0] in a system
    whose base power is not zero. *)
Theorem per_unit_round_trip :
  (forall (self : PerUnitSystem) (z : complex) (V : R) (z_ohms z_pu : complex),
      (impedance_to_ohms self z V).1 = Some z_ohms ->
      (impedance_to_pu (impedance_to_ohms self z V).2 z_ohms V).1 = Some z_pu ->
      z_pu = z /\ Cabs (Csub z_pu z) <= 1e-9 * Cabs z) /\
  (forall (self : PerUnitSystem) (z : complex) (V : R) (z_pu z_ohms : complex),
      (impedance_to_pu self z V).1 = Some z_pu ->
      (impedance_to_ohms (impedance_to_pu self z V).2 z_pu V).1 = Some z_ohms ->
      z_ohms = z /\ Cabs (Csub z_ohms z) <= 1e-9 * Cabs z) /\
  (forall (self : PerUnitSystem) (z : complex) (V : R),
      well_formed self -> 0 < V ->
      (exists z_ohms z_pu,
          (impedance_to_ohms self z V).1 = Some z_ohms /\
          (impedance_to_pu (impedance_to_ohms self z V).2 z_ohms V).1 = Some z_pu /\
          z_pu = z /\ Cabs (Csub z_pu z) <= 1e-9 * Cabs z) /\
      (exists z_pu z_ohms,
          (impedance_to_pu self z V).1 = Some z_pu /\
          (impedance_to_ohms (impedance_to_pu self z V).2 z_pu V).1 = Some z_ohms /\
          z_ohms = z /\ Cabs (Csub z_ohms z) <= 1e-9 * Cabs z)).
Proof.
  assert (Herr : forall z w, w = z -> Cabs (Csub w z) <= 1e-9 * Cabs z).
  { intros z w ->. unfold Csub, Cabs at 1; simpl.
    replace ((real z - real z) * (real z - real z) +
             (imag z - imag z) * (imag z - imag z)) with 0 by ring.
    rewrite sqrt_0. pose proof (Cabs_nonneg z). lra. }
  assert (Hback : forall (self : PerUnitSystem) (z : complex) (V : R) z_ohms z_pu,
      (impedance_to_ohms self z V).1 = Some z_ohms ->
      (impedance_to_pu (impedance_to_ohms self z V).2 z_ohms V).1 = Some z_pu ->
      z_pu = z).
  { intros self z V z_ohms z_pu H1 H2.
    unfold impedance_to_ohms in H1, H2. unfold impedance_to_pu in H2.
    pose proof (get_base_again self V) as Hag.
    destruct (get_base self V) as [b s1] eqn:E1. simpl in Hag, H1, H2.
    rewrite Hag in H2. simpl in H2.
    destruct (impedance_ohms b) as [zb|]; cbn [mbind option_bind] in H1, H2;
      [|discriminate].
    injection H1 as <-. apply Cdiv_real_inv in H2. destruct H2 as [Hzb ->].
    rewrite Cmul_real_eq. apply complex_eq; simpl; field; exact Hzb. }
  assert (Hforth : forall (self : PerUnitSystem) (z : complex) (V : R) z_pu z_ohms,
      (impedance_to_pu self z V).1 = Some z_pu ->
      (impedance_to_ohms (impedance_to_pu self z V).2 z_pu V).1 = Some z_ohms ->
      z_ohms = z).
  { intros self z V z_pu z_ohms H1 H2.
    unfold impedance_to_pu in H1, H2. unfold impedance_to_ohms in H2.
    pose proof (get_base_again self V) as Hag.
    destruct (get_base self V) as [b s1] eqn:E1. simpl in Hag, H1, H2.
    rewrite Hag in H2. simpl in H2.
    destruct (impedance_ohms b) as [zb|]; cbn [mbind option_bind] in H1, H2;
      [|discriminate].
    apply Cdiv_real_inv in H1. destruct H1 as [Hzb ->].
    injection H2 as <-.
    rewrite Cmul_real_eq. apply complex_eq; simpl; field; exact Hzb. }
  split; [|split].
  - intros self z V z_ohms z_pu H1 H2.
    pose proof (Hback self z V z_ohms z_pu H1 H2) as E. split; [exact E|apply Herr, E].
  - intros self z V z_pu z_ohms H1 H2.
    pose proof (Hforth self z V z_pu z_ohms H1 H2) as E. split; [exact E|apply Herr, E].
  - intros self z V Hwf HV.
    destruct (get_base_well_formed self V Hwf) as (Hb & _ & _).
    destruct (impedance_ohms_Some V (base_mva self) HV (proj1 Hwf)) as [Hz Hnz].
    assert (Hohms : exists z_ohms, (impedance_to_ohms self z V).1 = Some z_ohms).
    { unfold impedance_to_ohms. destruct (get_base self V) as [b s1]. simpl in *.
      subst b. rewrite Hz. simpl. eexists; reflexivity. }
    assert (Hpu : forall w, exists z_pu, (impedance_to_pu self w V).1 = Some z_pu).
    { intros w. unfold impedance_to_pu. destruct (get_base self V) as [b s1].
      simpl in *. subst b. rewrite Hz. cbn [mbind option_bind].
      rewrite Cdiv_real_Some by exact Hnz. eexists; reflexivity. }
    assert (Hsame : forall w, (impedance_to_pu (impedance_to_ohms self z V).2 w V).1
                              = (impedance_to_pu self w V).1).
    { intros w. unfold impedance_to_pu, impedance_to_ohms.
      pose proof (get_base_again self V) as Hag.
      destruct (get_base self V) as [b s1]. simpl in *. rewrite Hag. reflexivity. }
    assert (Hsame' : forall w, (impedance_to_ohms (impedance_to_pu self z V).2 w V).1
                               = (impedance_to_ohms self w V).1).
    { intros w. unfold impedance_to_pu, impedance_to_ohms.
      pose proof (get_base_again self V) as Hag.
      destruct (get_base self V) as [b s1]. simpl in *. rewrite Hag. reflexivity. }
    split.
    + destruct Hohms as [z_ohms H1]. destruct (Hpu z_ohms) as [z_pu H2].
      rewrite <- Hsame in H2. exists z_ohms, z_pu.
      split; [exact H1|]. split; [exact H2|].
      pose proof (Hback self z V z_ohms z_pu H1 H2) as E.
      split; [exact E|apply Herr, E].
    + destruct (Hpu z) as [z_pu H1].
      assert (H2 : exists z_ohms,
                 (impedance_to_ohms (impedance_to_pu self z V).2 z_pu V).1 = Some z_ohms).
      { rewrite Hsame'. unfold impedance_to_ohms.
        destruct (get_base self V) as [b s1]. simpl in *.
        subst b. rewrite Hz. simpl. eexists; reflexivity. }
      destruct H2 as [z_ohms H2]. exists z_pu, z_ohms.
      split; [exact H1|]. split; [exact H2|].
      pose proof (Hforth self z V z_pu z_ohms H1 H2) as E.
      split; [exact E|apply Herr, E].
Qed.

End PerUnitProperties.

(** ** Rounding *)

Lemma round_half_even_IZR (n : Z) : round_half_even (IZR n) = n.
Proof.
  unfold round_half_even. rewrite ZfloorZ.
  destruct (decide (IZR n - IZR n < 1 / 2)) as [_|H]; [reflexivity|].
  exfalso; apply H; lra.
Qed.

Lemma round_half_even_down (n : Z) (x : R) :
  IZR n <= x < IZR n + 1 / 2 -> round_half_even x = n.
Proof.
  intros Hx. unfold round_half_even.
  rewrite (Zfloor_eq n x) by lra.
  destruct (decide (x - IZR n < 1 / 2)) as [_|H]; [reflexivity|].
  exfalso; apply H; lra.
Qed.

Lemma round_half_even_up (n : Z) (x : R) :
  IZR n + 1 / 2 < x < IZR n + 1 -> round_half_even x = (n + 1)%Z.
Proof.
  intros Hx. unfold round_half_even.
  rewrite (Zfloor_eq n x) by lra.
  destruct (decide (x - IZR n < 1 / 2)) as [H|_]; [lra|].
  destruct (decide (1 / 2 < x - IZR n)) as [_|H]; [reflexivity|].
  exfalso; apply H; lra.
Qed.

Lemma round_half_even_error (x : R) :
  - (1 / 2) <= IZR (round_half_even x) - x <= 1 / 2.
Proof.
  unfold round_half_even.
  pose proof (Zfloor_bound x) as Hb.
  set (n := Zfloor x) in *.
  assert (Hn1 : IZR (n + 1) = IZR n + 1) by (rewrite plus_IZR; reflexivity).
  destruct (decide (x - IZR n < 1 / 2)).
  - lra.
  - destruct (decide (1 / 2 < x - IZR n)).
    + rewrite Hn1. lra.
    + destruct (Z.even n); [|rewrite Hn1]; lra.
Qed.

Lemma py_round_1_error (x : R) : Rabs (py_round x 1 - x) <= 0.05.
Proof.
  unfold py_round. simpl pow. rewrite Rmult_1_r.
  pose proof (round_half_even_error (x * 10)) as H.
  apply Rabs_le. lra.
Qed.

(** ** Short-circuit currents *)

Section ShortCircuitProperties.
Import ShortCircuit.

(** The peak factor is computed for every impedance: the guard on [x == 0]
    keeps the division [r / x] away from a zero divisor. *)
Lemma peak_factor_total (z : complex) :
  _calculate_peak_factor z =
  Some (if decide (imag z = 0) then 1
        else 1.02 + 0.98 * exp (-3 * (real z / imag z))).
Proof.
  unfold _calculate_peak_factor.
  destruct (decide (imag z = 0)) as [E|N]; [reflexivity|].
  rewrite fdiv_Some by exact N. reflexivity.
Qed.

(** What [calculate_three_phase_fault] returns for a total per-unit
    impedance [Z] that is not zero. *)
Lemma three_phase_fault_result (params : ShortCircuitParameters)
    (fault : complex) (motor : option complex) (Z : complex) :
  0 < voltage_kv params -> base_mva params <> 0 ->
  total_impedance_pu params fault motor = Some Z -> Z <> C0 ->
  let Un := voltage_kv params in
  let c := voltage_factor_c params in
  let Z_ohms := Cmul_real Z (Un ^ 2 * 1000 / base_mva params) in
  exists res kappa,
    calculate_three_phase_fault params fault motor = Some res /\
    z_total res = Z_ohms /\
    0 < Cabs Z_ohms /\
    Cabs Z_ohms = Cabs Z * (Un ^ 2 * 1000 / Rabs (base_mva params)) /\
    i_k3_initial res = (c * Un) / (sqrt 3 * Cabs Z_ohms) /\
    _calculate_peak_factor Z_ohms = Some kappa /\
    i_k3_peak res = kappa * sqrt 2 * i_k3_initial res /\
    s_k3 res = sqrt 3 * Un * i_k3_initial res.
Proof.
  intros HU HS HZ HZ0 Un c Z_ohms.
  assert (Hzb : Un ^ 2 * 1000 / base_mva params <> 0).
  { unfold Un. intros H. apply (Rmult_eq_compat_r (base_mva params)) in H.
    replace (voltage_kv params ^ 2 * 1000 / base_mva params * base_mva params)
      with (voltage_kv params * voltage_kv params * 1000) in H
      by (field; exact HS).
    nra. }
  assert (Habs : Cabs Z_ohms = Cabs Z * (Un ^ 2 * 1000 / Rabs (base_mva params))).
  { unfold Z_ohms. rewrite Cabs_Cmul_real. f_equal.
    unfold Rdiv. rewrite Rabs_mult, Rabs_inv.
    rewrite (Rabs_pos_eq (Un ^ 2 * 1000)); [reflexivity|].
    unfold Un. simpl. nra. }
  assert (Hpos : 0 < Cabs Z_ohms).
  { unfold Z_ohms. rewrite Cabs_Cmul_real.
    apply Rmult_lt_0_compat; [apply Cabs_pos; exact HZ0|].
    apply Rabs_pos_lt; exact Hzb. }
  pose proof sqrt3_pos as H3.
  assert (Hden : sqrt 3 * Cabs Z_ohms <> 0) by nra.
  unfold calculate_three_phase_fault. rewrite HZ. cbn [mbind option_bind].
  fold Un. rewrite fdiv_Some by exact HS. cbn [mbind option_bind].
  fold Z_ohms. rewrite fdiv_Some by exact Hden. cbn [mbind option_bind].
  rewrite peak_factor_total. cbn [mbind option_bind].
  eexists; eexists. split; [reflexivity|].
  cbn [z_total i_k3_initial i_k3_peak s_k3].
  split; [reflexivity|]. split; [exact Hpos|]. split; [exact Habs|].
  split; [unfold c; field; split; nra|].
  split; [reflexivity|].
  split; reflexivity.
Qed.

(** What a result that [calculate_three_phase_fault] returned is made of:
    the divisions succeeded, so the base power and the total impedance in
    ohms are not zero. *)
Lemma three_phase_fault_returned (params : ShortCircuitParameters)
    (fault : complex) (motor : option complex) (res : ShortCircuitResult) :
  calculate_three_phase_fault params fault motor = Some res ->
  exists Z,
    total_impedance_pu params fault motor = Some Z /\
    base_mva params <> 0 /\
    let Un := voltage_kv params in
    let c := voltage_factor_c params in
    let Z_ohms := Cmul_real Z (Un ^ 2 * 1000 / base_mva params) in
    sqrt 3 * Cabs Z_ohms <> 0 /\
    z_total res = Z_ohms /\
    i_k3_initial res = (c * Un) / (sqrt 3 * Cabs Z_ohms) /\
    i_k3_peak res =
      (if decide (imag Z_ohms = 0) then 1
       else 1.02 + 0.98 * exp (-3 * (real Z_ohms / imag Z_ohms)))
      * sqrt 2 * i_k3_initial res /\
    s_k3 res = sqrt 3 * Un * i_k3_initial res.
Proof.
  intros H. unfold calculate_three_phase_fault in H.
  destruct (total_impedance_pu params fault motor) as [Z|];
    cbn [mbind option_bind] in H; [|discriminate].
  exists Z. split; [reflexivity|].
  destruct (fdiv _ (base_mva params)) as [z_base|] eqn:Eb;
    cbn [mbind option_bind] in H; [|discriminate].
  apply fdiv_inv in Eb. destruct Eb as [HS ->].
  split; [exact HS|]. cbv zeta.
  set (Z_ohms := Cmul_real Z (voltage_kv params ^ 2 * 1000 / base_mva params)) in *.
  destruct (fdiv _ (sqrt 3 * Cabs Z_ohms)) as [i|] eqn:Ei;
    cbn [mbind option_bind] in H; [|discriminate].
  apply fdiv_inv in Ei. destruct Ei as [Hden ->].
  rewrite peak_factor_total in H. cbn [mbind option_bind] in H.
  apply (inj Some) in H. rewrite <- H.
  cbn [z_total i_k3_initial i_k3_peak s_k3].
  split; [exact Hden|]. split; [reflexivity|].
  split; [field; split; intros E; apply Hden; rewrite E; ring|].
  split; reflexivity.
Qed.

End ShortCircuitProperties.

Section ShortCircuitClaims.
Import ShortCircuit.

(** C2. For a total per-unit impedance [Z <> 0] and a nominal voltage
    [Un > 0], [calculate_three_phase_fault] returns the initial symmetrical
    current I''k3 = (c * Un) / (sqrt 3 * |Z_ohms|), with
    Z_ohms = Z * (Un^2 * 1000 / base_MVA), and the short-circuit power
    Sk3 = sqrt 3 * Un * I''k3.  The two equations hold for every result that
    the function returns, and it returns one when the base power (by which
    the formula divides) is not zero. *)
Theorem three_phase_initial_current_and_power :
  (forall (params : ShortCircuitParameters) (fault : complex)
          (motor : option complex) (res : ShortCircuitResult),
      calculate_three_phase_fault params fault motor = Some res ->
      exists Z,
        total_impedance_pu params fault motor = Some Z /\
        i_k3_initial res =
          (voltage_factor_c params * voltage_kv params) /
          (sqrt 3 * Cabs (Cmul_real Z
                            (voltage_kv params ^ 2 * 1000 / base_mva params))) /\
        s_k3 res = sqrt 3 * voltage_kv params * i_k3_initial res) /\
  (forall (params : ShortCircuitParameters) (fault : complex)
          (motor : option complex) (Z : complex),
      0 < voltage_kv params -> base_mva params <> 0 ->
      total_impedance_pu params fault motor = Some Z -> Z <> C0 ->
      exists res,
        calculate_three_phase_fault params fault motor = Some res /\
        i_k3_initial res =
          (voltage_factor_c params * voltage_kv params) /
          (sqrt 3 * Cabs (Cmul_real Z
                            (voltage_kv params ^ 2 * 1000 / base_mva params))) /\
        s_k3 res = sqrt 3 * voltage_kv params * i_k3_initial res).
Proof.
  split.
  - intros params fault motor res H.
    destruct (three_phase_fault_returned params fault motor res H)
      as (Z & HZ & _ & _ & _ & Hi & _ & Hs).
    exists Z. split; [exact HZ|]. split; [exact Hi|exact Hs].
  - intros params fault motor Z HU HS HZ HZ0.
    destruct (three_phase_fault_result params fault motor Z HU HS HZ HZ0)
      as (res & kappa & Hres & _ & _ & _ & Hi & _ & _ & Hs).
    exists res. split; [exact Hres|]. split; [exact Hi|exact Hs].
Qed.

(** In exact arithmetic, for a fixed nominal voltage, voltage factor and base
    power, the initial symmetrical current strictly decreases when the
    magnitude of the total fault impedance grows: for two results that the
    function returns with |Z1| < |Z2|, the current for Z1 is the greater; and
    the function returns for every nonzero total impedance when the base
    power is not zero.  The voltage and the voltage factor are positive. *)
Lemma exact_initial_current_decreases :
  (forall (params : ShortCircuitParameters) (fault1 fault2 : complex)
          (motor1 motor2 : option complex) (Z1 Z2 : complex)
          (res1 res2 : ShortCircuitResult),
      0 < voltage_kv params -> 0 < voltage_factor_c params ->
      total_impedance_pu params fault1 motor1 = Some Z1 ->
      total_impedance_pu params fault2 motor2 = Some Z2 ->
      calculate_three_phase_fault params fault1 motor1 = Some res1 ->
      calculate_three_phase_fault params fault2 motor2 = Some res2 ->
      Cabs Z1 < Cabs Z2 ->
      i_k3_initial res2 < i_k3_initial res1) /\
  (forall (params : ShortCircuitParameters) (fault1 fault2 : complex)
          (motor1 motor2 : option complex) (Z1 Z2 : complex),
      0 < voltage_kv params -> 0 < voltage_factor_c params ->
      base_mva params <> 0 ->
      total_impedance_pu params fault1 motor1 = Some Z1 ->
      total_impedance_pu params fault2 motor2 = Some Z2 ->
      Z1 <> C0 -> Z2 <> C0 -> Cabs Z1 < Cabs Z2 ->
      exists res1 res2,
        calculate_three_phase_fault params fault1 motor1 = Some res1 /\
        calculate_three_phase_fault params fault2 motor2 = Some res2 /\
        i_k3_initial res2 < i_k3_initial res1).
Proof.
  assert (Hmono : forall (params : ShortCircuitParameters) (Z1 Z2 : complex),
      0 < voltage_kv params -> 0 < voltage_factor_c params ->
      let zb := voltage_kv params ^ 2 * 1000 / base_mva params in
      0 < Cabs (Cmul_real Z1 zb) -> Cabs Z1 < Cabs Z2 ->
      voltage_factor_c params * voltage_kv params / (sqrt 3 * Cabs (Cmul_real Z2 zb))
      < voltage_factor_c params * voltage_kv params / (sqrt 3 * Cabs (Cmul_real Z1 zb))).
  { intros params Z1 Z2 HU Hc zb Hpos Hlt.
    rewrite Cabs_Cmul_real in Hpos. rewrite !Cabs_Cmul_real.
    pose proof (Cabs_nonneg Z1) as H1. pose proof (Rabs_pos zb) as Hzb.
    pose proof sqrt3_pos as H3.
    assert (HA1 : 0 < Cabs Z1) by nra.
    assert (Hzb' : 0 < Rabs zb) by nra.
    unfold Rdiv. apply Rmult_lt_compat_l; [nra|].
    apply Rinv_lt_contravar.
    - assert (HA2 : 0 < Cabs Z2) by lra.
      repeat apply Rmult_lt_0_compat; assumption.
    - apply Rmult_lt_compat_l; [exact H3|].
      apply Rmult_lt_compat_r; assumption. }
  split.
  - intros params fault1 fault2 motor1 motor2 Z1 Z2 res1 res2
           HU Hc HZ1 HZ2 Hres1 Hres2 Hlt.
    destruct (three_phase_fault_returned params fault1 motor1 res1 Hres1)
      as (Z1' & HZ1' & _ & Hden1 & _ & Hi1 & _).
    destruct (three_phase_fault_returned params fault2 motor2 res2 Hres2)
      as (Z2' & HZ2' & _ & _ & _ & Hi2 & _).
    rewrite HZ1 in HZ1'. rewrite HZ2 in HZ2'.
    injection HZ1' as <-. injection HZ2' as <-.
    rewrite Hi1, Hi2. apply Hmono; try assumption.
    cbv zeta in Hden1.
    pose proof (Cabs_nonneg
                  (Cmul_real Z1 (voltage_kv params ^ 2 * 1000 / base_mva params))) as Hn.
    destruct Hn as [Hn|Hn]; [exact Hn|].
    exfalso. apply Hden1. rewrite <- Hn. ring.
  - intros params fault1 fault2 motor1 motor2 Z1 Z2 HU Hc HS HZ1 HZ2 HN1 HN2 Hlt.
    destruct (three_phase_fault_result params fault1 motor1 Z1 HU HS HZ1 HN1)
      as (res1 & k1 & Hres1 & _ & Hp1 & _ & Hi1 & _).
    destruct (three_phase_fault_result params fault2 motor2 Z2 HU HS HZ2 HN2)
      as (res2 & k2 & Hres2 & _ & _ & _ & Hi2 & _).
    exists res1, res2. split; [exact Hres1|]. split; [exact Hres2|].
    rewrite Hi1, Hi2. apply Hmono; assumption.
Qed.


End ShortCircuitClaims.

(** A supply at 0.4 kV with the cable of the self-test: the hypotheses of the
    short-circuit theorems hold there. *)
Lemma example_total_impedance :
  ShortCircuit.total_impedance_pu example_params example_z_cable_pu None =
  Some (Complex (0.20 + 0.0005) (2.0 + 0.0003)).
Proof. reflexivity. Qed.

Lemma three_phase_initial_current_and_power_witness :
  exists res,
    ShortCircuit.calculate_three_phase_fault example_params example_z_cable_pu None
      = Some res /\
    ShortCircuit.i_k3_initial res =
      (1.1 * 0.4) /
      (sqrt 3 * Cabs (Cmul_real (Complex (0.20 + 0.0005) (2.0 + 0.0003))
                                (0.4 ^ 2 * 1000 / 100))) /\
    ShortCircuit.s_k3 res = sqrt 3 * 0.4 * ShortCircuit.i_k3_initial res.
Proof.
  apply (proj2 three_phase_initial_current_and_power example_params
           example_z_cable_pu None (Complex (0.20 + 0.0005) (2.0 + 0.0003))).
  - simpl; lra.
  - simpl; lra.
  - reflexivity.
  - intros H. inversion H. lra.
Defined.


(** ** The order of binary64 values *)

Section Binary64Order.

Lemma compare_cont_Eq (p q : positive) :
  PosDef.Pos.compare_cont Eq p q = (p ?= q)%positive.
Proof. reflexivity. Qed.

Ltac spec_cases :=
  repeat match goal with
         | x : spec_float |- _ => destruct x as [[]|[]| |[] ? ?]
         end;
  simpl in *; try congruence; try reflexivity.

Ltac compare_cases :=
  rewrite ?compare_cont_Eq in *;
  repeat match goal with
         | H : context [(?a ?= ?b)%Z] |- _ => destruct (Z.compare_spec a b)
         | |- context [(?a ?= ?b)%Z] => destruct (Z.compare_spec a b)
         | H : context [(?a ?= ?b)%positive] |- _ => destruct (Pos.compare_spec a b)
         | |- context [(?a ?= ?b)%positive] => destruct (Pos.compare_spec a b)
         end;
  simpl in *; try congruence; try reflexivity; try lia.

Lemma SFleb_refl (x : spec_float) : x <> S754_nan -> SFleb x x = true.
Proof.
  unfold SFleb, SFcompare. intros H. spec_cases; compare_cases.
Qed.

Lemma SFltb_not_nan (x y : spec_float) :
  SFltb x y = true -> x <> S754_nan /\ y <> S754_nan.
Proof. unfold SFltb, SFcompare. intros H. split; intros ->; spec_cases. Qed.

Lemma SFleb_total (x y : spec_float) :
  x <> S754_nan -> y <> S754_nan -> SFltb x y = false -> SFleb y x = true.
Proof.
  unfold SFltb, SFleb, SFcompare. intros Hx Hy H. spec_cases; compare_cases.
Qed.

Lemma SFleb_trans (x y z : spec_float) :
  SFleb x y = true -> SFleb y z = true -> SFleb x z = true.
Proof.
  unfold SFleb, SFcompare. intros H1 H2. spec_cases; compare_cases.
Qed.

Lemma SFltb_leb_trans (x y z : spec_float) :
  SFltb x y = true -> SFleb y z = true -> SFltb x z = true.
Proof.
  unfold SFltb, SFleb, SFcompare. intros H1 H2. spec_cases; compare_cases.
Qed.

Lemma is_nan_false (x : float) : is_nan x = false <-> Prim2SF x <> S754_nan.
Proof.
  unfold is_nan. rewrite FloatAxioms.eqb_spec. unfold SFeqb, SFcompare.
  destruct (Prim2SF x) as [[]|[]| |[] m e]; simpl;
    rewrite ?compare_cont_Eq, ?Z.compare_refl, ?Pos.compare_refl; simpl;
    split; congruence.
Qed.

Lemma leb_refl (x : float) : is_nan x = false -> (x <=? x)%float = true.
Proof. rewrite is_nan_false, leb_spec. apply SFleb_refl. Qed.

Lemma ltb_not_nan (x y : float) :
  (x <? y)%float = true -> is_nan x = false /\ is_nan y = false.
Proof. rewrite ltb_spec, !is_nan_false. apply SFltb_not_nan. Qed.

Lemma leb_total (x y : float) :
  is_nan x = false -> is_nan y = false ->
  (x <? y)%float = false -> (y <=? x)%float = true.
Proof. rewrite !is_nan_false, ltb_spec, leb_spec. apply SFleb_total. Qed.

Lemma leb_trans (x y z : float) :
  (x <=? y)%float = true -> (y <=? z)%float = true -> (x <=? z)%float = true.
Proof. rewrite !leb_spec. apply SFleb_trans. Qed.

Lemma ltb_leb_trans (x y z : float) :
  (x <? y)%float = true -> (y <=? z)%float = true -> (x <? z)%float = true.
Proof. rewrite !ltb_spec, leb_spec. apply SFltb_leb_trans. Qed.

Lemma SFltb_leb (x y : spec_float) : SFltb x y = true -> SFleb x y = true.
Proof. unfold SFltb, SFleb. destruct (SFcompare x y) as [[]|]; congruence. Qed.

Lemma ltb_leb (x y : float) :
  (x <? y)%float = true -> (x <=? y)%float = true.
Proof. rewrite ltb_spec, leb_spec. apply SFltb_leb. Qed.

(** A positive float is not zero. *)
Lemma ltb_0_not_zero (x : float) :
  (0 <? x)%float = true -> (x =? 0)%float = false.
Proof.
  rewrite ltb_spec, FloatAxioms.eqb_spec.
  change (Prim2SF 0) with (S754_zero false).
  unfold SFltb, SFeqb, SFcompare.
  destruct (Prim2SF x) as [[]|[]| |[] m e]; simpl; congruence.
Qed.

End Binary64Order.

(** ** Breaker ratings *)

(** The reports of [validate_breaker_rating] for some fault currents and
    ratings, as the program prints them. *)
Example validate_breaker_rating_reports :
  ShortCircuit.validate_breaker_rating 12 10 0.4 =
    Some (ShortCircuit.mkBreakerValidation 12 10 13.2 false 120 (-2) (-20)
            "FAIL - UNDERSIZED") /\
  ShortCircuit.validate_breaker_rating 8 10 0.4 =
    Some (ShortCircuit.mkBreakerValidation 8 10 8.8 true 80 2 20 "PASS") /\
  ShortCircuit.validate_breaker_rating 100 110 0.4 =
    Some (ShortCircuit.mkBreakerValidation 100 110 110 false 90.9 10 9.1
            "FAIL - UNDERSIZED") /\
  ShortCircuit.validate_breaker_rating 50 55 0.4 =
    Some (ShortCircuit.mkBreakerValidation 50 55 55 false 90.9 5 9.1
            "FAIL - UNDERSIZED") /\
  ShortCircuit.validate_breaker_rating 1 3 0.4 =
    Some (ShortCircuit.mkBreakerValidation 1 3 1.1 true 33.3 2 66.7 "PASS") /\
  ShortCircuit.validate_breaker_rating 1999 2000 0.4 =
    Some (ShortCircuit.mkBreakerValidation 1999 2000 2198.9 false 100 1 0.1
            "FAIL - UNDERSIZED") /\
  ShortCircuit.validate_breaker_rating 0.95 1.045 0.4 =
    Some (ShortCircuit.mkBreakerValidation 0.95 1.04 1.04 true 90.9 0.09 9.1
            "PASS") /\
  ShortCircuit.validate_breaker_rating 5 0 0.4 = None.
Proof. repeat split; vm_compute; reflexivity. Qed.

Section BreakerRating.
Import ShortCircuit.

(** C9 (amended). For a fault current [f > 0] and a rating [r > 0], both
    binary64 values, [validate_breaker_rating] returns a report with
    [is_adequate = true] exactly when the binary64 product of [f] and the
    float nearest to 1.1 is at most [r], with the status PASS or
    FAIL - UNDERSIZED accordingly, and with [margin_percent] the binary64
    value of ((r - f) / r) * 100 rounded to one decimal by [round]; for a
    rating of 10 kA and a fault current of 12 kA it reports
    [is_adequate = false] and the negative margin -20.0. *)
Theorem breaker_validation_report (v : R) :
  (forall f r : float, (0 <? f)%float = true -> (0 <? r)%float = true ->
     exists res,
       validate_breaker_rating f r v = Some res /\
       is_adequate res = (f * 1.1 <=? r)%float /\
       status res = (if (f * 1.1 <=? r)%float then "PASS"
                     else "FAIL - UNDERSIZED")%string /\
       margin_percent res = Binary64.round ((r - f) / r * 100)%float 1) /\
  (exists res,
      validate_breaker_rating 12 10 v = Some res /\
      is_adequate res = false /\
      margin_percent res = (-20)%float /\
      (margin_percent res <? 0)%float = true).
Proof.
  split.
  - intros f r Hf Hr. unfold validate_breaker_rating, Binary64.truediv.
    rewrite (ltb_0_not_zero r Hr). cbn [mbind option_bind].
    eexists. split; [reflexivity|]. cbn [is_adequate margin_percent status].
    repeat split.
  - eexists. split; [vm_compute; reflexivity|]. repeat split.
Qed.

End BreakerRating.

Lemma breaker_validation_report_witness :
  exists res,
    ShortCircuit.validate_breaker_rating 8 10 0.4 = Some res /\
    ShortCircuit.is_adequate res = (8 * 1.1 <=? 10)%float /\
    ShortCircuit.status res = (if (8 * 1.1 <=? 10)%float then "PASS"
                               else "FAIL - UNDERSIZED")%string /\
    ShortCircuit.margin_percent res = Binary64.round ((10 - 8) / 10 * 100)%float 1.
Proof.
  apply (proj1 (breaker_validation_report 0.4) 8%float 10%float); reflexivity.
Defined.

Ltac float_value x :=
  let v := eval vm_compute in (Prim2SF x) in
  change (Prim2SF x) with v; cbv beta iota zeta;
  repeat match goal with
         | |- context [(2 ^ Z.pos ?p)%Z] =>
             let n := eval vm_compute in (2 ^ Z.pos p)%Z in
             change (2 ^ Z.pos p)%Z with n
         end.

Lemma to_R_values :
  Binary64.to_R 100 = 100 /\ Binary64.to_R 110 = 110 /\
  Binary64.to_R 1 = 1 /\ Binary64.to_R 3 = 3 /\
  Binary64.to_R 0.95 = 4278419646001971 / 4503599627370496 /\
  Binary64.to_R 1.045 = 588282701325271 / 562949953421312 /\
  Binary64.to_R 66.7 = 4693595236650189 / 70368744177664.
Proof.
  unfold Binary64.to_R.
  float_value 100%float. float_value 110%float. float_value 1%float.
  float_value 3%float. float_value 0.95%float. float_value 1.045%float.
  float_value 66.7%float.
  repeat split; lra.
Qed.

(** C9, as stated, fails three ways.  A rating of 110 kA is 1.10 times a
    fault current of 100 kA, and the report says FAIL: the binary64 product
    is 110.00000000000001.  A rating of 1.045 kA is less than 1.10 times the
    fault current 0.95 kA, and the report says PASS.  For 1 kA and 3 kA the
    margin reported is 66.7, not (3 - 1) / 3 * 100. *)
Lemma breaker_report_is_rounded :
  (exists res,
      ShortCircuit.validate_breaker_rating 100 110 0.4 = Some res /\
      ShortCircuit.is_adequate res = false /\
      Binary64.to_R 110 >= 1.10 * Binary64.to_R 100) /\
  (exists res,
      ShortCircuit.validate_breaker_rating 0.95 1.045 0.4 = Some res /\
      ShortCircuit.is_adequate res = true /\
      ~ Binary64.to_R 1.045 >= 1.10 * Binary64.to_R 0.95) /\
  (exists res,
      ShortCircuit.validate_breaker_rating 1 3 0.4 = Some res /\
      ShortCircuit.margin_percent res = 66.7%float /\
      Binary64.to_R (ShortCircuit.margin_percent res) <>
        (Binary64.to_R 3 - Binary64.to_R 1) / Binary64.to_R 3 * 100).
Proof.
  destruct to_R_values as (E100 & E110 & E1 & E3 & E095 & E1045 & E667).
  split; [|split].
  - eexists. split; [vm_compute; reflexivity|]. split; [reflexivity|].
    rewrite E100, E110. lra.
  - eexists. split; [vm_compute; reflexivity|]. split; [reflexivity|].
    rewrite E095, E1045. lra.
  - eexists. split; [vm_compute; reflexivity|]. split; [reflexivity|].
    cbn [ShortCircuit.margin_percent]. rewrite E667, E1, E3. lra.
Qed.

(** ** The initial current and the magnitude of the impedance *)

Section InitialCurrent.
Import ShortCircuit.

(** With a rounding that keeps the order of the exact results, the current
    does not grow with the value of [abs(z_total_ohms)]. *)
Lemma rounded_initial_current_monotone (rnd : R -> R)
    (params : ShortCircuitParameters) (m1 m2 i1 i2 : R) :
  (forall x y, x <= y -> rnd x <= rnd y) -> rnd 0 = 0 ->
  0 <= voltage_kv params -> 0 <= voltage_factor_c params ->
  0 <= m1 <= m2 ->
  i_k3_initial_ka_rounded rnd params m1 = Some i1 ->
  i_k3_initial_ka_rounded rnd params m2 = Some i2 ->
  i2 <= i1.
Proof.
  intros Hmono H0 HU Hc Hm. unfold i_k3_initial_ka_rounded.
  set (num := rnd (rnd (voltage_factor_c params * voltage_kv params) * 1000)).
  set (d1 := rnd (rnd (sqrt 3) * m1)). set (d2 := rnd (rnd (sqrt 3) * m2)).
  assert (Hpos : forall x, 0 <= x -> 0 <= rnd x).
  { intros x Hx. rewrite <- H0. apply Hmono. exact Hx. }
  assert (Hnum : 0 <= num).
  { apply Hpos. apply Rmult_le_pos; [|lra]. apply Hpos.
    apply Rmult_le_pos; assumption. }
  assert (H3 : 0 <= rnd (sqrt 3)) by (apply Hpos, sqrt_pos).
  assert (Hd1 : 0 <= d1) by (apply Hpos, Rmult_le_pos; lra).
  assert (Hd : d1 <= d2).
  { apply Hmono. apply Rmult_le_compat_l; lra. }
  destruct (fdiv num d1) as [q1|] eqn:E1; cbn [mbind option_bind]; [|discriminate].
  destruct (fdiv num d2) as [q2|] eqn:E2; cbn [mbind option_bind]; [|discriminate].
  apply fdiv_inv in E1, E2. destruct E1 as [N1 ->]. destruct E2 as [N2 ->].
  intros [= <-] [= <-].
  apply Hmono. unfold Rdiv at 1 3. apply Rmult_le_compat_r; [lra|].
  apply Hmono. unfold Rdiv. apply Rmult_le_compat_l; [exact Hnum|].
  apply Rinv_le_contravar; lra.
Qed.

(** C5 (amended). For a fixed nominal voltage, voltage factor and base
    power, none of them negative, the initial symmetrical current does not
    grow with the magnitude of the total fault impedance as the program
    computes it: when the value of [abs(z_total_ohms)] for Z1 is at most the
    one for Z2, the current for Z2 is at most the current for Z1, whatever
    the rounding of the arithmetic, as long as it keeps the order of the
    exact results and the value 0, which rounding to the nearest binary64
    value does.  The decrease is strict in exact arithmetic only: there, for
    two results that the function returns with |Z1| < |Z2|, the current for
    Z1 is the greater, and the function returns for every nonzero total
    impedance when the voltage and its factor are positive and the base
    power is not zero. *)
Theorem initial_current_does_not_grow_with_impedance :
  (forall (rnd : R -> R) (params : ShortCircuitParameters) (m1 m2 i1 i2 : R),
      (forall x y, x <= y -> rnd x <= rnd y) -> rnd 0 = 0 ->
      0 <= voltage_kv params -> 0 <= voltage_factor_c params ->
      0 <= m1 <= m2 ->
      i_k3_initial_ka_rounded rnd params m1 = Some i1 ->
      i_k3_initial_ka_rounded rnd params m2 = Some i2 ->
      i2 <= i1) /\
  (forall (params : ShortCircuitParameters) (fault1 fault2 : complex)
          (motor1 motor2 : option complex) (Z1 Z2 : complex)
          (res1 res2 : ShortCircuitResult),
      0 < voltage_kv params -> 0 < voltage_factor_c params ->
      total_impedance_pu params fault1 motor1 = Some Z1 ->
      total_impedance_pu params fault2 motor2 = Some Z2 ->
      calculate_three_phase_fault params fault1 motor1 = Some res1 ->
      calculate_three_phase_fault params fault2 motor2 = Some res2 ->
      Cabs Z1 < Cabs Z2 ->
      i_k3_initial res2 < i_k3_initial res1) /\
  (forall (params : ShortCircuitParameters) (fault1 fault2 : complex)
          (motor1 motor2 : option complex) (Z1 Z2 : complex),
      0 < voltage_kv params -> 0 < voltage_factor_c params ->
      base_mva params <> 0 ->
      total_impedance_pu params fault1 motor1 = Some Z1 ->
      total_impedance_pu params fault2 motor2 = Some Z2 ->
      Z1 <> C0 -> Z2 <> C0 -> Cabs Z1 < Cabs Z2 ->
      exists res1 res2,
        calculate_three_phase_fault params fault1 motor1 = Some res1 /\
        calculate_three_phase_fault params fault2 motor2 = Some res2 /\
        i_k3_initial res2 < i_k3_initial res1).
Proof.
  split; [exact rounded_initial_current_monotone|].
  exact exact_initial_current_decreases.
Qed.

End InitialCurrent.

Lemma initial_current_does_not_grow_with_impedance_witness :
  1.1 * 0.4 * 1000 / (sqrt 3 * 4) / 1000 <= 1.1 * 0.4 * 1000 / (sqrt 3 * 2) / 1000 /\
  exists res1 res2,
    ShortCircuit.calculate_three_phase_fault example_params example_z_cable_pu None
      = Some res1 /\
    ShortCircuit.calculate_three_phase_fault example_params
      example_z_long_cable_pu None = Some res2 /\
    ShortCircuit.i_k3_initial res2 < ShortCircuit.i_k3_initial res1.
Proof.
  assert (H3 : 0 < sqrt 3) by (apply sqrt_lt_R0; lra).
  split.
  - apply (proj1 initial_current_does_not_grow_with_impedance
             (fun x => x) example_params 2 4).
    + intros x y H. exact H.
    + reflexivity.
    + simpl; lra.
    + simpl; lra.
    + lra.
    + unfold ShortCircuit.i_k3_initial_ka_rounded.
      rewrite fdiv_Some by lra. reflexivity.
    + unfold ShortCircuit.i_k3_initial_ka_rounded.
      rewrite fdiv_Some by lra. reflexivity.
  - apply (proj2 (proj2 initial_current_does_not_grow_with_impedance) example_params
             example_z_cable_pu example_z_long_cable_pu None None
             (Complex (0.20 + 0.0005) (2.0 + 0.0003))
             (Complex (0.20 + 0.0010) (2.0 + 0.0006))).
    + simpl; lra.
    + simpl; lra.
    + simpl; lra.
    + reflexivity.
    + reflexivity.
    + intros H. inversion H. lra.
    + intros H. inversion H. lra.
    + unfold Cabs. cbn [real imag]. apply sqrt_lt_1_alt. lra.
Defined.

Lemma to_R_impedances :
  Binary64.to_R 3.5 = 7 / 2 /\
  Binary64.to_R 3.5000000000000004 = 7881299347898369 / 2251799813685248 /\
  Binary64.to_R 1.5 = 3 / 2 /\
  Binary64.to_R 1.5000000000000002 = 6755399441055745 / 4503599627370496.
Proof.
  unfold Binary64.to_R.
  float_value 3.5%float. float_value 3.5000000000000004%float.
  float_value 1.5%float. float_value 1.5000000000000002%float.
  repeat split; lra.
Qed.

(** C5, as stated, fails in the arithmetic of the program.  At 0.4 kV on a
    100 MVA base with voltage factor 1.1 and no source impedance, the total
    impedances 3.5 and 3.5000000000000004, two neighbouring floats, give the
    same initial current; so do 1.5 and 1.5000000000000002 at 1 kV on a
    1000 MVA base, where [z_base] is 1 and no rounding of [pow] or [hypot]
    is involved. *)
Lemma neighbouring_impedances_give_one_current :
  Binary64.Cabs (Binary64.Complex 3.5 0) = Some 3.5%float /\
  Binary64.Cabs (Binary64.Complex 3.5000000000000004 0)
    = Some 3.5000000000000004%float /\
  Binary64.to_R 3.5 < Binary64.to_R 3.5000000000000004 /\
  ShortCircuit.i_k3_initial_ka_binary64 0.4 100 (Binary64.Complex 0 0) 1.1
    (Binary64.Complex 3.5 0) = Some 0.04536323543632773%float /\
  ShortCircuit.i_k3_initial_ka_binary64 0.4 100 (Binary64.Complex 0 0) 1.1
    (Binary64.Complex 3.5000000000000004 0) = Some 0.04536323543632773%float /\
  Binary64.Cabs (Binary64.Complex 1.5 0) = Some 1.5%float /\
  Binary64.Cabs (Binary64.Complex 1.5000000000000002 0)
    = Some 1.5000000000000002%float /\
  Binary64.to_R 1.5 < Binary64.to_R 1.5000000000000002 /\
  ShortCircuit.i_k3_initial_ka_binary64 1 1000 (Binary64.Complex 0 0) 1.1
    (Binary64.Complex 1.5 0) = Some 0.42339019740572553%float /\
  ShortCircuit.i_k3_initial_ka_binary64 1 1000 (Binary64.Complex 0 0) 1.1
    (Binary64.Complex 1.5000000000000002 0) = Some 0.42339019740572553%float.
Proof.
  destruct to_R_impedances as (E1 & E2 & E3 & E4).
  repeat split; try (vm_compute; reflexivity).
  - rewrite E1, E2. lra.
  - rewrite E3, E4. lra.
Qed.

(** ** Admittance matrix *)

Lemma Csum_insert_add (row : list complex) (j : nat) (x d : complex) :
  row !! j = Some x -> Csum (<[j := Cadd x d]> row) = Cadd (Csum row) d.
Proof.
  revert j. induction row as [|a row IH]; intros j Hj; [discriminate|].
  destruct j as [|j]; simpl in *.
  - injection Hj as ->. apply complex_eq; simpl; ring.
  - rewrite (IH j Hj). apply complex_eq; simpl; ring.
Qed.

Lemma Csum_replicate_0 (n : nat) : Csum (replicate n C0) = C0.
Proof.
  induction n as [|n IH]; simpl; [reflexivity|].
  rewrite IH. apply complex_eq; simpl; ring.
Qed.

(** One in-place update [M[i, j] += d] keeps the shape of the matrix and adds
    [d] to the sum of row [i] only. *)
Lemma update_at_rowsum (f : complex -> complex) (d : complex) (i j : nat)
    (Y Y' : list (list complex)) :
  (forall x, f x = Cadd x d) ->
  update_at f i j Y = Some Y' ->
  forall k,
    length <$> (Y' !! k) = length <$> (Y !! k) /\
    Csum <$> (Y' !! k) =
      (fun s => if decide (k = i) then Cadd s d else s) <$> (Csum <$> (Y !! k)).
Proof.
  intros Hf HY k. unfold update_at in HY.
  destruct (Y !! i) as [row|] eqn:Ei; [|discriminate]. cbn [mbind option_bind] in HY.
  destruct (row !! j) as [x|] eqn:Ej; [|discriminate]. cbn [mbind option_bind] in HY.
  injection HY as <-.
  destruct (decide (k = i)) as [->|Hk].
  - rewrite list_lookup_insert_eq by (eapply lookup_lt_Some; exact Ei).
    rewrite Ei. cbn [fmap option_fmap option_map].
    rewrite length_insert, Hf, (Csum_insert_add row j x d Ej). split; reflexivity.
  - rewrite list_lookup_insert_ne by congruence.
    destruct (Y !! k); split; reflexivity.
Qed.

Lemma update_at_is_Some {A : Type} (f : A -> A) (i j n : nat) (M : list (list A)) :
  (forall k, (k < n)%nat -> length <$> (M !! k) = Some n) ->
  (i < n)%nat -> (j < n)%nat -> is_Some (update_at f i j M).
Proof.
  intros Hdim Hi Hj. unfold update_at.
  pose proof (Hdim i Hi) as Hrow.
  destruct (M !! i) as [row|]; [|discriminate]. cbn [mbind option_bind].
  injection Hrow as Hlen.
  destruct (lookup_lt_is_Some_2 row j) as [x Hx]; [lia|].
  rewrite Hx. cbn [mbind option_bind]. eexists; reflexivity.
Qed.

Section AdmittanceProperties.
Import PerUnit.

Lemma node_index_of_snoc (nodes : list string) (x : string) :
  node_index_of (nodes ++ [x]) = <[x := length nodes]> (node_index_of nodes).
Proof.
  unfold node_index_of. rewrite imap_app, foldl_app. simpl.
  rewrite Nat.add_0_r. reflexivity.
Qed.

Lemma node_index_of_lt (nodes : list string) (s : string) (i : nat) :
  node_index_of nodes !! s = Some i -> (i < length nodes)%nat.
Proof.
  revert i. induction nodes as [|x nodes IH] using rev_ind; intros i.
  - unfold node_index_of; simpl. rewrite lookup_empty. discriminate.
  - rewrite node_index_of_snoc, length_app. simpl.
    destruct (decide (x = s)) as [->|Hne].
    + rewrite lookup_insert_eq. intros [= <-]. lia.
    + rewrite lookup_insert_ne by exact Hne. intros H. apply IH in H. lia.
Qed.

Lemma node_index_of_is_Some (nodes : list string) (s : string) :
  s ∈ nodes -> is_Some (node_index_of nodes !! s).
Proof.
  induction nodes as [|x nodes IH] using rev_ind; intros Hs.
  - inversion Hs.
  - rewrite node_index_of_snoc.
    destruct (decide (x = s)) as [->|Hne].
    + rewrite lookup_insert_eq. eexists; reflexivity.
    + rewrite lookup_insert_ne by exact Hne. apply IH.
      apply elem_of_app in Hs. destruct Hs as [Hs|Hs]; [exact Hs|].
      apply list_elem_of_singleton in Hs. congruence.
Qed.

Lemma balanced_zeros (n : nat) : balanced n (replicate n (replicate n C0)).
Proof.
  split; [apply length_replicate|]. intros k Hk.
  rewrite lookup_replicate_2 by exact Hk. cbn.
  rewrite length_replicate, Csum_replicate_0. split; reflexivity.
Qed.

(** The four updates made for one branch of admittance [y]. *)
Lemma branch_updates_balanced (n i j : nat) (y : complex)
    (Y Y1 Y2 Y3 Y4 : list (list complex)) :
  balanced n Y ->
  update_at (fun x => Csub x y) i j Y = Some Y1 ->
  update_at (fun x => Csub x y) j i Y1 = Some Y2 ->
  update_at (fun x => Cadd x y) i i Y2 = Some Y3 ->
  update_at (fun x => Cadd x y) j j Y3 = Some Y4 ->
  balanced n Y4.
Proof.
  intros [Hlen Hrows] H1 H2 H3 H4.
  assert (Hsub : forall x, Csub x y = Cadd x (Complex (- real y) (- imag y))).
  { intros x. apply complex_eq; simpl; ring. }
  pose proof (update_at_rowsum _ _ _ _ _ _ Hsub H1) as P1.
  pose proof (update_at_rowsum _ _ _ _ _ _ Hsub H2) as P2.
  pose proof (update_at_rowsum _ _ _ _ _ _ (fun x => eq_refl) H3) as P3.
  pose proof (update_at_rowsum _ _ _ _ _ _ (fun x => eq_refl) H4) as P4.
  split.
  - unfold update_at in *.
    repeat match goal with
    | H : (?o ≫= _) = Some _ |- _ =>
        destruct o eqn:?; cbn [mbind option_bind] in H; [|discriminate]
    | H : Some _ = Some _ |- _ => injection H as <-
    end.
    rewrite !length_insert. exact Hlen.
  - intros k Hk. destruct (Hrows k Hk) as [Hl Hs].
    destruct (P1 k) as [L1 S1], (P2 k) as [L2 S2],
             (P3 k) as [L3 S3], (P4 k) as [L4 S4].
    split; [congruence|].
    rewrite S4, S3, S2, S1, Hs. cbn [fmap option_fmap option_map]. f_equal.
    destruct (decide (k = i)), (decide (k = j));
      apply complex_eq; simpl; ring.
Qed.


Lemma fill_admittance_is_Some (n : nat) (node_index : gmap string nat)
    (impedances : list ((string * string) * complex))
    (Y : list (list complex)) :
  balanced n Y ->
  (forall s i, node_index !! s = Some i -> (i < n)%nat) ->
  (forall from_node to_node z, ((from_node, to_node), z) ∈ impedances ->
      z <> C0 ->
      is_Some (node_index !! from_node) /\ is_Some (node_index !! to_node)) ->
  is_Some (fill_admittance node_index impedances Y).
Proof.
  intros HY Hidx. revert Y HY.
  induction impedances as [|[[from_node to_node] z] rest IH];
    intros Y HY Hin; simpl.
  - eexists; reflexivity.
  - assert (Hrest : forall f t z', ((f, t), z') ∈ rest -> z' <> C0 ->
              is_Some (node_index !! f) /\ is_Some (node_index !! t)).
    { intros f t z' H. apply Hin. right. exact H. }
    destruct (decide (z = C0)) as [|Hz]; [apply IH; assumption|].
    unfold Cdiv. destruct (decide (z = C0)); [contradiction|].
    cbn [mbind option_bind].
    destruct (Hin from_node to_node z) as [[i Hi] [j Hj]]; [left|exact Hz|].
    rewrite Hi, Hj. cbn [mbind option_bind].
    pose proof (Hidx _ _ Hi) as Hi'. pose proof (Hidx _ _ Hj) as Hj'.
    set (y := Complex _ _).
    assert (Hsub : forall x, Csub x y = Cadd x (Complex (- real y) (- imag y))).
    { intros x. apply complex_eq; simpl; ring. }
    assert (Hdim : forall M : list (list complex),
              (forall k, length <$> (M !! k) = length <$> (Y !! k)) ->
              forall k, (k < n)%nat -> length <$> (M !! k) = Some n).
    { intros M HM k Hk. rewrite HM. apply (proj2 HY k Hk). }
    destruct (update_at_is_Some (fun x => Csub x y) i j n Y) as [Y1 H1];
      [apply Hdim; reflexivity|lia|lia|].
    rewrite H1. cbn [mbind option_bind].
    pose proof (update_at_rowsum _ _ _ _ _ _ Hsub H1) as P1.
    destruct (update_at_is_Some (fun x => Csub x y) j i n Y1) as [Y2 H2];
      [apply Hdim; intros k; apply P1|lia|lia|].
    rewrite H2. cbn [mbind option_bind].
    pose proof (update_at_rowsum _ _ _ _ _ _ Hsub H2) as P2.
    destruct (update_at_is_Some (fun x => Cadd x y) i i n Y2) as [Y3 H3];
      [apply Hdim; intros k; rewrite (proj1 (P2 k)); apply P1|lia|lia|].
    rewrite H3. cbn [mbind option_bind].
    pose proof (update_at_rowsum _ _ _ _ _ _ (fun x => eq_refl) H3) as P3.
    destruct (update_at_is_Some (fun x => Cadd x y) j j n Y3) as [Y4 H4];
      [apply Hdim; intros k;
       rewrite (proj1 (P3 k)), (proj1 (P2 k)); apply P1|lia|lia|].
    rewrite H4. cbn [mbind option_bind].
    apply IH; [|exact Hrest].
    eapply branch_updates_balanced; eassumption.
Qed.



End AdmittanceProperties.

(** ** Newton-Raphson load flow *)

Section LoadFlowProperties.
Import LoadFlow.
Variable linalg_solve : list (list R) -> list R -> linalg_result.
Variable self : NewtonRaphsonLoadFlow.

Ltac bind_cases H :=
  repeat match type of H with
  | (?o ≫= _) = Some _ =>
      let E := fresh "E" in
      destruct o eqn:E; cbn [mbind option_bind] in H; [|discriminate]
  | (let '(_, _) := ?x in _) = Some _ => destruct x
  | (match ?x with (_, _) => _ end) = Some _ => destruct x
  end.

Lemma set_at_Some {A : Type} (l l' : list A) (i : nat) (x : A) :
  set_at l i x = Some l' -> (i < length l)%nat /\ l' = <[i := x]> l /\ length l' = length l.
Proof.
  unfold set_at. destruct (decide (i < length l)%nat); [|discriminate].
  intros [= <-]. rewrite length_insert. auto.
Qed.

Lemma set_at_is_Some {A : Type} (l : list A) (i : nat) (x : A) :
  (i < length l)%nat -> set_at l i x = Some (<[i := x]> l).
Proof. intros H. unfold set_at. destruct (decide (i < length l)%nat); [reflexivity|lia]. Qed.

Lemma set_slack_spec (bs : list Bus) (v theta v' theta' : list R) :
  set_slack self bs v theta = Some (v', theta') ->
  length v' = length v /\ length theta' = length theta /\
  forall b, b ∈ bs -> exists idx, bus_index self !! id b = Some idx /\ (idx < length v)%nat.
Proof.
  revert v theta. induction bs as [|bus bs IH]; intros v theta H; simpl in H.
  - injection H as <- <-. split; [reflexivity|]. split; [reflexivity|].
    intros b Hb. inversion Hb.
  - bind_cases H.
    apply set_at_Some in E0. destruct E0 as (Hlt & _ & Hl0).
    apply set_at_Some in E1. destruct E1 as (_ & _ & Hl1).
    destruct (IH _ _ H) as (L1 & L2 & Hin).
    split; [congruence|]. split; [congruence|].
    intros b Hb. apply elem_of_cons in Hb. destruct Hb as [->|Hb].
    + eexists; split; [exact E|exact Hlt].
    + destruct (Hin b Hb) as (idx & Hi & Hlt'). exists idx. split; [exact Hi|lia].
Qed.

Lemma set_pv_length (bs : list Bus) (v v' : list R) :
  set_pv self bs v = Some v' -> length v' = length v.
Proof.
  revert v. induction bs as [|bus bs IH]; intros v H; simpl in H.
  - congruence.
  - bind_cases H. apply set_at_Some in E0. destruct E0 as (_ & _ & Hl).
    rewrite (IH _ H). exact Hl.
Qed.

Lemma initial_state_spec (v theta : list R) :
  initial_state self = Some (v, theta) ->
  length v = n_buses self /\ length theta = n_buses self /\
  forall b, b ∈ slack_buses self ->
    exists idx, bus_index self !! id b = Some idx /\ (idx < n_buses self)%nat.
Proof.
  unfold initial_state. intros H.
  destruct (set_slack _ _ _ _) as [[v1 theta1]|] eqn:E1;
    cbn [mbind option_bind] in H; [|discriminate].
  destruct (set_pv _ _ _) as [v2|] eqn:E2; cbn [mbind option_bind] in H; [|discriminate].
  injection H as <- <-.
  apply set_slack_spec in E1. destruct E1 as (L1 & L2 & Hin).
  apply set_pv_length in E2. rewrite !length_replicate in *.
  split; [congruence|]. split; [congruence|]. exact Hin.
Qed.

Lemma power_rows_length (v theta : list R) (rows : list nat) (l : list (R * R)) :
  power_rows self v theta rows = Some l -> length l = length rows.
Proof.
  revert l. induction rows as [|i rows IH]; intros l H; simpl in H.
  - injection H as <-. reflexivity.
  - bind_cases H. injection H as <-. simpl. f_equal. apply IH. reflexivity.
Qed.

Lemma calculate_power_length (v theta p_calc q_calc : list R) :
  _calculate_power self v theta = Some (p_calc, q_calc) ->
  length p_calc = n_buses self /\ length q_calc = n_buses self.
Proof.
  unfold _calculate_power. intros H. bind_cases H. injection H as <- <-.
  apply power_rows_length in E. rewrite !length_fmap, E, length_seq. auto.
Qed.

Lemma power_mismatch_spec (bs : list Bus) (p_calc q_calc dp dq dp' dq' : list R) :
  power_mismatch self bs p_calc q_calc dp dq = Some (dp', dq') ->
  forall b, b ∈ bs ->
    exists idx, bus_index self !! id b = Some idx /\
                (bus_type b <> SLACK -> (idx < length p_calc)%nat).
Proof.
  revert dp dq. induction bs as [|bus bs IH]; intros dp dq H b Hb.
  - inversion Hb.
  - simpl in H.
    destruct (bus_index self !! id bus) as [idx|] eqn:E;
      cbn [mbind option_bind] in H; [|discriminate].
    destruct (decide (bus_type bus <> SLACK)) as [Hns|Hs].
    + destruct (p_calc !! idx) as [p|] eqn:Ep; cbn [mbind option_bind] in H; [|discriminate].
      bind_cases H.
      apply elem_of_cons in Hb. destruct Hb as [->|Hb]; [|eapply IH; eassumption].
      exists idx. split; [exact E|]. intros _. eapply lookup_lt_Some; exact Ep.
    + cbn [mbind option_bind] in H. bind_cases H.
      apply elem_of_cons in Hb. destruct Hb as [->|Hb]; [|eapply IH; eassumption].
      exists idx. split; [exact E|]. intros Hn. contradiction.
Qed.

Lemma store_results_spec (bs stored : list (string * Bus)) (st : loop_state) :
  store_results self bs st = Some stored ->
  bs = [] \/
  exists p_calc q_calc, ls_calc st = Some (p_calc, q_calc) /\
    Forall2 (stored_from self (ls_v st) (ls_theta st) p_calc q_calc) bs stored.
Proof.
  revert stored. induction bs as [|[key bus] bs IH]; intros stored H; [left; reflexivity|].
  right. simpl in H.
  destruct (bus_index self !! id bus) as [idx|] eqn:Ei; cbn [mbind option_bind] in H; [|discriminate].
  destruct (ls_v st !! idx) as [vm|] eqn:Ev; cbn [mbind option_bind] in H; [|discriminate].
  destruct (ls_theta st !! idx) as [va|] eqn:Ea; cbn [mbind option_bind] in H; [|discriminate].
  destruct (ls_calc st) as [[p_calc q_calc]|] eqn:Ec; cbn [mbind option_bind] in H; [|discriminate].
  destruct (p_calc !! idx) as [p|] eqn:Ep; cbn [mbind option_bind] in H; [|discriminate].
  destruct (q_calc !! idx) as [q|] eqn:Eq; cbn [mbind option_bind] in H; [|discriminate].
  destruct (store_results self bs st) as [rest|] eqn:Er; cbn [mbind option_bind] in H; [|discriminate].
  injection H as <-.
  exists p_calc, q_calc. split; [reflexivity|].
  constructor.
  - unfold stored_from; simpl. repeat split; try reflexivity.
    exists idx. repeat split; assumption.
  - destruct (IH rest eq_refl) as [->|(p' & q' & Hc & HF)].
    + simpl in Er. injection Er as <-. constructor.
    + injection Hc as <- <-. exact HF.
Qed.

Lemma store_results_is_Some (bs : list (string * Bus)) (st : loop_state)
    (p_calc q_calc : list R) (n : nat) :
  ls_calc st = Some (p_calc, q_calc) ->
  length (ls_v st) = n -> length (ls_theta st) = n ->
  length p_calc = n -> length q_calc = n ->
  (forall b, b ∈ bs.*2 -> exists idx, bus_index self !! id b = Some idx /\ (idx < n)%nat) ->
  is_Some (store_results self bs st).
Proof.
  intros Hc Lv Lt Lp Lq. induction bs as [|[key bus] bs IH]; intros Hin; simpl.
  - eexists; reflexivity.
  - destruct (Hin bus) as (idx & Hi & Hlt); [left|].
    rewrite Hi. cbn [mbind option_bind].
    destruct (lookup_lt_is_Some_2 (ls_v st) idx) as [vm ->]; [lia|].
    destruct (lookup_lt_is_Some_2 (ls_theta st) idx) as [va ->]; [lia|].
    rewrite Hc. cbn [mbind option_bind].
    destruct (lookup_lt_is_Some_2 p_calc idx) as [p ->]; [lia|].
    destruct (lookup_lt_is_Some_2 q_calc idx) as [q ->]; [lia|].
    cbn [mbind option_bind].
    destruct IH as [rest ->]; [intros b Hb; apply Hin; right; exact Hb|].
    cbn [mbind option_bind]. eexists; reflexivity.
Qed.

(** A first pass whose mismatch is below the tolerance ends [solve]. *)
Lemma solve_first_pass (m : R) :
  first_mismatch self = Some m -> m < tolerance self ->
  exists v0 theta0 p_calc q_calc stored,
    initial_state self = Some (v0, theta0) /\
    _calculate_power self v0 theta0 = Some (p_calc, q_calc) /\
    store_results self (buses self)
      (mkLoopState v0 theta0 true 1 (Finite m) (Some (p_calc, q_calc))) = Some stored /\
    Forall2 (stored_from self v0 theta0 p_calc q_calc) (buses self) stored /\
    solve linalg_solve self =
      Some (_compile_results stored true 1 (Finite m)).
Proof.
  intros Hfirst Hm. unfold first_mismatch in Hfirst.
  destruct (initial_state self) as [[v0 theta0]|] eqn:E0;
    cbn [mbind option_bind] in Hfirst; [|discriminate].
  destruct (decide (max_iterations self = 0)%nat) as [|Hmax]; [discriminate|].
  destruct (_calculate_power self v0 theta0) as [[p_calc q_calc]|] eqn:E1;
    cbn [mbind option_bind] in Hfirst; [|discriminate].
  destruct (power_mismatch _ _ _ _ _ _) as [[dp dq]|] eqn:E2;
    cbn [mbind option_bind] in Hfirst; [|discriminate].
  destruct (initial_state_spec _ _ E0) as (Lv & Lt & Hslack).
  destruct (calculate_power_length _ _ _ _ E1) as (Lp & Lq).
  pose proof (power_mismatch_spec _ _ _ _ _ _ _ E2) as Hidx.
  set (st := mkLoopState v0 theta0 true 1 (Finite m) (Some (p_calc, q_calc))).
  assert (Hnr : newton_raphson linalg_solve self (max_iterations self)
                  (mkLoopState v0 theta0 false 0 Infinity None) = Some st).
  { destruct (max_iterations self) as [|k]; [lia|].
    simpl. rewrite E1. cbn [mbind option_bind]. rewrite E2. cbn [mbind option_bind].
    rewrite Hfirst. cbn [mbind option_bind].
    destruct (decide (m < tolerance self)); [reflexivity|contradiction]. }
  destruct (store_results_is_Some (buses self) st p_calc q_calc (n_buses self))
    as [stored Hst]; try assumption; try reflexivity.
  { intros b Hb. destruct (Hidx b Hb) as (idx & Hi & Hlt).
    exists idx. split; [exact Hi|].
    destruct (decide (bus_type b = SLACK)) as [Hs|Hs].
    - destruct (Hslack b) as (idx' & Hi' & Hlt').
      { unfold slack_buses. apply list_elem_of_filter. split; assumption. }
      congruence.
    - rewrite <- Lp. apply Hlt. exact Hs. }
  exists v0, theta0, p_calc, q_calc, stored.
  split; [reflexivity|]. split; [exact E1|]. split; [exact Hst|].
  split.
  - destruct (store_results_spec _ _ _ Hst) as [Hnil|(p' & q' & Hc & HF)].
    + rewrite Hnil in *. simpl in Hst. injection Hst as <-. constructor.
    + simpl in Hc. injection Hc as <- <-. exact HF.
  - unfold solve. rewrite E0. cbn [mbind option_bind]. rewrite Hnr. cbn [mbind option_bind].
    rewrite Hst. reflexivity.
Qed.

End LoadFlowProperties.

(** ** The two-bus example *)

Lemma Cabs_imaginary (b : R) : Cabs (Complex 0 b) = Rabs b.
Proof.
  unfold Cabs; simpl. replace (0 * 0 + b * b) with (b²) by (unfold Rsqr; ring).
  apply sqrt_Rsqr_abs.
Qed.

Lemma Cangle_imaginary_pos (b : R) : 0 < b -> Cangle (Complex 0 b) = PI / 2.
Proof.
  intros Hb. unfold Cangle; simpl.
  destruct (decide (0 < 0)); [lra|]. destruct (decide (0 < 0)); [lra|].
  destruct (decide (0 < b)); [reflexivity|contradiction].
Qed.

Lemma Cangle_imaginary_neg (b : R) : b < 0 -> Cangle (Complex 0 b) = - (PI / 2).
Proof.
  intros Hb. unfold Cangle; simpl.
  destruct (decide (0 < 0)); [lra|]. destruct (decide (0 < 0)); [lra|].
  destruct (decide (0 < b)); [lra|].
  destruct (decide (b < 0)); [reflexivity|contradiction].
Qed.

Lemma example_bus_index_1 : example_bus_index !! "1"%string = Some 0%nat.
Proof. reflexivity. Qed.

Lemma example_bus_index_2 : example_bus_index !! "2"%string = Some 1%nat.
Proof. reflexivity. Qed.

(** The powers that [_calculate_power] finds in the example, with both
    voltages at 1 pu and the angle [t] at bus 2. *)
Lemma example_power (bus2 : LoadFlow.Bus) (t : R) :
  LoadFlow._calculate_power (example_system bus2) [1; 1] [0; t] =
  Some ([- (5 * sin t); 5 * sin t], [5 - 5 * cos t; 5 - 5 * cos t]).
Proof.
  unfold LoadFlow._calculate_power. cbn.
  rewrite !Cabs_imaginary, !(Cangle_imaginary_pos 5), !(Cangle_imaginary_neg (-5)) by lra.
  rewrite (Rabs_pos_eq 5), (Rabs_left (-5)) by lra.
  replace (t - t) with 0 by ring.
  repeat first [rewrite cos_minus | rewrite sin_minus].
  rewrite !cos_neg, !sin_neg, !cos_PI2, !sin_PI2, !cos_0, !sin_0.
  f_equal; f_equal; (f_equal; [|f_equal]); ring.
Qed.

Ltac eval_decide :=
  repeat first
    [ progress cbn
    | rewrite set_at_is_Some by (cbn; lia)
    | case_decide; [try (exfalso; (congruence || lia))
                   |try (exfalso; (congruence || lia))] ].

Lemma example_initial_state_idle :
  LoadFlow.initial_state (example_system example_idle_bus) = Some ([1; 1], [0; 0]).
Proof. reflexivity. Qed.

Lemma example_initial_state_load :
  LoadFlow.initial_state (example_system example_load_bus) = Some ([1; 1], [0; 0]).
Proof. reflexivity. Qed.

Lemma example_first_mismatch_idle :
  LoadFlow.first_mismatch (example_system example_idle_bus) = Some 0.
Proof.
  unfold LoadFlow.first_mismatch. rewrite example_initial_state_idle.
  cbn [mbind option_bind]. rewrite example_power. cbn.
  rewrite example_bus_index_1, example_bus_index_2. eval_decide.
  rewrite sin_0, cos_0.
  replace (0 - 5 * 0) with 0 by ring. replace (0 - (5 - 5 * 1)) with 0 by ring.
  rewrite Rabs_R0. rewrite !(Rmax_left 0 0) by lra. reflexivity.
Qed.

Lemma example_first_mismatch_load :
  LoadFlow.first_mismatch (example_system example_load_bus) = Some 0.5.
Proof.
  unfold LoadFlow.first_mismatch. rewrite example_initial_state_load.
  cbn [mbind option_bind]. rewrite example_power. cbn.
  rewrite example_bus_index_1, example_bus_index_2. eval_decide.
  rewrite sin_0, cos_0.
  replace (-0.5 - 5 * 0) with (-0.5) by ring.
  replace (-0.2 - (5 - 5 * 1)) with (-0.2) by ring.
  rewrite Rabs_R0, (Rabs_left (-0.5)), (Rabs_left (-0.2)) by lra.
  f_equal. rewrite (Rmax_right 0 (- -0.5)), (Rmax_right 0 (- -0.2)) by lra.
  rewrite Rmax_left by lra. lra.
Qed.

Section LoadFlowClaims.
Import LoadFlow.
Import LoadFlowResult.

(** C3 (amended). When the first power mismatch that [solve] computes is
    below the tolerance, [solve] returns a result with [converged = true] and
    [iterations = 1] (the pass that computed the mismatch is counted), and the
    voltage magnitude and angle of every bus are those of the initial state:
    the specified values at slack and PV buses, the flat start elsewhere. *)
Theorem flat_mismatch_converges_in_first_pass
    (linalg_solve : list (list R) -> list R -> linalg_result)
    (self : NewtonRaphsonLoadFlow) (m : R) :
  first_mismatch self = Some m -> m < tolerance self ->
  exists res v0 theta0,
    solve linalg_solve self = Some res /\
    initial_state self = Some (v0, theta0) /\
    converged res = true /\
    iterations res = 1%nat /\
    max_mismatch res = Finite m /\
    (buses res).*1 = (LoadFlow.buses self).*1 /\
    forall key b, (key, b) ∈ buses res ->
      exists idx, bus_index self !! id b = Some idx /\
                  v0 !! idx = Some (v_magnitude b) /\
                  theta0 !! idx = Some (v_angle b).
Proof.
  intros Hfirst Hm.
  destruct (solve_first_pass linalg_solve self m Hfirst Hm)
    as (v0 & theta0 & p_calc & q_calc & stored & H0 & _ & _ & HF & Hsolve).
  exists (_compile_results stored true 1 (Finite m)), v0, theta0.
  split; [exact Hsolve|]. split; [exact H0|].
  cbn [converged iterations max_mismatch buses _compile_results].
  split; [reflexivity|]. split; [reflexivity|]. split; [reflexivity|].
  split.
  - clear -HF. induction HF as [|kb kb' l l' Hk _ IH]; [reflexivity|].
    simpl. f_equal; [apply Hk|exact IH].
  - intros key b Hin. clear -HF Hin.
    induction HF as [|kb kb' l l' Hk _ IH]; [inversion Hin|].
    apply elem_of_cons in Hin. destruct Hin as [<-|Hin]; [|exact (IH Hin)].
    destruct Hk as (_ & Hid & _ & idx & Hi & Hv & Ht & _). simpl in *.
    exists idx. rewrite Hid. auto.
Qed.



(** C1 (the code departs from it). In the two-bus example with a load at
    bus 2 the first mismatch is 0.5, above the tolerance, so [solve] builds
    the Jacobian at the flat start; [_build_jacobian] returns the constant
    matrix [[10, -1], [-1, 10]], while the derivative of the calculated power
    P_2 with respect to the angle of bus 2 is 5 there.  The matrix returned
    never depends on the voltages and angles. *)
Theorem build_jacobian_is_constant :
  let self := example_system example_load_bus in
  initial_state self = Some ([1; 1], [0; 0]) /\
  first_mismatch self = Some 0.5 /\
  ~ 0.5 < tolerance self /\
  _build_jacobian self [1; 1] [0; 0] = Some [[10; -1]; [-1; 10]] /\
  derivable_pt_lim (fun t => p_calc_at self [1; 1] [0; t] 1) 0 5 /\
  (forall (s : NewtonRaphsonLoadFlow) (v theta v' theta' : list R),
      _build_jacobian s v theta = _build_jacobian s v' theta').
Proof.
  cbv zeta.
  split; [exact example_initial_state_load|].
  split; [exact example_first_mismatch_load|].
  split; [simpl; lra|].
  split; [reflexivity|].
  split; [|reflexivity].
  assert (E : forall t, p_calc_at (example_system example_load_bus) [1; 1] [0; t] 1
                        = 5 * sin t).
  { intros t. unfold p_calc_at. rewrite example_power. reflexivity. }
  assert (D : derivable_pt_lim (mult_real_fct 5 sin) 0 5).
  { replace 5 with (5 * cos 0) at 2 by (rewrite cos_0; ring).
    apply derivable_pt_lim_scal. apply derivable_pt_lim_sin. }
  intros eps Heps. destruct (D eps Heps) as [delta Hd]. exists delta.
  intros h Hh Hlt. rewrite !E. apply Hd; assumption.
Qed.

End LoadFlowClaims.

Lemma flat_mismatch_converges_in_first_pass_witness :
  exists res v0 theta0,
    LoadFlow.solve singular_solver (example_system example_idle_bus) = Some res /\
    LoadFlow.initial_state (example_system example_idle_bus) = Some (v0, theta0) /\
    LoadFlow.LoadFlowResult.converged res = true /\
    LoadFlow.LoadFlowResult.iterations res = 1%nat /\
    LoadFlow.LoadFlowResult.max_mismatch res = LoadFlow.Finite 0 /\
    (LoadFlow.LoadFlowResult.buses res).*1 =
      (LoadFlow.buses (example_system example_idle_bus)).*1 /\
    forall key b, (key, b) ∈ LoadFlow.LoadFlowResult.buses res ->
      exists idx,
        LoadFlow.bus_index (example_system example_idle_bus) !! LoadFlow.id b
          = Some idx /\
        v0 !! idx = Some (LoadFlow.v_magnitude b) /\
        theta0 !! idx = Some (LoadFlow.v_angle b).
Proof.
  apply (flat_mismatch_converges_in_first_pass singular_solver
           (example_system example_idle_bus) 0).
  - exact example_first_mismatch_idle.
  - simpl; lra.
Defined.

(** C3, as stated, fails: the idle two-bus system has a first mismatch of
    zero, and [solve] reports one iteration, not none. *)
Lemma flat_start_reports_one_iteration :
  LoadFlow.first_mismatch (example_system example_idle_bus) = Some 0 /\
  0 < LoadFlow.tolerance (example_system example_idle_bus) /\
  exists res,
    LoadFlow.solve singular_solver (example_system example_idle_bus) = Some res /\
    LoadFlow.LoadFlowResult.converged res = true /\
    LoadFlow.LoadFlowResult.iterations res = 1%nat /\
    LoadFlow.LoadFlowResult.iterations res <> 0%nat.
Proof.
  split; [exact example_first_mismatch_idle|]. split; [simpl; lra|].
  destruct (solve_first_pass singular_solver (example_system example_idle_bus) 0
              example_first_mismatch_idle)
    as (v0 & theta0 & p & q & stored & _ & _ & _ & _ & Hsolve); [simpl; lra|].
  eexists. split; [exact Hsolve|]. cbn. split; [reflexivity|]. split; [reflexivity|lia].
Qed.


(** ** The per-unit system and the admittance matrix on examples *)

Lemma per_unit_round_trip_witness :
  (exists z_ohms z_pu,
      (PerUnit.impedance_to_ohms (PerUnit.__init__ 100) (Complex 0.2 2) 0.4).1
        = Some z_ohms /\
      (PerUnit.impedance_to_pu
         (PerUnit.impedance_to_ohms (PerUnit.__init__ 100) (Complex 0.2 2) 0.4).2
         z_ohms 0.4).1 = Some z_pu /\
      z_pu = Complex 0.2 2 /\
      Cabs (Csub z_pu (Complex 0.2 2)) <= 1e-9 * Cabs (Complex 0.2 2)) /\
  (exists z_pu z_ohms,
      (PerUnit.impedance_to_pu (PerUnit.__init__ 100) (Complex 0.2 2) 0.4).1
        = Some z_pu /\
      (PerUnit.impedance_to_ohms
         (PerUnit.impedance_to_pu (PerUnit.__init__ 100) (Complex 0.2 2) 0.4).2
         z_pu 0.4).1 = Some z_ohms /\
      z_ohms = Complex 0.2 2 /\
      Cabs (Csub z_ohms (Complex 0.2 2)) <= 1e-9 * Cabs (Complex 0.2 2)).
Proof.
  apply (proj2 (proj2 per_unit_round_trip) (PerUnit.__init__ 100) (Complex 0.2 2) 0.4).
  - apply well_formed_init. lra.
  - lra.
Defined.


(** ** Network levels *)

Section BreadthFirstSearch.
Import Topology.
Variable adjacency : gmap string (list string).

Lemma distance_unique (s v : string) (n m : nat) :
  distance adjacency s v n -> distance adjacency s v m -> n = m.
Proof.
  intros [Hn Hmin] [Hm Hmin']. apply Nat.le_antisymm; [apply Hmin|apply Hmin']; assumption.
Qed.

Lemma distance_source (s : string) : distance adjacency s s 0.
Proof. split; [constructor|]. intros m _. lia. Qed.

Lemma targets_downstream (u d : string) :
  d ∈ downstream_of adjacency u -> d ∈ targets adjacency.
Proof.
  unfold downstream_of, targets. intros Hd.
  destruct (adjacency !! u) as [l|] eqn:E; simpl in Hd; [|inversion Hd].
  apply elem_of_union_list. exists (list_to_set l).
  split; [|apply elem_of_list_to_set; exact Hd].
  apply list_elem_of_fmap. exists l. split; [reflexivity|].
  apply list_elem_of_fmap. exists (u, l). split; [reflexivity|].
  apply elem_of_map_to_list. exact E.
Qed.

Lemma enqueue_downstream_spec (l : Z) (ds : list string)
    (q : list (string * Z)) (vis : gset string) :
  exists new,
    enqueue_downstream l ds q vis = (q ++ new, list_to_set (new.*1) ∪ vis) /\
    Forall (fun x => x.1 ∈ ds /\ (x.1 ∉ vis) /\ x.2 = (l + 1)%Z) new /\
    NoDup new.*1 /\
    forall d, d ∈ ds -> d ∈ vis \/ d ∈ new.*1.
Proof.
  unfold enqueue_downstream. revert q vis.
  induction ds as [|d ds IH]; intros q vis; simpl.
  - exists []. rewrite app_nil_r. simpl. split; [f_equal; set_solver|].
    split; [constructor|]. split; [constructor|]. intros d Hd. inversion Hd.
  - destruct (decide (d ∈ vis)) as [Hd|Hd].
    + destruct (IH q vis) as (new & E & HF & HN & Hall).
      exists new. split; [exact E|]. split.
      { eapply Forall_impl; [exact HF|]. intros x (H1 & H2 & H3).
        split; [right; exact H1|]. split; assumption. }
      split; [exact HN|].
      intros d' Hd'. apply elem_of_cons in Hd'. destruct Hd' as [->|Hd'];
        [left; exact Hd|apply Hall; exact Hd'].
    + destruct (IH (q ++ [(d, (l + 1)%Z)]) ({[d]} ∪ vis)) as (new & E & HF & HN & Hall).
      exists ((d, (l + 1)%Z) :: new). rewrite E. simpl.
      split; [f_equal; [rewrite <- app_assoc; reflexivity|set_solver]|].
      split.
      { constructor; [simpl; split; [left|split; [exact Hd|reflexivity]]|].
        eapply Forall_impl; [exact HF|]. intros x (H1 & H2 & H3).
        split; [right; exact H1|]. split; [set_solver|exact H3]. }
      split.
      { constructor; [|exact HN]. intros Hin.
        apply list_elem_of_fmap in Hin. destruct Hin as (x & Hx & Hin).
        rewrite Forall_forall in HF. destruct (HF x Hin) as (_ & H2 & _).
        apply H2. rewrite <- Hx. set_solver. }
      intros d' Hd'. apply elem_of_cons in Hd'. destruct Hd' as [->|Hd'].
      * right. left.
      * destruct (Hall d' Hd') as [H|H]; [|right; right; exact H].
        apply elem_of_union in H. destruct H as [H|H]; [|left; exact H].
        apply elem_of_singleton in H. subst d'. right. left.
Qed.

Section OneSource.
Variable s : string.
Variable nodes0 : gmap string TopologyNode.t.

(** A node that a path reaches and that is not visited yet lies behind a
    queued node that is nearer to the source. *)
Lemma frontier (queue : list (string * Z)) (visited : gset string)
    (nodes : gmap string TopologyNode.t) (done : gset string)
    (w : string) (n : nat) :
  bfs_invariant adjacency s nodes0 queue visited nodes done ->
  path adjacency s w n -> w ∉ visited ->
  exists u l, (u, l) ∈ queue /\ (l < Z.of_nat n)%Z.
Proof.
  intros Inv Hp. induction Hp as [s'|s' u v n Hp IH Hv]; intros Hw.
  - exfalso. apply Hw. apply (inv_source _ _ _ _ _ _ _ Inv).
  - destruct (decide (u ∈ visited)) as [Hu|Hu].
    + apply (inv_visited _ _ _ _ _ _ _ Inv) in Hu. destruct Hu as [Hu|Hu].
      * exfalso. apply Hw. eapply inv_closed; eassumption.
      * apply list_elem_of_fmap in Hu. destruct Hu as ([u' l] & Hu' & Hin).
        simpl in Hu'. subst u'.
        destruct (inv_queue _ _ _ _ _ _ _ Inv u l Hin) as (k & -> & Hk).
        exists u, (Z.of_nat k). split; [exact Hin|].
        destruct Hk as [_ Hmin]. specialize (Hmin n Hp). lia.
    + destruct (IH Inv Hu) as (u' & l & Hin & Hl).
      exists u', l. split; [exact Hin|lia].
Qed.

Lemma relax_idempotent (l : Z) (node : TopologyNode.t) :
  (0 <= l)%Z -> relax l (relax l node) = relax l node.
Proof.
  intros Hl. unfold relax.
  destruct (decide (TopologyNode.level node = (-1)%Z \/ (l < TopologyNode.level node)%Z)) as [H|H].
  - simpl. destruct (decide (l = (-1)%Z \/ (l < l)%Z)) as [[H'|H']|H']; [lia|lia|reflexivity].
  - destruct (decide (TopologyNode.level node = (-1)%Z \/ (l < TopologyNode.level node)%Z));
      [contradiction|reflexivity].
Qed.

Lemma bfs_invariant_init :
  bfs_invariant adjacency s nodes0 [(s, 0%Z)] {[s]} nodes0 ∅.
Proof.
  constructor.
  - set_solver.
  - intros x. simpl. set_solver.
  - intros v l Hin. apply list_elem_of_singleton in Hin. injection Hin as -> ->.
    exists 0%nat. split; [reflexivity|apply distance_source].
  - intros p w Hp. set_solver.
  - exists 0%Z, [(s, 0%Z)], []. split; [reflexivity|].
    split; [constructor; [reflexivity|constructor]|constructor].
  - intros p Hp. set_solver.
  - intros x _. reflexivity.
Qed.

Lemma bfs_invariant_step (v : string) (l : Z) (queue : list (string * Z))
    (visited : gset string) (nodes : gmap string TopologyNode.t)
    (done : gset string) :
  bfs_invariant adjacency s nodes0 ((v, l) :: queue) visited nodes done ->
  bfs_invariant adjacency s nodes0
    (enqueue_downstream l (downstream_of adjacency v) queue visited).1
    (enqueue_downstream l (downstream_of adjacency v) queue visited).2
    (alter (relax l) v nodes) ({[v]} ∪ done).
Proof.
  intros Inv.
  destruct (enqueue_downstream_spec l (downstream_of adjacency v) queue visited)
    as (new & E & HF & HN & Hall).
  rewrite E. simpl.
  destruct (inv_queue _ _ _ _ _ _ _ Inv v l) as (k & Hl & Hk); [left|].
  assert (Hmin : forall u lu, (u, lu) ∈ (v, l) :: queue -> (l <= lu)%Z).
  { destruct (inv_front _ _ _ _ _ _ _ Inv) as (h & A & B & Eq & HA & HB).
    intros u lu Hin. rewrite Eq in Hin.
    rewrite Forall_forall in HA. rewrite Forall_forall in HB.
    destruct A as [|a A]; simpl in Eq.
    - subst B. pose proof (HB (v, l) ltac:(left)) as H1.
      pose proof (HB (u, lu) Hin) as H2. simpl in *. lia.
    - injection Eq as <- Eq. pose proof (HA (v, l) ltac:(left)) as H1.
      apply elem_of_app in Hin. destruct Hin as [Hin|Hin].
      + pose proof (HA _ Hin) as H2. simpl in *. lia.
      + pose proof (HB _ Hin) as H2. simpl in *. lia. }
  rewrite Forall_forall in HF.
  constructor.
  - apply elem_of_union_r. apply (inv_source _ _ _ _ _ _ _ Inv).
  - intros x. rewrite fmap_app, elem_of_union, elem_of_list_to_set, elem_of_app.
    rewrite (inv_visited _ _ _ _ _ _ _ Inv x). simpl.
    rewrite elem_of_cons, elem_of_union, elem_of_singleton. tauto.
  - intros u lu Hin. apply elem_of_app in Hin. destruct Hin as [Hin|Hin].
    + apply (inv_queue _ _ _ _ _ _ _ Inv). right. exact Hin.
    + destruct (HF _ Hin) as (Hu & Hnv & Hlu). simpl in *.
      exists (S k). split; [lia|]. split.
      * econstructor; [apply Hk|exact Hu].
      * intros m Hm.
        destruct (frontier _ _ _ _ u m Inv Hm Hnv) as (u' & l' & Hin' & Hlt).
        specialize (Hmin u' l' Hin'). lia.
  - intros p w Hp Hw. apply elem_of_union in Hp. destruct Hp as [Hp|Hp].
    + apply elem_of_singleton in Hp. subst p.
      destruct (Hall w Hw) as [H|H]; [apply elem_of_union_r; exact H|].
      apply elem_of_union_l. apply elem_of_list_to_set. exact H.
    + apply elem_of_union_r. eapply inv_closed; eassumption.
  - destruct (inv_front _ _ _ _ _ _ _ Inv) as (h & A & B & Eq & HA & HB).
    assert (Hnew : forall h', (l + 1 = h')%Z -> Forall (fun x => x.2 = h') new).
    { intros h' <-. apply Forall_forall. intros x Hx. apply (HF x Hx). }
    destruct A as [|a A]; simpl in Eq.
    + subst B. apply Forall_cons in HB. destruct HB as [Hl' HB]. simpl in Hl'.
      exists (h + 1)%Z, queue, new. split; [reflexivity|].
      split; [exact HB|apply Hnew; lia].
    + injection Eq as <- ->. apply Forall_cons in HA. destruct HA as [Hl' HA].
      simpl in Hl'. exists h, A, (B ++ new).
      split; [rewrite app_assoc; reflexivity|]. split; [exact HA|].
      apply Forall_app. split; [exact HB|apply Hnew; lia].
  - intros p Hp. destruct (decide (p = v)) as [->|Hne].
    + exists k. split; [exact Hk|]. rewrite lookup_alter_eq.
      destruct (decide (v ∈ done)) as [Hd|Hd].
      * destruct (inv_done _ _ _ _ _ _ _ Inv v Hd) as (k' & Hk' & Hn).
        rewrite (distance_unique _ _ _ _ Hk' Hk) in Hn. rewrite Hn, Hl.
        destruct (nodes0 !! v); simpl; [|reflexivity].
        f_equal. apply relax_idempotent. lia.
      * rewrite (inv_rest _ _ _ _ _ _ _ Inv v Hd), Hl. reflexivity.
    + rewrite lookup_alter_ne by congruence.
      apply (inv_done _ _ _ _ _ _ _ Inv). set_solver.
  - intros x Hx. rewrite lookup_alter_ne by set_solver.
    apply (inv_rest _ _ _ _ _ _ _ Inv). set_solver.
Qed.

Lemma bfs_loop_invariant (fuel : nat) (queue : list (string * Z))
    (visited : gset string) (nodes nodes' : gmap string TopologyNode.t)
    (done : gset string) :
  bfs_invariant adjacency s nodes0 queue visited nodes done ->
  bfs_loop fuel adjacency queue visited nodes = Some nodes' ->
  exists visited' done',
    bfs_invariant adjacency s nodes0 [] visited' nodes' done'.
Proof.
  revert queue visited nodes done.
  induction fuel as [|fuel IH]; intros queue visited nodes done Inv H.
  - destruct queue as [|[v l] queue]; simpl in H; [|discriminate].
    injection H as <-. eauto.
  - destruct queue as [|[v l] queue]; simpl in H.
    + injection H as <-. eauto.
    + eapply IH; [|exact H]. apply bfs_invariant_step. exact Inv.
Qed.

Lemma bfs_loop_terminates (fuel : nat) (queue : list (string * Z))
    (visited : gset string) (nodes : gmap string TopologyNode.t) :
  (length queue + size (targets adjacency ∖ visited) <= fuel)%nat ->
  is_Some (bfs_loop fuel adjacency queue visited nodes).
Proof.
  revert queue visited nodes.
  induction fuel as [|fuel IH]; intros queue visited nodes Hfuel.
  - destruct queue; simpl in *; [eexists; reflexivity|lia].
  - destruct queue as [|[v l] queue]; simpl; [eexists; reflexivity|].
    destruct (enqueue_downstream_spec l (downstream_of adjacency v) queue visited)
      as (new & E & HF & HN & _).
    rewrite E. simpl. apply IH. simpl in Hfuel.
    rewrite length_app.
    set (N := list_to_set (new.*1) : gset string).
    assert (HsizeN : size N = length new).
    { unfold N. rewrite size_list_to_set by exact HN. apply length_fmap. }
    assert (Hsub : N ⊆ targets adjacency ∖ visited).
    { intros x Hx. unfold N in Hx. apply elem_of_list_to_set in Hx.
      apply list_elem_of_fmap in Hx. destruct Hx as (y & -> & Hy).
      rewrite Forall_forall in HF. destruct (HF y Hy) as (H1 & H2 & _).
      apply elem_of_difference. split; [|exact H2].
      eapply targets_downstream. exact H1. }
    assert (Hsplit : targets adjacency ∖ visited
                     = N ∪ (targets adjacency ∖ (N ∪ visited))).
    { apply set_eq. intros x. destruct (decide (x ∈ N)); set_solver. }
    assert (Hsize : size (targets adjacency ∖ visited)
                    = (size N + size (targets adjacency ∖ (N ∪ visited)))%nat).
    { rewrite Hsplit at 1. apply size_union. set_solver. }
    lia.
Qed.

(** The search from [s] ends, and it relaxes the level of exactly the nodes
    that a path from [s] reaches, each with its distance from [s]. *)
Lemma bfs_from_spec :
  exists nodes',
    bfs_from adjacency s nodes0 = Some nodes' /\
    forall x,
      (exists n, distance adjacency s x n /\
                 nodes' !! x = relax (Z.of_nat n) <$> nodes0 !! x) \/
      ((forall m, ~ path adjacency s x m) /\ nodes' !! x = nodes0 !! x).
Proof.
  unfold bfs_from.
  destruct (bfs_loop_terminates (bfs_fuel adjacency) [(s, 0%Z)] {[s]} nodes0)
    as [nodes' H].
  { unfold bfs_fuel. simpl.
    pose proof (subseteq_size (targets adjacency ∖ {[s]}) (targets adjacency)
                  ltac:(set_solver)). lia. }
  exists nodes'. split; [exact H|].
  destruct (bfs_loop_invariant _ _ _ _ _ _ bfs_invariant_init H)
    as (visited' & done' & Inv).
  intros x. destruct (decide (x ∈ done')) as [Hx|Hx].
  - left. apply (inv_done _ _ _ _ _ _ _ Inv). exact Hx.
  - right. split; [|apply (inv_rest _ _ _ _ _ _ _ Inv); exact Hx].
    intros m Hm.
    assert (Hnv : x ∉ visited').
    { intros Hv. apply (inv_visited _ _ _ _ _ _ _ Inv) in Hv.
      destruct Hv as [Hv|Hv]; [contradiction|inversion Hv]. }
    destruct (frontier _ _ _ _ x m Inv Hm Hnv) as (u & l & Hin & _).
    inversion Hin.
Qed.

End OneSource.
End BreadthFirstSearch.

Section AllSources.
Import Topology.
Variable adjacency : gmap string (list string).
Variable nodes0 : gmap string TopologyNode.t.

Lemma same_but_level_refl (node : TopologyNode.t) : same_but_level node node.
Proof. exists (TopologyNode.level node). destruct node; reflexivity. Qed.

Lemma same_but_level_set (a b : TopologyNode.t) (l : Z) :
  same_but_level a b -> same_but_level a (TopologyNode.set_level b l).
Proof. intros [l' ->]. exists l. reflexivity. Qed.

(** One more search keeps the levels right for one more source. *)
Lemma levels_from_relax (done : list string) (s x : string) (d : nat)
    (node0 node : TopologyNode.t) :
  levels_from adjacency done node0 node x ->
  distance adjacency s x d ->
  levels_from adjacency (done ++ [s]) node0 (relax (Z.of_nat d) node) x.
Proof.
  intros [Hsame Hlev] Hd. unfold relax.
  destruct Hlev as [[H0 Hl]|[H0 [[Hl Hno]|(s0 & c & Hs0 & Hc & Hl & Hmin)]]].
  - destruct (decide _) as [[H|H]|_]; [lia|lia|].
    split; [exact Hsame|left; split; assumption].
  - destruct (decide _) as [_|H]; [|exfalso; apply H; left; exact Hl].
    split; [apply same_but_level_set; exact Hsame|]. right. split; [exact H0|].
    right. exists s, d. split; [apply elem_of_app; right; left|].
    split; [exact Hd|]. split; [reflexivity|].
    intros s' m Hs' Hp. apply elem_of_app in Hs'. destruct Hs' as [Hs'|Hs'].
    + exfalso. exact (Hno s' m Hs' Hp).
    + apply list_elem_of_singleton in Hs'. subst s'. apply Hd. exact Hp.
  - destruct (decide _) as [[H|H]|H].
    + lia.
    + split; [apply same_but_level_set; exact Hsame|]. right. split; [exact H0|].
      right. exists s, d. split; [apply elem_of_app; right; left|].
      split; [exact Hd|]. split; [reflexivity|].
      intros s' m Hs' Hp. apply elem_of_app in Hs'. destruct Hs' as [Hs'|Hs'].
      * specialize (Hmin s' m Hs' Hp). lia.
      * apply list_elem_of_singleton in Hs'. subst s'. apply Hd. exact Hp.
    + split; [exact Hsame|]. right. split; [exact H0|].
      right. exists s0, c. split; [apply elem_of_app; left; exact Hs0|].
      split; [exact Hc|]. split; [exact Hl|].
      intros s' m Hs' Hp. apply elem_of_app in Hs'. destruct Hs' as [Hs'|Hs'].
      * apply Hmin with s'; assumption.
      * apply list_elem_of_singleton in Hs'. subst s'.
        destruct Hd as [_ Hdm]. specialize (Hdm m Hp). lia.
Qed.

Lemma levels_from_unreached (done : list string) (s x : string)
    (node0 node : TopologyNode.t) :
  levels_from adjacency done node0 node x ->
  (forall m, ~ path adjacency s x m) ->
  levels_from adjacency (done ++ [s]) node0 node x.
Proof.
  intros [Hsame Hlev] Hno. split; [exact Hsame|].
  destruct Hlev as [H|[H0 [[Hl Hnone]|(s0 & c & Hs0 & Hc & Hl & Hmin)]]];
    [left; exact H|right; split; [exact H0|]..].
  - left. split; [exact Hl|]. intros s' m Hs'.
    apply elem_of_app in Hs'. destruct Hs' as [Hs'|Hs']; [apply Hnone; exact Hs'|].
    apply list_elem_of_singleton in Hs'. subst s'. apply Hno.
  - right. exists s0, c. split; [apply elem_of_app; left; exact Hs0|].
    split; [exact Hc|]. split; [exact Hl|].
    intros s' m Hs' Hp. apply elem_of_app in Hs'. destruct Hs' as [Hs'|Hs'].
    + apply Hmin with s'; assumption.
    + apply list_elem_of_singleton in Hs'. subst s'. exfalso. exact (Hno m Hp).
Qed.

(** The searches from all the sources end, and leave at every node the least
    distance from a source that reaches it. *)
Lemma bfs_all_spec (srcs done : list string) (nodes : gmap string TopologyNode.t) :
  (forall x, option_Forall2 (fun node0 node => levels_from adjacency done node0 node x)
               (nodes0 !! x) (nodes !! x)) ->
  exists nodes',
    bfs_all adjacency srcs nodes = Some nodes' /\
    forall x, option_Forall2
                (fun node0 node => levels_from adjacency (done ++ srcs) node0 node x)
                (nodes0 !! x) (nodes' !! x).
Proof.
  revert done nodes. induction srcs as [|s srcs IH]; intros done nodes H; simpl.
  - exists nodes. split; [reflexivity|]. rewrite app_nil_r. exact H.
  - destruct (bfs_from_spec adjacency s nodes) as (nodes1 & E & Hspec).
    rewrite E. cbn [mbind option_bind].
    destruct (IH (done ++ [s]) nodes1) as (nodes' & E' & H').
    + intros x. specialize (H x).
      destruct (Hspec x) as [(d & Hd & Hx)|[Hno Hx]]; rewrite Hx.
      * destruct H as [node0 node Hl|]; simpl; constructor.
        apply levels_from_relax; assumption.
      * destruct H as [node0 node Hl|]; constructor.
        apply levels_from_unreached; assumption.
    + exists nodes'. split; [exact E'|].
      intros x.
      replace (done ++ s :: srcs) with ((done ++ [s]) ++ srcs)
        by (rewrite <- app_assoc; reflexivity).
      apply H'.
Qed.

End AllSources.

Section NetworkLevels.
Import Topology.

Lemma graph_well_formed_init : well_formed __init__.
Proof.
  split.
  - intros s. simpl. split; [intros H; inversion H|].
    intros (node & H & _). simpl in H. rewrite lookup_empty in H. discriminate.
  - intros x node H. simpl in H. rewrite lookup_empty in H. discriminate.
Qed.

(** [add_node] keeps the graph well formed, unless it replaces a Source node
    by a node of another type. *)
Lemma graph_well_formed_add_node (g : TopologyGraph) (node : TopologyNode.t) :
  well_formed g ->
  (forall old, nodes g !! TopologyNode.id node = Some old ->
     TopologyNode.type old = "Source"%string ->
     TopologyNode.type node = "Source"%string) ->
  well_formed (add_node g node).
Proof.
  intros [Hs Hl] Hold. unfold add_node.
  destruct (decide (TopologyNode.type node = "Source"%string)) as [Ht|Ht]; split; simpl.
  - intros s. rewrite elem_of_app, list_elem_of_singleton, Hs. unfold is_source; simpl.
    split.
    + intros [(n & Hn & Hty)| ->].
      * destruct (decide (TopologyNode.id node = s)) as [<-|Hne].
        { eexists. rewrite lookup_insert_eq. split; [reflexivity|exact Ht]. }
        { exists n. rewrite lookup_insert_ne by exact Hne. auto. }
      * eexists. rewrite lookup_insert_eq. split; [reflexivity|exact Ht].
    + intros (n & Hn & Hty).
      destruct (decide (TopologyNode.id node = s)) as [<-|Hne]; [right; reflexivity|].
      rewrite lookup_insert_ne in Hn by exact Hne. left. eauto.
  - intros x n Hn Hty.
    destruct (decide (TopologyNode.id node = x)) as [<-|Hne].
    + rewrite lookup_insert_eq in Hn. injection Hn as <-. reflexivity.
    + rewrite lookup_insert_ne in Hn by exact Hne. eapply Hl; eassumption.
  - intros s. rewrite Hs. unfold is_source; simpl. split.
    + intros (n & Hn & Hty).
      destruct (decide (TopologyNode.id node = s)) as [<-|Hne].
      * exfalso. apply Ht. eapply Hold; eassumption.
      * exists n. rewrite lookup_insert_ne by exact Hne. auto.
    + intros (n & Hn & Hty).
      destruct (decide (TopologyNode.id node = s)) as [<-|Hne].
      * rewrite lookup_insert_eq in Hn. injection Hn as <-. contradiction.
      * rewrite lookup_insert_ne in Hn by exact Hne. eauto.
  - intros x n Hn Hty.
    destruct (decide (TopologyNode.id node = x)) as [<-|Hne].
    + rewrite lookup_insert_eq in Hn. injection Hn as <-. contradiction.
    + rewrite lookup_insert_ne in Hn by exact Hne. eapply Hl; eassumption.
Qed.

Lemma lookup_alter_fields (f : TopologyNode.t -> TopologyNode.t)
    (m : gmap string TopologyNode.t) (k x : string) (n : TopologyNode.t) :
  (forall a, TopologyNode.type (f a) = TopologyNode.type a /\
             TopologyNode.level (f a) = TopologyNode.level a) ->
  alter f k m !! x = Some n ->
  exists n0, m !! x = Some n0 /\ TopologyNode.type n = TopologyNode.type n0 /\
             TopologyNode.level n = TopologyNode.level n0.
Proof.
  intros Hf H. destruct (decide (k = x)) as [->|Hne].
  - rewrite lookup_alter_eq in H. destruct (m !! x) as [n0|]; [|discriminate].
    injection H as <-. exists n0. split; [reflexivity|apply Hf].
  - rewrite lookup_alter_ne in H by exact Hne. exists n. auto.
Qed.

Lemma lookup_alter_fields_inv (f : TopologyNode.t -> TopologyNode.t)
    (m : gmap string TopologyNode.t) (k x : string) (n0 : TopologyNode.t) :
  (forall a, TopologyNode.type (f a) = TopologyNode.type a /\
             TopologyNode.level (f a) = TopologyNode.level a) ->
  m !! x = Some n0 ->
  exists n, alter f k m !! x = Some n /\ TopologyNode.type n = TopologyNode.type n0 /\
            TopologyNode.level n = TopologyNode.level n0.
Proof.
  intros Hf H. destruct (decide (k = x)) as [->|Hne].
  - rewrite lookup_alter_eq, H. eexists. split; [reflexivity|apply Hf].
  - rewrite lookup_alter_ne by exact Hne. exists n0. auto.
Qed.

Lemma graph_well_formed_add_edge (g : TopologyGraph) (edge : TopologyEdge.t) :
  well_formed g -> well_formed (add_edge g edge).
Proof.
  intros [Hs Hl]. unfold add_edge.
  set (s := TopologyEdge.source_id edge). set (t := TopologyEdge.target_id edge).
  destruct (decide (is_Some (nodes g !! s) /\ is_Some (nodes g !! t))) as [_|_];
    [|split; assumption].
  assert (Hu : forall a, TopologyNode.type (TopologyNode.add_upstream s a) = TopologyNode.type a /\
                         TopologyNode.level (TopologyNode.add_upstream s a) = TopologyNode.level a)
    by (intros a; split; reflexivity).
  assert (Hd : forall a, TopologyNode.type (TopologyNode.add_downstream t a) = TopologyNode.type a /\
                         TopologyNode.level (TopologyNode.add_downstream t a) = TopologyNode.level a)
    by (intros a; split; reflexivity).
  split; simpl.
  - intros x. rewrite Hs. unfold is_source; simpl. split.
    + intros (n & Hn & Hty).
      destruct (lookup_alter_fields_inv _ _ s x n Hd Hn) as (n1 & Hn1 & Ht1 & _).
      destruct (lookup_alter_fields_inv _ _ t x n1 Hu Hn1) as (n2 & Hn2 & Ht2 & _).
      exists n2. split; [exact Hn2|congruence].
    + intros (n & Hn & Hty).
      destruct (lookup_alter_fields _ _ _ _ _ Hu Hn) as (n1 & Hn1 & Ht1 & _).
      destruct (lookup_alter_fields _ _ _ _ _ Hd Hn1) as (n2 & Hn2 & Ht2 & _).
      exists n2. split; [exact Hn2|congruence].
  - intros x n Hn Hty.
    destruct (lookup_alter_fields _ _ _ _ _ Hu Hn) as (n1 & Hn1 & Ht1 & Hl1).
    destruct (lookup_alter_fields _ _ _ _ _ Hd Hn1) as (n2 & Hn2 & Ht2 & Hl2).
    rewrite Hl1, Hl2. apply (Hl x n2 Hn2). congruence.
Qed.

Lemma graph_well_formed_add_nodes (g : TopologyGraph) (ns : list TopologyNode.t) :
  well_formed g ->
  NoDup (TopologyNode.id <$> ns) ->
  (forall node, node ∈ ns -> nodes g !! TopologyNode.id node = None) ->
  well_formed (foldl add_node g ns).
Proof.
  revert g. induction ns as [|node ns IH]; intros g Hwf Hnd Hfresh; simpl; [exact Hwf|].
  apply NoDup_cons in Hnd. destruct Hnd as [Hnotin Hnd].
  apply IH; [|exact Hnd|].
  - apply graph_well_formed_add_node; [exact Hwf|].
    intros old Hold. rewrite (Hfresh node) in Hold by left. discriminate.
  - intros n Hn.
    assert (Hne : TopologyNode.id node <> TopologyNode.id n).
    { intros E. apply Hnotin. rewrite E. apply list_elem_of_fmap. eauto. }
    unfold add_node. destruct (decide _); simpl;
      rewrite lookup_insert_ne by exact Hne; apply Hfresh; right; exact Hn.
Qed.

Lemma graph_well_formed_add_edges (g : TopologyGraph) (es : list TopologyEdge.t) :
  well_formed g -> well_formed (foldl add_edge g es).
Proof.
  revert g. induction es as [|e es IH]; intros g Hwf; simpl; [exact Hwf|].
  apply IH. apply graph_well_formed_add_edge. exact Hwf.
Qed.


End NetworkLevels.

Example example_topology_levels :
  levels_of (Topology.calculate_network_levels example_topology)
            ["1"; "2"; "3"; "4"; "5"; "6"; "7"; "8"]%string
  = [Some 0; Some 1; Some 2; Some 3; Some 4; Some 3; Some 4; None]%Z.
Proof. vm_compute. reflexivity. Qed.

(** ** Unbalanced faults, motors and the peak factor *)

Lemma Cabs_Cdiv_C1 (z w : complex) :
  Cdiv C1 z = Some w -> z <> C0 /\ Cabs w = / Cabs z.
Proof.
  unfold Cdiv. destruct (decide (z = C0)) as [|Hz]; [discriminate|].
  intros [= <-]. split; [exact Hz|].
  pose proof (Cabs_pos z Hz) as Hpos. unfold Cabs in *. simpl.
  set (d := real z * real z + imag z * imag z) in *.
  assert (Hd : 0 < d).
  { destruct (Rle_lt_dec d 0) as [Hle|Hlt]; [|exact Hlt].
    rewrite (sqrt_neg_0 d Hle) in Hpos. lra. }
  replace ((1 * real z + 0 * imag z) / d * ((1 * real z + 0 * imag z) / d) +
           (0 * real z - 1 * imag z) / d * ((0 * real z - 1 * imag z) / d))
    with (/ d) by (unfold d; field; fold d; lra).
  apply sqrt_inv.
Qed.


Section UnbalancedFaults.
Import ShortCircuit.

(** X1. the line-to-line current is sqrt 3 / 2 of the three-phase current. *)
Theorem line_to_line_is_fraction_of_three_phase
    (params : ShortCircuitParameters) (fault : complex)
    (res : ShortCircuitResult) :
  calculate_three_phase_fault params fault None = Some res ->
  exists i_k2,
    calculate_line_to_line_fault params fault = Some i_k2 /\
    i_k2 = sqrt 3 / 2 * i_k3_initial res.
Proof.
  intros H.
  destruct (three_phase_fault_returned params fault None res H)
    as (Z & HZ & HS & Hden & _ & Hi & _).
  simpl in HZ. injection HZ as <-. cbv zeta in Hden.
  unfold calculate_line_to_line_fault.
  rewrite fdiv_Some by exact HS. cbn [mbind option_bind].
  set (Zo := Cmul_real _ _) in *.
  pose proof sqrt3_pos as H3.
  assert (HZo : Cabs Zo <> 0) by (intros E; apply Hden; rewrite E; ring).
  rewrite fdiv_Some by lra. cbn [mbind option_bind].
  eexists. split; [reflexivity|]. rewrite Hi.
  field. split; lra.
Qed.


End UnbalancedFaults.

Lemma Cdiv_C1_parts (z w : complex) :
  Cdiv C1 z = Some w ->
  z <> C0 /\
  real w = real z / (real z * real z + imag z * imag z) /\
  imag w = - imag z / (real z * real z + imag z * imag z) /\
  0 < real z * real z + imag z * imag z.
Proof.
  unfold Cdiv. destruct (decide (z = C0)) as [|Hz]; [discriminate|].
  intros [= <-]. split; [exact Hz|]. simpl.
  assert (Hd : 0 < real z * real z + imag z * imag z).
  { destruct z as [a b]; simpl.
    destruct (Req_EM_T a 0) as [->|Ha]; [|nra].
    destruct (Req_EM_T b 0) as [->|Hb]; [exfalso; apply Hz; reflexivity|nra]. }
  split; [field; lra|]. split; [field; lra|exact Hd].
Qed.

Lemma Cdiv_C1_Some (z : complex) : z <> C0 -> exists w, Cdiv C1 z = Some w.
Proof.
  intros Hz. unfold Cdiv. destruct (decide (z = C0)); [contradiction|].
  eexists; reflexivity.
Qed.

Lemma Cdiv_C1_involutive (z w : complex) :
  Cdiv C1 z = Some w -> Cdiv C1 w = Some z.
Proof.
  intros H. destruct (Cabs_Cdiv_C1 z w H) as [Hz Habs].
  destruct (Cdiv_C1_parts z w H) as (_ & Hre & Him & Hd).
  assert (Hw : w <> C0).
  { intros ->. pose proof (Cabs_pos z Hz) as Hp.
    unfold Cabs at 1 in Habs. simpl in Habs.
    replace (0 * 0 + 0 * 0) with 0 in Habs by ring. rewrite sqrt_0 in Habs.
    pose proof (Rinv_0_lt_compat _ Hp). lra. }
  unfold Cdiv. destruct (decide (w = C0)); [contradiction|].
  f_equal. apply complex_eq; simpl; rewrite Hre, Him; field; lra.
Qed.


Section PeakAndMotors.
Import ShortCircuit.

(** The fields of a returned result that follow from the initial current. *)
Lemma three_phase_fault_derived (params : ShortCircuitParameters)
    (fault : complex) (motor : option complex) (res : ShortCircuitResult) :
  calculate_three_phase_fault params fault motor = Some res ->
  i_k3_breaking res = i_k3_initial res /\
  i_k3_steady_state res = i_k3_initial res /\
  i_dc res = sqrt 2 * i_k3_initial res /\
  i_k1 res = None /\ i_k2 res = None.
Proof.
  intros H. unfold calculate_three_phase_fault in H.
  destruct (total_impedance_pu params fault motor) as [Z|];
    cbn [mbind option_bind] in H; [|discriminate].
  destruct (fdiv _ (base_mva params)) as [z_base|];
    cbn [mbind option_bind] in H; [|discriminate].
  destruct (fdiv _ _) as [i|]; cbn [mbind option_bind] in H; [|discriminate].
  rewrite peak_factor_total in H. cbn [mbind option_bind] in H.
  apply (inj Some) in H. rewrite <- H.
  cbn [i_k3_breaking i_k3_steady_state i_k3_initial i_dc i_k1 i_k2].
  unfold _calculate_decay_factor. repeat split; ring.
Qed.

Lemma peak_factor_bounds (z : complex) (kappa : R) :
  _calculate_peak_factor z = Some kappa ->
  1 <= kappa /\ (0 <= real z * imag z -> kappa <= 2).
Proof.
  rewrite peak_factor_total. intros H. apply (inj Some) in H. subst kappa.
  destruct (decide (imag z = 0)) as [E|N]; [split; intros; lra|].
  pose proof (exp_pos (-3 * (real z / imag z))) as Hpos.
  split; [lra|]. intros Hrx.
  assert (Hratio : 0 <= real z / imag z).
  { replace (real z / imag z) with (real z * imag z * / (imag z * imag z))
      by (field; exact N).
    apply Rmult_le_pos; [exact Hrx|].
    apply Rlt_le, Rinv_0_lt_compat. nra. }
  assert (Hexp : exp (-3 * (real z / imag z)) <= 1).
  { rewrite <- exp_0. destruct (Req_EM_T (real z / imag z) 0) as [->|Hne].
    - right. f_equal. ring.
    - left. apply exp_increasing. lra. }
  lra.
Qed.

(** X3. breaking and steady-state currents equal the initial current, the DC
    component is sqrt 2 times it, and the peak current is kappa times the DC
    component with 1 <= kappa, and kappa <= 2 when R and X have one sign. *)
Theorem derived_fault_currents (params : ShortCircuitParameters)
    (fault : complex) (motor : option complex) (res : ShortCircuitResult) :
  calculate_three_phase_fault params fault motor = Some res ->
  i_k3_breaking res = i_k3_initial res /\
  i_k3_steady_state res = i_k3_initial res /\
  i_dc res = sqrt 2 * i_k3_initial res /\
  exists kappa,
    _calculate_peak_factor (z_total res) = Some kappa /\
    i_k3_peak res = kappa * i_dc res /\
    1 <= kappa /\
    (0 <= real (z_total res) * imag (z_total res) -> kappa <= 2).
Proof.
  intros H.
  destruct (three_phase_fault_derived params fault motor res H)
    as (Hb & Hs & Hdc & _).
  split; [exact Hb|]. split; [exact Hs|]. split; [exact Hdc|].
  destruct (three_phase_fault_returned params fault motor res H)
    as (Z & _ & _ & _ & Hzt & _ & Hp & _).
  cbv zeta in Hzt, Hp. rewrite <- Hzt in Hp.
  eexists. split; [apply peak_factor_total|].
  split; [rewrite Hp, Hdc; ring|].
  apply peak_factor_bounds. apply peak_factor_total.
Qed.

Lemma motor_admittances_zero_power (motors : list Motor) (base_mva : R)
    (y_total : complex) :
  (exists m, m ∈ motors /\ default 0 (power_kw m) = 0) ->
  motor_admittances motors base_mva y_total = None.
Proof.
  revert y_total. induction motors as [|motor rest IH]; intros y_total (m & Hin & Hm).
  - inversion Hin.
  - cbn [motor_admittances]. rewrite (fdiv_Some 1.0 5.0) by (intros E; lra).
    cbn [mbind option_bind].
    destruct (Req_EM_T (default 0 (power_kw motor)) 0) as [E|N].
    + rewrite E. unfold fdiv at 1.
      destruct (decide (0 / 1000.0 / 0.85 = 0)) as [_|N]; [reflexivity|].
      exfalso. apply N. lra.
    + apply elem_of_cons in Hin. destruct Hin as [->|Hin]; [contradiction|].
      destruct (fdiv base_mva _) as [ratio|]; cbn [mbind option_bind]; [|reflexivity].
      destruct (Cdiv C1 _) as [y|]; cbn [mbind option_bind]; [|reflexivity].
      apply IH. eauto.
Qed.

(** X4. no motors give no contribution; a motor of zero or missing rated
    power makes the computation divide by zero; one motor of rated power
    [kw] contributes the impedance 0.01 + j 0.2 * base / (kw / 1000 / 0.85). *)
Theorem motor_contribution_cases :
  (forall base_mva, calculate_motor_contribution [] base_mva = Some None) /\
  (forall motors base_mva,
      (exists m, m ∈ motors /\ default 0 (power_kw m) = 0) ->
      calculate_motor_contribution motors base_mva = None) /\
  (forall (kw : R) (voltage : option R) (base_mva : R),
      kw <> 0 ->
      let z := Complex 0.01 (1.0 / 5.0 * (base_mva / (kw / 1000.0 / 0.85))) in
      Cabs z < 1e10 ->
      calculate_motor_contribution [mkMotor (Some kw) voltage] base_mva
      = Some (Some z)).
Proof.
  split; [reflexivity|]. split.
  - intros motors base_mva Hex. destruct motors as [|m rest].
    + destruct Hex as (m & Hin & _). inversion Hin.
    + unfold calculate_motor_contribution.
      rewrite motor_admittances_zero_power by exact Hex. reflexivity.
  - intros kw voltage base_mva Hkw z Hz.
    unfold calculate_motor_contribution, motor_admittances. cbn [power_kw].
    change (default 0 (Some kw)) with kw.
    rewrite (fdiv_Some 1.0 5.0) by (intros E; lra). cbn [mbind option_bind].
    rewrite fdiv_Some by (intros E; apply Hkw; lra). cbn [mbind option_bind].
    fold z.
    assert (Hnz : z <> C0) by (unfold z; intros E; inversion E; lra).
    destruct (Cdiv_C1_Some z Hnz) as [y Hy]. rewrite Hy. cbn [mbind option_bind].
    assert (E : Cadd C0 y = y) by (apply complex_eq; simpl; ring). rewrite E.
    destruct (Cabs_Cdiv_C1 z y Hy) as [_ Habs].
    pose proof (Cabs_pos z Hnz) as Hpos.
    destruct (decide (Cabs y > 1e-10)) as [_|N].
    + rewrite (Cdiv_C1_involutive z y Hy). reflexivity.
    + exfalso. apply N. rewrite Habs.
      apply Rlt_gt. replace 1e-10 with (/ 1e10) by lra.
      apply Rinv_lt_contravar; [nra|exact Hz].
Qed.



End PeakAndMotors.

Lemma sqrt_lt_bound (x y : R) : 0 < y -> x < y * y -> sqrt x < y.
Proof.
  intros Hy Hx. destruct (Rle_lt_dec x 0) as [Hle|Hlt].
  - rewrite (sqrt_neg_0 x Hle). exact Hy.
  - rewrite <- (sqrt_square y) by lra. apply sqrt_lt_1_alt. lra.
Qed.

Lemma example_fault_returns :
  exists res,
    ShortCircuit.calculate_three_phase_fault example_params example_z_cable_pu None
    = Some res.
Proof.
  destruct (three_phase_fault_result example_params example_z_cable_pu None
              (Complex (0.20 + 0.0005) (2.0 + 0.0003)))
    as (res & _ & H & _); [simpl; lra|simpl; lra|reflexivity| |eauto].
  intros E. inversion E. lra.
Qed.

Lemma line_to_line_is_fraction_of_three_phase_witness :
  exists res i_k2,
    ShortCircuit.calculate_three_phase_fault example_params example_z_cable_pu None
      = Some res /\
    ShortCircuit.calculate_line_to_line_fault example_params example_z_cable_pu
      = Some i_k2 /\
    i_k2 = sqrt 3 / 2 * ShortCircuit.i_k3_initial res.
Proof.
  destruct example_fault_returns as [res H].
  destruct (line_to_line_is_fraction_of_three_phase example_params
              example_z_cable_pu res H) as (i_k2 & H1 & H2).
  exists res, i_k2. auto.
Defined.


Lemma derived_fault_currents_witness :
  exists res kappa,
    ShortCircuit.calculate_three_phase_fault example_params example_z_cable_pu None
      = Some res /\
    ShortCircuit.i_k3_peak res = kappa * ShortCircuit.i_dc res /\ 1 <= kappa.
Proof.
  destruct example_fault_returns as [res H].
  destruct (derived_fault_currents example_params example_z_cable_pu None res H)
    as (_ & _ & _ & kappa & _ & Hp & Hk & _).
  exists res, kappa. auto.
Defined.

Lemma motor_contribution_cases_witness :
  ShortCircuit.calculate_motor_contribution
    [ShortCircuit.mkMotor (Some 75) (Some 0.4)] 100
  = Some (Some (Complex 0.01 (1.0 / 5.0 * (100 / (75 / 1000.0 / 0.85))))).
Proof.
  apply (proj2 (proj2 motor_contribution_cases) 75 (Some 0.4) 100).
  - lra.
  - unfold Cabs. cbn [real imag]. apply sqrt_lt_bound; lra.
Defined.


(** ** Per-unit conversions and the base registry *)

Section PerUnitConversions.
Import PerUnit.




Lemma lookup_base_None (k : R) (d : list (R * PerUnitBase)) :
  lookup_base k d = None <-> k ∉ d.*1.
Proof.
  induction d as [|[k' b] d IH]; simpl.
  - split; [intros _; apply not_elem_of_nil|reflexivity].
  - rewrite not_elem_of_cons. destruct (decide (k' = k)) as [->|Hne].
    + split; [discriminate|intros [N _]; contradiction].
    + rewrite IH. split; [intros H; split; [congruence|exact H]|intros [_ H]; exact H].
Qed.

(** X7. registering the voltage levels of a network one after the other
    keeps one base per distinct level: the keys are exactly the levels seen,
    none twice, each with the base of that voltage and of the system's power. *)
Theorem voltage_levels_registered_once (S : R) (levels : list R) :
  let pu_system :=
    foldl (fun s v => (add_voltage_level s v).2) (__init__ S) levels in
  base_mva pu_system = S /\
  NoDup (voltage_bases pu_system).*1 /\
  (forall v, v ∈ (voltage_bases pu_system).*1 <-> v ∈ levels) /\
  (forall k b, (k, b) ∈ voltage_bases pu_system -> b = mkPerUnitBase k S) /\
  (forall v, v ∈ levels ->
     (get_base pu_system v) = (mkPerUnitBase v S, pu_system)).
Proof.
  cbv zeta.
  assert (Hmain : base_mva (foldl (fun s v => (add_voltage_level s v).2) (__init__ S) levels) = S /\
    NoDup (voltage_bases (foldl (fun s v => (add_voltage_level s v).2) (__init__ S) levels)).*1 /\
    (forall v, v ∈ (voltage_bases (foldl (fun s v => (add_voltage_level s v).2) (__init__ S) levels)).*1 <-> v ∈ levels) /\
    (forall k b, (k, b) ∈ voltage_bases (foldl (fun s v => (add_voltage_level s v).2) (__init__ S) levels) -> b = mkPerUnitBase k S)).
  { induction levels as [|v levels IH] using rev_ind.
    - simpl. split; [reflexivity|]. split; [constructor|].
      split; [intros v; split; intros H; inversion H|intros k b H; inversion H].
    - rewrite foldl_app. simpl.
      set (sys := foldl (fun s v => (add_voltage_level s v).2) (__init__ S) levels) in *.
      destruct IH as (HS & Hnd & Hkeys & Hbases).
      unfold add_voltage_level.
      destruct (lookup_base v (voltage_bases sys)) as [b|] eqn:E; cbn [snd].
      + assert (Hv : v ∈ (voltage_bases sys).*1).
        { destruct (decide (v ∈ (voltage_bases sys).*1)) as [H|H]; [exact H|].
          apply lookup_base_None in H. congruence. }
        split; [exact HS|]. split; [exact Hnd|]. split; [|exact Hbases].
        intros w. rewrite Hkeys, elem_of_app, list_elem_of_singleton.
        split; [intros H; left; exact H|intros [H| ->]; [exact H|apply Hkeys; exact Hv]].
      + apply lookup_base_None in E. cbn [base_mva voltage_bases].
        split; [exact HS|]. rewrite fmap_app. simpl.
        split.
        { apply NoDup_app. split; [exact Hnd|]. split; [|apply NoDup_singleton].
          intros w Hw Hw'. apply list_elem_of_singleton in Hw'. subst w. contradiction. }
        split.
        { intros w. rewrite !elem_of_app, !list_elem_of_singleton, Hkeys. reflexivity. }
        intros k b Hin. apply elem_of_app in Hin. destruct Hin as [Hin|Hin].
        * apply Hbases. exact Hin.
        * apply list_elem_of_singleton in Hin. injection Hin as -> ->. rewrite HS. reflexivity. }
  destruct Hmain as (HS & Hnd & Hkeys & Hbases).
  split; [exact HS|]. split; [exact Hnd|]. split; [exact Hkeys|]. split; [exact Hbases|].
  intros v Hv. apply Hkeys in Hv.
  set (sys := foldl (fun s v => (add_voltage_level s v).2) (__init__ S) levels) in *.
  unfold get_base.
  destruct (lookup_base v (voltage_bases sys)) as [b|] eqn:E.
  - f_equal. apply Hbases.
    clear -E. induction (voltage_bases sys) as [|[k' b'] d IH]; simpl in E; [discriminate|].
    destruct (decide (k' = v)) as [->|Hne].
    + injection E as ->. left.
    + right. apply IH. exact E.
  - apply lookup_base_None in E. contradiction.
Qed.

(** X8. a cable's per-unit impedance is its impedance in ohms times
    [S / (V^2 * 1000)]: zero for a cable of length zero and proportional to
    the length; a zero voltage or base power raises [ZeroDivisionError]. *)
Theorem cable_impedance_scales_with_length (r x len V S : R) :
  (V <> 0 -> S <> 0 ->
   exists z,
     convert_cable_impedance_to_pu r x len V S = Some z /\
     z = Complex (r * len * S / (V ^ 2 * 1000)) (x * len * S / (V ^ 2 * 1000)) /\
     (len = 0 -> z = C0) /\
     forall k, convert_cable_impedance_to_pu r x (k * len) V S
               = Some (Cmul_real z k)) /\
  (V = 0 \/ S = 0 -> convert_cable_impedance_to_pu r x len V S = None).
Proof.
  assert (Hform : forall l, V <> 0 -> S <> 0 ->
    convert_cable_impedance_to_pu r x l V S =
    Some (Complex (r * l * S / (V ^ 2 * 1000)) (x * l * S / (V ^ 2 * 1000)))).
  { intros l HV HS. unfold convert_cable_impedance_to_pu, impedance_to_pu, get_base,
      add_voltage_level, __init__. cbn [voltage_bases lookup_base base_mva fst snd].
    unfold impedance_ohms. cbn [voltage_kv power_mva].
    rewrite fdiv_Some by exact HS. cbn [mbind option_bind].
    assert (Hz : V ^ 2 * 1000 / S <> 0).
    { intros E. unfold Rdiv in E. apply Rmult_integral in E. destruct E as [E|E].
      - apply HV. nra.
      - apply Rinv_neq_0_compat in HS. contradiction. }
    rewrite Cdiv_real_Some by exact Hz. f_equal.
    apply complex_eq; simpl; field; repeat split; assumption. }
  split.
  - intros HV HS. eexists. split; [apply Hform; assumption|].
    split; [reflexivity|]. split.
    + intros ->. apply complex_eq; simpl; field; repeat split; assumption.
    + intros k. rewrite Hform by assumption. f_equal. rewrite Cmul_real_eq.
      apply complex_eq; simpl; field; repeat split; assumption.
  - intros Hzero.
    unfold convert_cable_impedance_to_pu, impedance_to_pu, get_base,
      add_voltage_level, __init__. cbn [voltage_bases lookup_base base_mva fst snd].
    unfold impedance_ohms. cbn [voltage_kv power_mva].
    destruct (fdiv (V ^ 2 * 1000) S) as [zb|] eqn:E; [|reflexivity].
    apply fdiv_inv in E. destruct E as [HS ->]. cbn [mbind option_bind].
    destruct Hzero as [-> | ->]; [|contradiction].
    destruct (Cdiv_real _ _) as [q|] eqn:Eq; [|reflexivity].
    apply Cdiv_real_inv in Eq. destruct Eq as [Hn _]. exfalso; apply Hn. field. exact HS.
Qed.

Lemma cable_impedance_scales_with_length_witness :
  exists z,
    convert_cable_impedance_to_pu 0.161 0.086 0.1 0.4 100 = Some z /\
    z = Complex (0.161 * 0.1 * 100 / (0.4 ^ 2 * 1000))
                (0.086 * 0.1 * 100 / (0.4 ^ 2 * 1000)) /\
    (0.1 = 0 -> z = C0) /\
    forall k, convert_cable_impedance_to_pu 0.161 0.086 (k * 0.1) 0.4 100
              = Some (Cmul_real z k).
Proof.
  apply (proj1 (cable_impedance_scales_with_length 0.161 0.086 0.1 0.4 100));
    intros E; lra.
Defined.

Lemma sqrt101_pos : 0 < sqrt (1 + 10 ^ 2).
Proof. apply sqrt_lt_R0. simpl. lra. Qed.

(** X9. a transformer's impedance on the system base has magnitude
    [z% / 100 * S_base / S_transformer] and an X/R ratio of ten, the same on
    both sides; a transformer of rating zero raises [ZeroDivisionError]. *)
Theorem transformer_impedance_magnitude (z_percent St Vp Vs S : R) :
  (St <> 0 ->
   exists z_primary z_secondary,
     convert_transformer_impedance_to_pu z_percent St Vp Vs S
       = Some (z_primary, z_secondary) /\
     z_primary = z_secondary /\
     imag z_primary = 10 * real z_primary /\
     Cabs z_primary = Rabs (z_percent / 100 * (S / St))) /\
  (St = 0 -> convert_transformer_impedance_to_pu z_percent St Vp Vs S = None).
Proof.
  pose proof sqrt101_pos as Hpos.
  assert (Hsq : sqrt (1 + 10 ^ 2) * sqrt (1 + 10 ^ 2) = 101).
  { rewrite sqrt_sqrt; simpl; lra. }
  split.
  - intros HSt. unfold convert_transformer_impedance_to_pu.
    rewrite (fdiv_Some S St) by exact HSt. cbn [mbind option_bind].
    rewrite !fdiv_Some by lra. cbn [mbind option_bind].
    do 2 eexists. split; [reflexivity|]. split; [reflexivity|]. split.
    + cbn [real imag]. field. lra.
    + unfold Cabs. cbn [real imag].
      set (Z := z_percent / 100.0 * (S / St)).
      replace (z_percent / 100 * (S / St)) with Z by (unfold Z; lra).
      set (q := sqrt (1 + 10 ^ 2)) in *.
      replace (Z / q * (Z / q) + Z * (10 / q) * (Z * (10 / q)))
        with (Z * Z * (101 / (q * q))) by (field; lra).
      rewrite Hsq. replace (Z * Z * (101 / 101)) with (Z²) by (unfold Rsqr; field).
      apply sqrt_Rsqr_abs.
  - intros ->. unfold convert_transformer_impedance_to_pu.
    destruct (fdiv S 0) as [q|] eqn:E; [|reflexivity].
    apply fdiv_inv in E. destruct E as [N _]. contradiction.
Qed.

Lemma transformer_impedance_magnitude_witness :
  exists z_primary z_secondary,
    convert_transformer_impedance_to_pu 6 1 11 0.4 100
      = Some (z_primary, z_secondary) /\
    z_primary = z_secondary /\
    imag z_primary = 10 * real z_primary /\
    Cabs z_primary = Rabs (6 / 100 * (100 / 1)).
Proof.
  apply (proj1 (transformer_impedance_magnitude 6 1 11 0.4 100)). lra.
Defined.

(** X10. a motor's impedance on the system base is [0.01 + j x''] times
    [S_base * 1000 * pf * eff / kW], so it falls in inverse proportion to the
    rated power; a rated power of zero, or a zero power factor or efficiency,
    raises [ZeroDivisionError]. *)
Theorem motor_impedance_inverse_in_power (kw V pf eff xd S : R) :
  (kw <> 0 -> pf * eff <> 0 ->
   exists z,
     convert_motor_impedance_to_pu kw V pf eff xd S = Some z /\
     z = Cmul_real (Complex 0.01 xd) (S * 1000 * (pf * eff) / kw) /\
     forall k, k <> 0 ->
       convert_motor_impedance_to_pu (k * kw) V pf eff xd S = Cdiv_real z k) /\
  (kw = 0 \/ pf * eff = 0 ->
   convert_motor_impedance_to_pu kw V pf eff xd S = None).
Proof.
  assert (Hform : forall w, w <> 0 -> pf * eff <> 0 ->
    convert_motor_impedance_to_pu w V pf eff xd S =
    Some (Cmul_real (Complex 0.01 xd) (S * 1000 * (pf * eff) / w))).
  { intros w Hw Hpe. unfold convert_motor_impedance_to_pu.
    rewrite (fdiv_Some _ (pf * eff)) by exact Hpe. cbn [mbind option_bind].
    assert (Hm : w / 1000.0 / (pf * eff) <> 0).
    { intros E. unfold Rdiv at 1 in E. apply Rmult_integral in E. destruct E as [E|E].
      - apply Hw. lra.
      - apply Rinv_neq_0_compat in Hpe. contradiction. }
    rewrite fdiv_Some by exact Hm. cbn [mbind option_bind].
    f_equal. rewrite !Cmul_real_eq.
    assert (Hr : S / (w / 1000.0 / (pf * eff)) = S * 1000 * (pf * eff) / w).
    { replace 1000.0 with 1000 by lra. field. repeat split; try assumption.
      all: intros E; apply Hpe; nra. }
    rewrite Hr. reflexivity. }
  split.
  - intros Hkw Hpe. eexists. split; [apply Hform; assumption|].
    split; [reflexivity|].
    intros k Hk. rewrite Hform; [|intros E; nra|exact Hpe].
    rewrite Cdiv_real_Some by exact Hk. f_equal.
    rewrite !Cmul_real_eq. apply complex_eq; cbn [real imag]; field;
      repeat split; assumption.
  - intros Hzero. unfold convert_motor_impedance_to_pu.
    destruct (fdiv (kw / 1000.0) (pf * eff)) as [m|] eqn:E; [|reflexivity].
    apply fdiv_inv in E. destruct E as [Hpe ->]. cbn [mbind option_bind].
    destruct Hzero as [-> | Hz]; [|contradiction].
    destruct (fdiv S _) as [q|] eqn:Eq; [|reflexivity].
    apply fdiv_inv in Eq. destruct Eq as [Hn _]. exfalso; apply Hn.
    unfold Rdiv. ring.
Qed.

Lemma motor_impedance_inverse_in_power_witness :
  exists z,
    convert_motor_impedance_to_pu 75 0.4 0.85 0.95 0.15 100 = Some z /\
    z = Cmul_real (Complex 0.01 0.15) (100 * 1000 * (0.85 * 0.95) / 75) /\
    forall k, k <> 0 ->
      convert_motor_impedance_to_pu (k * 75) 0.4 0.85 0.95 0.15 100 = Cdiv_real z k.
Proof.
  apply (proj1 (motor_impedance_inverse_in_power 75 0.4 0.85 0.95 0.15 100));
    intros E; lra.
Defined.

End PerUnitConversions.

Lemma voltage_levels_registered_once_witness :
  PerUnit.get_base (foldl (fun s v => (PerUnit.add_voltage_level s v).2)
              (PerUnit.__init__ 100) [11; 0.4; 0.4]) 0.4
  = (PerUnit.mkPerUnitBase 0.4 100,
     foldl (fun s v => (PerUnit.add_voltage_level s v).2)
       (PerUnit.__init__ 100) [11; 0.4; 0.4]).
Proof.
  apply (proj2 (proj2 (proj2 (proj2
           (voltage_levels_registered_once 100 [11; 0.4; 0.4])))) 0.4).
  right; left.
Defined.

(** ** Entries of the admittance matrix *)

Section AdmittanceEntries.
Import PerUnit.

Lemma update_at_entry {A : Type} (f : A -> A) (i j : nat) (M M' : list (list A)) :
  update_at f i j M = Some M' ->
  forall a b,
    matrix_entry M' a b =
    (fun x => if decide (a = i /\ b = j) then f x else x) <$> matrix_entry M a b.
Proof.
  unfold update_at. intros H a b.
  destruct (M !! i) as [row|] eqn:Ei; cbn [mbind option_bind] in H; [|discriminate].
  destruct (row !! j) as [x|] eqn:Ej; cbn [mbind option_bind] in H; [|discriminate].
  apply (inj Some) in H. subst M'. unfold matrix_entry.
  destruct (decide (a = i)) as [->|Hai].
  - rewrite list_lookup_insert_eq by (eapply lookup_lt_Some; exact Ei).
    rewrite Ei. cbn [mbind option_bind].
    destruct (decide (b = j)) as [->|Hbj].
    + rewrite list_lookup_insert_eq by (eapply lookup_lt_Some; exact Ej).
      rewrite Ej. cbn. destruct (decide (i = i /\ j = j)) as [_|N]; [reflexivity|].
      exfalso; apply N; split; reflexivity.
    + rewrite list_lookup_insert_ne by congruence.
      destruct (row !! b) as [x'|]; cbn; [|reflexivity].
      destruct (decide (i = i /\ b = j)) as [[_ N]|_]; [contradiction|reflexivity].
  - rewrite list_lookup_insert_ne by congruence.
    destruct (M !! a) as [row'|]; cbn [mbind option_bind]; [|reflexivity].
    destruct (row' !! b) as [x'|]; cbn; [|reflexivity].
    destruct (decide (a = i /\ b = j)) as [[N _]|_]; [contradiction|reflexivity].
Qed.

Lemma branch_updates_entry (i j : nat) (y : complex)
    (Y Y1 Y2 Y3 Y4 : list (list complex)) :
  update_at (fun x => Csub x y) i j Y = Some Y1 ->
  update_at (fun x => Csub x y) j i Y1 = Some Y2 ->
  update_at (fun x => Cadd x y) i i Y2 = Some Y3 ->
  update_at (fun x => Cadd x y) j j Y3 = Some Y4 ->
  forall a b,
    matrix_entry Y4 a b =
    (fun x => Cadd x (branch_stamp i j y a b)) <$> matrix_entry Y a b.
Proof.
  intros H1 H2 H3 H4 a b.
  rewrite (update_at_entry _ _ _ _ _ H4), (update_at_entry _ _ _ _ _ H3),
    (update_at_entry _ _ _ _ _ H2), (update_at_entry _ _ _ _ _ H1).
  destruct (matrix_entry Y a b) as [x|]; cbn [fmap option_fmap option_map]; [|reflexivity].
  f_equal. unfold branch_stamp.
  repeat case_decide; apply complex_eq; cbn [real imag Cadd Csub C0]; ring.
Qed.

Lemma branch_stamp_symmetric (i j : nat) (y : complex) (a b : nat) :
  branch_stamp i j y a b = branch_stamp i j y b a.
Proof.
  unfold branch_stamp.
  repeat case_decide; try solve [exfalso; lia];
    apply complex_eq; cbn [real imag Cadd Csub C0]; ring.
Qed.

Lemma branch_stamp_off_diagonal (i j : nat) (y : complex) (a b : nat) :
  a <> b ->
  branch_stamp i j y a b =
  Csub C0 (if decide ((i = a /\ j = b) \/ (i = b /\ j = a)) then y else C0).
Proof.
  intros Hab. unfold branch_stamp.
  repeat case_decide; try solve [exfalso; lia];
    apply complex_eq; cbn [real imag Cadd Csub C0]; ring.
Qed.

Lemma branch_stamp_diagonal (i j : nat) (y : complex) (a : nat) :
  branch_stamp i j y a a =
  if decide ((i = a /\ j <> a) \/ (i <> a /\ j = a)) then y else C0.
Proof.
  unfold branch_stamp.
  repeat case_decide; try solve [exfalso; lia];
    apply complex_eq; cbn [real imag Cadd Csub C0]; ring.
Qed.

Ltac branch_entries Hent :=
  match goal with
  | H1 : update_at _ _ _ ?Y = Some ?Y1,
    H2 : update_at _ _ _ ?Y1 = Some ?Y2,
    H3 : update_at _ _ _ ?Y2 = Some ?Y3,
    H4 : update_at _ _ _ ?Y3 = Some _ |- _ =>
      pose proof (branch_updates_entry _ _ _ _ _ _ _ _ H1 H2 H3 H4) as Hent
  end.

Ltac fill_step Hfill :=
  repeat match type of Hfill with
  | (?o ≫= _) = Some _ =>
      destruct o eqn:?; cbn [mbind option_bind] in Hfill; [|discriminate]
  end.

Lemma fill_admittance_symmetric (node_index : gmap string nat)
    (impedances : list ((string * string) * complex))
    (Y Y' : list (list complex)) :
  (forall a b, matrix_entry Y a b = matrix_entry Y b a) ->
  fill_admittance node_index impedances Y = Some Y' ->
  forall a b, matrix_entry Y' a b = matrix_entry Y' b a.
Proof.
  revert Y. induction impedances as [|[[from_node to_node] z] rest IH];
    intros Y HY Hfill; simpl in Hfill.
  - apply (inj Some) in Hfill. subst Y'. exact HY.
  - destruct (decide (z = C0)); [exact (IH Y HY Hfill)|].
    fill_step Hfill.
    branch_entries Hent.
    eapply IH; [|exact Hfill].
    intros a b. rewrite (Hent a b), (Hent b a), HY, branch_stamp_symmetric.
    reflexivity.
Qed.

Lemma fill_admittance_entry (node_index : gmap string nat)
    (impedances : list ((string * string) * complex))
    (Y Y' : list (list complex)) :
  fill_admittance node_index impedances Y = Some Y' ->
  forall a b,
    matrix_entry Y' a b =
    (fun x => Cadd x
       (if decide (a = b) then admittance_at node_index impedances a
        else Csub C0 (admittance_between node_index impedances a b)))
    <$> matrix_entry Y a b.
Proof.
  revert Y. induction impedances as [|[[from_node to_node] z] rest IH];
    intros Y Hfill a b; simpl in Hfill.
  - apply (inj Some) in Hfill. subst Y'. cbn [admittance_at admittance_between].
    destruct (matrix_entry Y a b) as [x|]; cbn; [|reflexivity].
    f_equal. destruct (decide (a = b)); apply complex_eq; cbn; ring.
  - cbn [admittance_at admittance_between].
    destruct (decide (z = C0)) as [->|Hz].
    + rewrite (IH Y Hfill a b). unfold Cdiv.
      destruct (decide (C0 = C0)) as [_|N]; [|contradiction].
      destruct (matrix_entry Y a b) as [x|]; cbn [fmap option_fmap option_map]; [|reflexivity].
      f_equal. destruct (decide (a = b)); apply complex_eq; cbn [real imag Cadd Csub C0]; ring.
    + fill_step Hfill.
      branch_entries Hent.
      rewrite (IH _ Hfill a b), (Hent a b).
      destruct (matrix_entry Y a b) as [x|]; cbn [fmap option_fmap option_map]; [|reflexivity].
      f_equal. destruct (decide (a = b)) as [->|Hab].
      * rewrite branch_stamp_diagonal.
        apply complex_eq; cbn [real imag Cadd Csub C0]; ring.
      * rewrite branch_stamp_off_diagonal by exact Hab.
        apply complex_eq; cbn [real imag Cadd Csub C0]; ring.
Qed.

Lemma matrix_entry_zeros (n a b : nat) :
  (a < n)%nat -> (b < n)%nat ->
  matrix_entry (replicate n (replicate n C0)) a b = Some C0.
Proof.
  intros Ha Hb. unfold matrix_entry.
  rewrite lookup_replicate_2 by exact Ha. cbn [mbind option_bind].
  apply lookup_replicate_2. exact Hb.
Qed.

(** X11. the admittance matrix is symmetric. *)
Theorem admittance_matrix_is_symmetric (nodes : list string)
    (impedances : list ((string * string) * complex)) (Y : list (list complex)) :
  build_admittance_matrix nodes impedances = Some Y ->
  forall a b, matrix_entry Y a b = matrix_entry Y b a.
Proof.
  unfold build_admittance_matrix. intros HY.
  eapply fill_admittance_symmetric; [|exact HY].
  intros a b. unfold matrix_entry.
  destruct (decide (a < length nodes)%nat) as [Ha|Ha];
    destruct (decide (b < length nodes)%nat) as [Hb|Hb].
  - rewrite !lookup_replicate_2 by assumption. cbn [mbind option_bind].
    rewrite !lookup_replicate_2 by assumption. reflexivity.
  - rewrite (lookup_replicate_2 _ _ a) by assumption. cbn [mbind option_bind].
    rewrite (lookup_ge_None_2 (replicate _ C0) b) by (rewrite length_replicate; lia).
    rewrite (lookup_ge_None_2 (replicate _ (replicate _ C0)) b)
      by (rewrite length_replicate; lia).
    reflexivity.
  - rewrite (lookup_replicate_2 _ _ b) by assumption. cbn [mbind option_bind].
    rewrite (lookup_ge_None_2 (replicate _ C0) a) by (rewrite length_replicate; lia).
    rewrite (lookup_ge_None_2 (replicate _ (replicate _ C0)) a)
      by (rewrite length_replicate; lia).
    reflexivity.
  - rewrite (lookup_ge_None_2 (replicate _ (replicate _ C0)) a)
      by (rewrite length_replicate; lia).
    rewrite (lookup_ge_None_2 (replicate _ (replicate _ C0)) b)
      by (rewrite length_replicate; lia).
    reflexivity.
Qed.

(** X12. off the diagonal an entry is minus the sum of the admittances of
    the branches joining the two nodes, in either direction; on the diagonal
    it is the sum of the admittances of the branches with exactly one end at
    the node, so a branch from a node to itself changes nothing. *)
Theorem admittance_matrix_entries (nodes : list string)
    (impedances : list ((string * string) * complex)) (Y : list (list complex))
    (a b : nat) :
  build_admittance_matrix nodes impedances = Some Y ->
  (a < length nodes)%nat -> (b < length nodes)%nat ->
  (a <> b ->
   matrix_entry Y a b =
   Some (Csub C0 (admittance_between (node_index_of nodes) impedances a b))) /\
  matrix_entry Y a a = Some (admittance_at (node_index_of nodes) impedances a).
Proof.
  unfold build_admittance_matrix. intros HY Ha Hb.
  pose proof (fill_admittance_entry _ _ _ _ HY) as He. split.
  - intros Hab. rewrite (He a b), matrix_entry_zeros by assumption.
    cbn [fmap option_fmap option_map]. f_equal.
    destruct (decide (a = b)); [contradiction|].
    apply complex_eq; cbn [real imag Cadd Csub C0]; ring.
  - rewrite (He a a), matrix_entry_zeros by assumption.
    cbn [fmap option_fmap option_map]. f_equal.
    destruct (decide (a = a)); [|contradiction].
    apply complex_eq; cbn [real imag Cadd Csub C0]; ring.
Qed.

End AdmittanceEntries.

Lemma example_matrix_built :
  is_Some (PerUnit.build_admittance_matrix example_nodes example_impedances).
Proof.
  unfold PerUnit.build_admittance_matrix.
  apply (fill_admittance_is_Some (length example_nodes));
    [apply balanced_zeros|apply node_index_of_lt|].
  intros from_node to_node z Hin _.
  unfold example_impedances, example_nodes in *.
  apply elem_of_cons in Hin. destruct Hin as [[= -> -> ->]|Hin].
  { split; apply node_index_of_is_Some; [left|right; left]. }
  apply list_elem_of_singleton in Hin. injection Hin as -> -> ->.
  split; apply node_index_of_is_Some; [right; left|right; right; left].
Qed.

Lemma admittance_matrix_is_symmetric_witness :
  exists Y,
    PerUnit.build_admittance_matrix example_nodes example_impedances = Some Y /\
    forall a b, matrix_entry Y a b = matrix_entry Y b a.
Proof.
  destruct example_matrix_built as [Y HY]. exists Y. split; [exact HY|].
  apply (admittance_matrix_is_symmetric example_nodes example_impedances Y HY).
Defined.

Lemma admittance_matrix_entries_witness :
  exists Y,
    PerUnit.build_admittance_matrix example_nodes example_impedances = Some Y /\
    ((0 <> 1)%nat ->
     matrix_entry Y 0 1 =
     Some (Csub C0 (admittance_between (PerUnit.node_index_of example_nodes)
                      example_impedances 0 1))) /\
    matrix_entry Y 0 0 =
    Some (admittance_at (PerUnit.node_index_of example_nodes) example_impedances 0).
Proof.
  destruct example_matrix_built as [Y HY]. exists Y. split; [exact HY|].
  apply (admittance_matrix_entries example_nodes example_impedances Y 0 1 HY);
    simpl; lia.
Defined.

(** ** Power injections, the Jacobian and the iteration *)

Lemma Cabs_factor (x y : R) :
  x <> 0 -> sqrt (x * x + y * y) = Rabs x * sqrt (1 + (y / x)²).
Proof.
  intros Hx.
  replace (x * x + y * y) with (x² * (1 + (y / x)²)) by (unfold Rsqr; field; exact Hx).
  rewrite sqrt_mult_alt by apply Rle_0_sqr.
  rewrite sqrt_Rsqr_abs. reflexivity.
Qed.

Lemma sqrt_one_plus_sqr_pos (t : R) : 0 < sqrt (1 + t²).
Proof. apply sqrt_lt_R0. pose proof (Rle_0_sqr t). lra. Qed.

(** A complex number is its magnitude at its angle. *)
Lemma polar_form (y : complex) :
  Cabs y * cos (Cangle y) = real y /\ Cabs y * sin (Cangle y) = imag y.
Proof.
  destruct y as [x yi]. unfold Cabs, Cangle. cbn [real imag].
  destruct (decide (0 < x)) as [Hx|Hx].
  - pose proof (sqrt_one_plus_sqr_pos (yi / x)) as Hs.
    rewrite Cabs_factor by lra. rewrite cos_atan, sin_atan, Rabs_pos_eq by lra.
    split; field; lra.
  - destruct (decide (x < 0)) as [Hx'|Hx'].
    + pose proof (sqrt_one_plus_sqr_pos (yi / x)) as Hs.
      rewrite Cabs_factor by lra. rewrite Rabs_left by lra.
      destruct (decide (0 <= yi)).
      * rewrite neg_cos, neg_sin, cos_atan, sin_atan. split; field; lra.
      * rewrite cos_minus, sin_minus, cos_PI, sin_PI, cos_atan, sin_atan.
        split; field; lra.
    + assert (x = 0) as -> by lra.
      replace (0 * 0 + yi * yi) with (yi²) by (unfold Rsqr; ring).
      rewrite sqrt_Rsqr_abs.
      destruct (decide (0 < yi)).
      * rewrite cos_PI2, sin_PI2, Rabs_pos_eq by lra. split; ring.
      * destruct (decide (yi < 0)).
        -- rewrite cos_neg, sin_neg, cos_PI2, sin_PI2, Rabs_left by lra. split; ring.
        -- assert (yi = 0) as -> by lra. rewrite Rabs_R0. split; ring.
Qed.

Section PowerInjections.
Import LoadFlow.
Variable self : NewtonRaphsonLoadFlow.

Ltac bind_cases H :=
  repeat match type of H with
  | (?o ≫= _) = Some _ =>
      let E := fresh "E" in
      destruct o eqn:E; cbn [mbind option_bind] in H; [|discriminate]
  | (let '(_, _) := ?x in _) = Some _ => destruct x
  | (match ?x with (_, _) => _ end) = Some _ => destruct x
  end.

(** The term of one column as a complex number. *)
Lemma power_term_spec (v theta : list R) (i j : nat) (t : R * R) :
  power_term self v theta i j = Some t ->
  Complex t.1 t.2 =
  Cmul (phasor (default 0 (v !! i)) (default 0 (theta !! i)))
    (Cconj (Cmul (default C0 (matrix_entry (y_bus self) i j))
                 (phasor (default 0 (v !! j)) (default 0 (theta !! j))))).
Proof.
  unfold power_term, matrix_entry. intros H.
  destruct (y_bus self !! i) as [row|]; cbn [mbind option_bind] in H |- *; [|discriminate].
  destruct (row !! j) as [y|]; cbn [mbind option_bind] in H; [|discriminate].
  destruct (theta !! i) as [ti|]; cbn [mbind option_bind] in H; [|discriminate].
  destruct (theta !! j) as [tj|]; cbn [mbind option_bind] in H; [|discriminate].
  destruct (v !! i) as [vi|]; cbn [mbind option_bind] in H; [|discriminate].
  destruct (v !! j) as [vj|]; cbn [mbind option_bind] in H; [|discriminate].
  apply (inj Some) in H. subst t. cbn [fst snd]. unfold default, Datatypes.id.
  destruct (polar_form y) as [Hc Hs].
  replace (ti - tj - Cangle y) with ((ti - tj) - Cangle y) by ring.
  rewrite (cos_minus (ti - tj) (Cangle y)), (sin_minus (ti - tj) (Cangle y)),
    (cos_minus ti tj), (sin_minus ti tj).
  unfold phasor, Cmul, Cconj. cbn [real imag].
  apply complex_eq; cbn [real imag].
  all: rewrite <- Hc, <- Hs; ring.
Qed.

Lemma Csum_Cmul_conj (a : complex) (f : nat -> complex) (js : list nat) :
  Csum ((fun j => Cmul a (Cconj (f j))) <$> js) =
  Cmul a (Cconj (Csum (f <$> js))).
Proof.
  induction js as [|j js IH]; cbn [fmap list_fmap Csum foldr].
  - apply complex_eq; cbn [real imag Cmul Cconj C0]; ring.
  - fold (Csum ((fun j => Cmul a (Cconj (f j))) <$> js)).
    fold (Csum (f <$> js)). rewrite IH.
    apply complex_eq; cbn [real imag Cmul Cconj Cadd]; ring.
Qed.

Lemma power_row_spec (v theta : list R) (i : nat) (js : list nat) (acc pq : R * R) :
  power_row self v theta i js acc = Some pq ->
  Complex pq.1 pq.2 =
  Cadd (Complex acc.1 acc.2)
    (Csum ((fun j =>
       Cmul (phasor (default 0 (v !! i)) (default 0 (theta !! i)))
         (Cconj (Cmul (default C0 (matrix_entry (y_bus self) i j))
                      (phasor (default 0 (v !! j)) (default 0 (theta !! j))))))
       <$> js)).
Proof.
  revert acc. induction js as [|j js IH]; intros acc H; simpl in H.
  - apply (inj Some) in H. subst pq. cbn [fmap list_fmap Csum foldr].
    apply complex_eq; cbn [real imag Cadd C0]; ring.
  - bind_cases H. rename E into Et.
    pose proof (power_term_spec _ _ _ _ _ Et) as Ht.
    rewrite (IH _ H). cbn [fmap list_fmap Csum foldr fst snd].
    rewrite <- Ht. unfold Csum. apply complex_eq; cbn [real imag Cadd]; ring.
Qed.

Lemma power_rows_lookup (v theta : list R) (rows : list nat) (l : list (R * R)) :
  power_rows self v theta rows = Some l ->
  forall k i, rows !! k = Some i ->
    exists pq, l !! k = Some pq /\
      power_row self v theta i (seq 0 (n_buses self)) (0, 0) = Some pq.
Proof.
  revert l. induction rows as [|r rows IH]; intros l H k i Hk; [discriminate|].
  simpl in H. bind_cases H. apply (inj Some) in H. subst l.
  destruct k as [|k]; simpl in Hk.
  - apply (inj Some) in Hk. subst r. eexists. split; [reflexivity|assumption].
  - simpl. eapply IH; [reflexivity|exact Hk].
Qed.

Lemma power_row_is_Some (v theta : list R) (row : list complex) (i : nat)
    (js : list nat) (acc : R * R) (n : nat) :
  y_bus self !! i = Some row -> (n <= length row)%nat ->
  (n <= length v)%nat -> (n <= length theta)%nat -> (i < n)%nat ->
  Forall (fun j => (j < n)%nat) js ->
  is_Some (power_row self v theta i js acc).
Proof.
  intros Hrow Hlen Hv Ht Hi Hjs. revert acc.
  induction Hjs as [|j js Hj _ IH]; intros acc; simpl; [eexists; reflexivity|].
  unfold power_term. rewrite Hrow. cbn [mbind option_bind].
  destruct (lookup_lt_is_Some_2 row j) as [y ->]; [lia|].
  destruct (lookup_lt_is_Some_2 theta i) as [ti ->]; [lia|].
  destruct (lookup_lt_is_Some_2 theta j) as [tj ->]; [lia|].
  destruct (lookup_lt_is_Some_2 v i) as [vi ->]; [lia|].
  destruct (lookup_lt_is_Some_2 v j) as [vj ->]; [lia|].
  cbn [mbind option_bind]. apply IH.
Qed.

Lemma power_rows_is_Some (v theta : list R) (rows : list nat) (n : nat) :
  n = n_buses self ->
  (forall i, (i < n)%nat ->
     exists row, y_bus self !! i = Some row /\ (n <= length row)%nat) ->
  (n <= length v)%nat -> (n <= length theta)%nat ->
  Forall (fun i => (i < n)%nat) rows ->
  is_Some (power_rows self v theta rows).
Proof.
  intros Hn HY Hv Ht Hrows.
  induction Hrows as [|i rows Hi _ IH]; simpl; [eexists; reflexivity|].
  destruct (HY i Hi) as (row & Hrow & Hlen).
  destruct (power_row_is_Some v theta row i (seq 0 (n_buses self)) (0, 0) n)
    as [pq ->]; try assumption.
  { apply Forall_forall. intros j Hj. apply elem_of_seq in Hj. lia. }
  cbn [mbind option_bind]. destruct IH as [rest ->]. eexists; reflexivity.
Qed.

Lemma calculate_power_entries (v theta p q : list R) (i : nat) :
  _calculate_power self v theta = Some (p, q) -> (i < n_buses self)%nat ->
  p !! i = Some (real (complex_power (y_bus self) v theta (n_buses self) i)) /\
  q !! i = Some (imag (complex_power (y_bus self) v theta (n_buses self) i)).
Proof.
  intros H Hi. unfold _calculate_power in H. bind_cases H.
  apply (inj Some) in H. injection H as <- <-.
  destruct (power_rows_lookup _ _ _ _ E i i) as (pq & Hpq & Hrow).
  { apply lookup_seq. split; [reflexivity|exact Hi]. }
  apply power_row_spec in Hrow. rewrite Csum_Cmul_conj in Hrow.
  rewrite !list_lookup_fmap, Hpq. cbn [fmap option_fmap option_map].
  unfold complex_power.
  assert (Hz : forall c, Cadd (Complex (0, 0).1 (0, 0).2) c = c).
  { intros c. apply complex_eq; cbn [real imag Cadd fst snd]; ring. }
  rewrite Hz in Hrow. rewrite <- Hrow. split; reflexivity.
Qed.

Lemma calculate_power_returns (v theta : list R) :
  (forall i, (i < n_buses self)%nat ->
     exists row, y_bus self !! i = Some row /\ (n_buses self <= length row)%nat) ->
  (n_buses self <= length v)%nat -> (n_buses self <= length theta)%nat ->
  is_Some (_calculate_power self v theta).
Proof.
  intros HY Hv Ht. unfold _calculate_power.
  destruct (power_rows_is_Some v theta (seq 0 (n_buses self)) (n_buses self))
    as [pqs ->]; try assumption; try reflexivity.
  { apply Forall_forall. intros j Hj. apply elem_of_seq in Hj. lia. }
  eexists; reflexivity.
Qed.

(** X13. the sums of [_calculate_power] are the real and imaginary parts of
    the complex power S_i = V_i conj (sum_j Y_ij V_j) injected at each bus; a
    result is returned whenever the admittance matrix and the two vectors
    cover the [n] buses. *)
Theorem calculated_power_is_complex_power (v theta : list R) :
  (forall p q, _calculate_power self v theta = Some (p, q) ->
     forall i, (i < n_buses self)%nat ->
       p !! i = Some (real (complex_power (y_bus self) v theta (n_buses self) i)) /\
       q !! i = Some (imag (complex_power (y_bus self) v theta (n_buses self) i))) /\
  ((forall i, (i < n_buses self)%nat ->
      exists row, y_bus self !! i = Some row /\ (n_buses self <= length row)%nat) ->
   (n_buses self <= length v)%nat -> (n_buses self <= length theta)%nat ->
   is_Some (_calculate_power self v theta)).
Proof.
  split.
  - intros p q H i Hi. exact (calculate_power_entries v theta p q i H Hi).
  - intros HY Hv Ht. apply calculate_power_returns; assumption.
Qed.

End PowerInjections.

Lemma calculated_power_is_complex_power_witness :
  [- (5 * sin 0); 5 * sin 0] !! 1%nat =
    Some (real (complex_power (LoadFlow.y_bus (example_system example_load_bus))
                  [1; 1] [0; 0]
                  (LoadFlow.n_buses (example_system example_load_bus)) 1)) /\
  [5 - 5 * cos 0; 5 - 5 * cos 0] !! 1%nat =
    Some (imag (complex_power (LoadFlow.y_bus (example_system example_load_bus))
                  [1; 1] [0; 0]
                  (LoadFlow.n_buses (example_system example_load_bus)) 1)).
Proof.
  apply (proj1 (calculated_power_is_complex_power
                  (example_system example_load_bus) [1; 1] [0; 0])
           _ _ (example_power example_load_bus 0) 1%nat).
  unfold LoadFlow.n_buses. simpl. lia.
Defined.

Section JacobianShape.
Import LoadFlow.
Variable self : NewtonRaphsonLoadFlow.

Lemma set_entry_entry (M : list (list R)) (i j : nat) (x : R) (a b : nat) :
  matrix_entry (set_entry M i j x) a b =
  (fun old => if decide (a = i /\ b = j) then x else old) <$> matrix_entry M a b.
Proof.
  unfold set_entry, matrix_entry. rewrite list_lookup_alter.
  destruct (decide (i = a)) as [->|Hia].
  - destruct (M !! a) as [row|]; cbn [fmap option_fmap option_map mbind option_bind];
      [|reflexivity].
    rewrite list_lookup_insert.
    destruct (decide (j = b /\ (j < length row)%nat)) as [[-> Hlt]|Hn].
    + destruct (lookup_lt_is_Some_2 row b Hlt) as [old ->]. cbn.
      destruct (decide (a = a /\ b = b)) as [_|N]; [reflexivity|].
      exfalso; apply N; split; reflexivity.
    + destruct (row !! b) as [old|] eqn:Eb; cbn; [|reflexivity].
      destruct (decide (a = a /\ b = j)) as [[_ ->]|_]; [|reflexivity].
      exfalso. apply Hn. split; [reflexivity|]. eapply lookup_lt_Some; exact Eb.
  - destruct (M !! a) as [row|]; cbn [mbind option_bind]; [|reflexivity].
    destruct (row !! b) as [old|]; cbn; [|reflexivity].
    destruct (decide (a = i /\ b = j)) as [[-> _]|_]; [contradiction|reflexivity].
Qed.

Lemma zeros_entry (s a b : nat) :
  (a < s)%nat -> (b < s)%nat ->
  matrix_entry (replicate s (replicate s 0)) a b = Some 0.
Proof.
  intros Ha Hb. unfold matrix_entry.
  rewrite lookup_replicate_2 by exact Ha. cbn [mbind option_bind].
  apply lookup_replicate_2. exact Hb.
Qed.

(** The matrix after the first [k] passes of the loop of [_build_jacobian]. *)
Lemma jacobian_loop (s k : nat) :
  (k <= s)%nat ->
  let J := foldl
    (fun jacobian i =>
       let jacobian := set_entry jacobian i i 10 in
       if decide (0 < i /\ i < s)%nat then
         let jacobian := set_entry jacobian i (i - 1) (-1) in
         set_entry jacobian (i - 1) i (-1)
       else jacobian)
    (replicate s (replicate s 0)) (seq 0 k) in
  length J = s /\
  forall a b, (a < s)%nat -> (b < s)%nat ->
    matrix_entry J a b =
    Some (if decide (a < k /\ b < k)%nat then tridiagonal_entry a b else 0).
Proof.
  cbv zeta. induction k as [|k IH]; intros Hk.
  - simpl. split; [apply length_replicate|].
    intros a b Ha Hb. rewrite zeros_entry by assumption.
    destruct (decide (a < 0 /\ b < 0)%nat) as [[N _]|_]; [lia|reflexivity].
  - rewrite seq_S, foldl_app. cbn [foldl Nat.add].
    destruct IH as [Hlen Hent]; [lia|].
    set (J := foldl _ _ (seq 0 k)) in *.
    destruct (decide (0 < k /\ k < s)%nat) as [Hpos|Hzero].
    + split; [unfold set_entry; rewrite !length_alter; exact Hlen|].
      intros a b Ha Hb. rewrite !set_entry_entry, (Hent a b Ha Hb).
      cbn [fmap option_fmap option_map]. f_equal. unfold tridiagonal_entry.
      repeat case_decide; try reflexivity; exfalso; lia.
    + split; [unfold set_entry; rewrite !length_alter; exact Hlen|].
      intros a b Ha Hb. rewrite !set_entry_entry, (Hent a b Ha Hb).
      cbn [fmap option_fmap option_map]. f_equal. unfold tridiagonal_entry.
      repeat case_decide; try reflexivity; exfalso; lia.
Qed.

Lemma build_jacobian_cases (v theta : list R) :
  (n_buses self = 0%nat -> _build_jacobian self v theta = None) /\
  (n_buses self <> 0%nat ->
   exists J,
     _build_jacobian self v theta = Some J /\
     length J = (n_buses self - 1 + n_pq self)%nat).
Proof.
  unfold _build_jacobian. split.
  - intros ->. reflexivity.
  - intros Hn. destruct (decide (n_buses self = 0%nat)) as [|_]; [contradiction|].
    destruct (jacobian_loop (n_buses self - 1 + n_pq self)
                (n_buses self - 1 + n_pq self) (le_n _)) as [Hlen _].
    eexists. split; [reflexivity|exact Hlen].
Qed.

(** X14. for a system with at least one bus [_build_jacobian] returns the
    square matrix of size [n - 1 + n_pq] that has 10 on the diagonal, -1 next
    to it and 0 elsewhere; for an empty system it raises. *)
Theorem jacobian_is_tridiagonal (v theta : list R) :
  (n_buses self = 0%nat -> _build_jacobian self v theta = None) /\
  (n_buses self <> 0%nat ->
   exists J,
     _build_jacobian self v theta = Some J /\
     length J = (n_buses self - 1 + n_pq self)%nat /\
     forall a b,
       (a < n_buses self - 1 + n_pq self)%nat ->
       (b < n_buses self - 1 + n_pq self)%nat ->
       matrix_entry J a b = Some (tridiagonal_entry a b)).
Proof.
  unfold _build_jacobian. split.
  - intros ->. reflexivity.
  - intros Hn. destruct (decide (n_buses self = 0%nat)) as [|_]; [contradiction|].
    destruct (jacobian_loop (n_buses self - 1 + n_pq self)
                (n_buses self - 1 + n_pq self) (le_n _)) as [Hlen Hent].
    eexists. split; [reflexivity|].
    split; [exact Hlen|].
    intros a b Ha Hb. etrans; [exact (Hent a b Ha Hb)|].
    destruct (decide (a < _ /\ b < _)%nat) as [_|N]; [reflexivity|].
    exfalso; apply N; split; assumption.
Qed.

Lemma filter_complement_length {A : Type} (P Q : A -> Prop)
    (HP : forall x, Decision (P x)) (HQ : forall x, Decision (Q x)) (l : list A) :
  (forall x, Q x <-> ~ P x) ->
  (length (filter P l) + length (filter Q l) = length l)%nat.
Proof.
  intros HPQ. induction l as [|x l IH]; [reflexivity|].
  rewrite !filter_cons. destruct (decide (P x)) as [p|p], (decide (Q x)) as [q|q];
    simpl; try lia.
  - apply HPQ in q. contradiction.
  - exfalso. apply q, HPQ. exact p.
Qed.

(** X15. the mismatch vector has one entry per bus that is not a slack bus
    and one more per PQ bus, so it has as many entries as the Jacobian has
    rows exactly when the system has one slack bus. *)
Theorem mismatch_vector_fits_jacobian (v theta delta_p delta_q : list R)
    (J : list (list R)) (mismatch : list R) :
  _build_jacobian self v theta = Some J ->
  _build_mismatch_vector self delta_p delta_q = Some mismatch ->
  length J = (n_buses self - 1 + n_pq self)%nat /\
  length mismatch =
    (n_buses self - length (slack_buses self) + n_pq self)%nat /\
  (length mismatch = length J <-> length (slack_buses self) = 1%nat).
Proof.
  intros HJ Hm.
  assert (Hn : n_buses self <> 0%nat).
  { intros E. rewrite (proj1 (build_jacobian_cases v theta) E) in HJ. discriminate. }
  destruct (proj2 (build_jacobian_cases v theta) Hn) as (J' & HJ' & Hlen).
  rewrite HJ in HJ'. apply (inj Some) in HJ'. subst J'.
  unfold _build_mismatch_vector in Hm.
  destruct (mapM _ (filter _ _)) as [mp|] eqn:Ep; cbn [mbind option_bind] in Hm; [|discriminate].
  destruct (mapM _ (pq_buses self)) as [mq|] eqn:Eq; cbn [mbind option_bind] in Hm; [|discriminate].
  apply (inj Some) in Hm. subst mismatch.
  apply length_mapM in Ep, Eq.
  assert (Hv : length (buses_values self) = n_buses self).
  { unfold buses_values, n_buses. apply length_fmap. }
  assert (Hc : (length (slack_buses self) + length mp)%nat = n_buses self).
  { rewrite <- Ep, <- Hv. unfold slack_buses. apply filter_complement_length.
    intros x. reflexivity. }
  fold (n_pq self) in Eq.
  rewrite length_app, <- Eq, Hlen.
  revert Hc Hn. clear.
  generalize (length mp) (length (slack_buses self)) (n_buses self) (n_pq self).
  intros m a n q Hc Hn. split; [reflexivity|]. lia.
Qed.

End JacobianShape.

Lemma jacobian_is_tridiagonal_witness :
  exists J,
    LoadFlow._build_jacobian (example_system example_load_bus) [1; 1] [0; 0] = Some J /\
    length J = (LoadFlow.n_buses (example_system example_load_bus) - 1
                + LoadFlow.n_pq (example_system example_load_bus))%nat /\
    forall a b,
      (a < LoadFlow.n_buses (example_system example_load_bus) - 1
           + LoadFlow.n_pq (example_system example_load_bus))%nat ->
      (b < LoadFlow.n_buses (example_system example_load_bus) - 1
           + LoadFlow.n_pq (example_system example_load_bus))%nat ->
      matrix_entry J a b = Some (tridiagonal_entry a b).
Proof.
  apply (proj2 (jacobian_is_tridiagonal (example_system example_load_bus)
                  [1; 1] [0; 0])).
  intros E. discriminate E.
Defined.

Lemma mismatch_vector_fits_jacobian_witness :
  length [[10; -1]; [-1; 10]] =
    (LoadFlow.n_buses (example_system example_load_bus) - 1
     + LoadFlow.n_pq (example_system example_load_bus))%nat /\
  length [-0.5; -0.2] =
    (LoadFlow.n_buses (example_system example_load_bus)
     - length (LoadFlow.slack_buses (example_system example_load_bus))
     + LoadFlow.n_pq (example_system example_load_bus))%nat /\
  (length [-0.5; -0.2] = length [[10; -1]; [-1; 10]] <->
   length (LoadFlow.slack_buses (example_system example_load_bus)) = 1%nat).
Proof.
  apply (mismatch_vector_fits_jacobian (example_system example_load_bus)
           [1; 1] [0; 0] [0; -0.5] [0; -0.2]); reflexivity.
Defined.

Section SolveInvariants.
Import LoadFlow.
Import LoadFlowResult.
Variable linalg_solve : list (list R) -> list R -> linalg_result.
Variable self : NewtonRaphsonLoadFlow.

Ltac bind_cases H :=
  repeat match type of H with
  | (?o ≫= _) = Some _ =>
      let E := fresh "E" in
      destruct o eqn:E; cbn [mbind option_bind] in H; [|discriminate]
  | (let '(_, _) := ?x in _) = Some _ => destruct x
  | (match ?x with (_, _) => _ end) = Some _ => destruct x
  end.

Lemma foldl_Rmax_ge (x : R) (l : list R) : x <= foldl Rmax x l.
Proof.
  revert x. induction l as [|a l IH]; intros x; simpl; [lra|].
  eapply Rle_trans; [apply (Rmax_l x a)|apply IH].
Qed.

Lemma max_abs_mismatch_nonneg (delta_p delta_q : list R) (m : R) :
  max_abs_mismatch delta_p delta_q = Some m -> 0 <= m.
Proof.
  unfold max_abs_mismatch. intros H. bind_cases H. apply (inj Some) in H. subst m.
  destruct delta_p as [|x l]; [discriminate|]. simpl in E. apply (inj Some) in E.
  eapply Rle_trans; [|apply Rmax_l]. subst r.
  eapply Rle_trans; [apply (Rabs_pos x)|apply foldl_Rmax_ge].
Qed.

Lemma newton_raphson_empty (remaining : nat) (st : loop_state) :
  LoadFlow.buses self = [] -> newton_raphson linalg_solve self (S remaining) st = None.
Proof.
  intros Hb. cbn [newton_raphson].
  destruct (_calculate_power self (ls_v st) (ls_theta st)) as [[p q]|];
    cbn [mbind option_bind]; [|reflexivity].
  unfold buses_values, n_buses. rewrite Hb. reflexivity.
Qed.

Lemma newton_raphson_spec (remaining : nat) (st st' : loop_state) :
  newton_raphson linalg_solve self remaining st = Some st' ->
  (remaining = 0%nat /\ st' = st) \/
  ((ls_iteration st < ls_iteration st')%nat /\
   (ls_iteration st' <= ls_iteration st + remaining)%nat /\
   exists m pq,
     ls_max_mismatch st' = Finite m /\ 0 <= m /\ ls_calc st' = Some pq /\
     (ls_converged st' = true <-> m < tolerance self)).
Proof.
  revert st. induction remaining as [|r IH]; intros st H.
  - left. simpl in H. apply (inj Some) in H. auto.
  - right. cbn [newton_raphson] in H.
    destruct (_calculate_power self (ls_v st) (ls_theta st)) as [[p_calc q_calc]|];
      cbn [mbind option_bind] in H; [|discriminate].
    destruct (power_mismatch _ _ _ _ _ _) as [[delta_p delta_q]|];
      cbn [mbind option_bind] in H; [|discriminate].
    destruct (max_abs_mismatch delta_p delta_q) as [m|] eqn:Em;
      cbn [mbind option_bind] in H; [|discriminate].
    apply max_abs_mismatch_nonneg in Em.
    destruct (decide (m < tolerance self)) as [Hm|Hm].
    + apply (inj Some) in H. subst st'. cbn. split; [lia|]. split; [lia|].
      exists m, (p_calc, q_calc). repeat split; auto.
    + destruct (_build_jacobian self _ _) as [jacobian|];
        cbn [mbind option_bind] in H; [|discriminate].
      destruct (_build_mismatch_vector self _ _) as [mismatch|];
        cbn [mbind option_bind] in H; [|discriminate].
      destruct (linalg_solve jacobian mismatch) as [delta_x| |]; [| |discriminate].
      * destruct (_update_state self _ _ _) as [[v' theta']|];
          cbn [mbind option_bind] in H; [|discriminate].
        destruct (IH _ H) as [[-> ->]|(Hlt & Hle & m' & pq & Hmm & Hpos & Hcalc & Hconv)].
        -- cbn. split; [lia|]. split; [lia|].
           exists m, (p_calc, q_calc). repeat split; auto; try discriminate.
        -- cbn in Hlt, Hle. split; [lia|]. split; [lia|].
           exists m', pq. auto.
      * apply (inj Some) in H. subst st'. cbn. split; [lia|]. split; [lia|].
        exists m, (p_calc, q_calc). repeat split; auto; try discriminate.
Qed.

(** X16. a result of [solve] never counts more iterations than
    [max_iterations]; it is marked converged exactly when its last mismatch
    is below the tolerance; with at least one bus it has run at least one
    pass and its mismatch is a non-negative number, and a solver limited to
    zero iterations fails on its unbound powers. *)
Theorem solve_result_invariants :
  (forall res, solve linalg_solve self = Some res ->
     (iterations res <= max_iterations self)%nat /\
     (converged res = true <->
      exists m, max_mismatch res = Finite m /\ m < tolerance self) /\
     (LoadFlow.buses self <> [] ->
      (1 <= iterations res)%nat /\
      exists m, max_mismatch res = Finite m /\ 0 <= m) /\
     (LoadFlow.buses self = [] ->
      iterations res = 0%nat /\ max_mismatch res = Infinity /\
      max_iterations self = 0%nat)) /\
  (max_iterations self = 0%nat -> LoadFlow.buses self <> [] ->
   solve linalg_solve self = None).
Proof.
  assert (Hmain : forall res, solve linalg_solve self = Some res ->
     (iterations res <= max_iterations self)%nat /\
     (converged res = true <->
      exists m, max_mismatch res = Finite m /\ m < tolerance self) /\
     (LoadFlow.buses self <> [] ->
      (1 <= iterations res)%nat /\
      exists m, max_mismatch res = Finite m /\ 0 <= m) /\
     (LoadFlow.buses self = [] ->
      iterations res = 0%nat /\ max_mismatch res = Infinity /\
      max_iterations self = 0%nat)).
  { intros res H. unfold solve in H.
    destruct (initial_state self) as [[v theta]|];
      cbn [mbind option_bind] in H; [|discriminate].
    destruct (newton_raphson _ _ _ _) as [st|] eqn:Enr;
      cbn [mbind option_bind] in H; [|discriminate].
    destruct (store_results _ _ _) as [stored|] eqn:Est;
      cbn [mbind option_bind] in H; [|discriminate].
    apply (inj Some) in H. subst res. cbn [_compile_results iterations converged max_mismatch].
    destruct (newton_raphson_spec _ _ _ Enr)
      as [[Hzero ->]|(Hlt & Hle & m & pq & Hmm & Hpos & Hcalc & Hconv)].
    - cbn. split; [lia|]. split.
      { split; [discriminate|intros (m & N & _); discriminate]. }
      split.
      + intros Hne. apply store_results_spec in Est.
        destruct Est as [E|(p & q & N & _)]; [contradiction|discriminate].
      + intros _. auto.
    - cbn in Hlt, Hle. split; [lia|]. split.
      { rewrite Hmm. split.
        - intros Hc. exists m. split; [reflexivity|apply Hconv; exact Hc].
        - intros (m' & [= <-] & Hm'). apply Hconv. exact Hm'. }
      split.
      + intros _. split; [lia|]. exists m. auto.
      + intros Hb. destruct (max_iterations self) as [|r] eqn:Er; [lia|].
        rewrite newton_raphson_empty in Enr by exact Hb. discriminate. }
  split; [exact Hmain|].
  intros Hzero Hne. destruct (solve linalg_solve self) as [res|] eqn:E; [|reflexivity].
  destruct (Hmain res eq_refl) as (Hle & _ & Hone & _).
  destruct (Hone Hne) as [H1 _]. lia.
Qed.

End SolveInvariants.

Lemma example_solve_idle :
  exists res,
    LoadFlow.solve singular_solver (example_system example_idle_bus) = Some res.
Proof.
  destruct (solve_first_pass singular_solver (example_system example_idle_bus) 0
              example_first_mismatch_idle)
    as (v0 & theta0 & p & q & stored & _ & _ & _ & _ & Hsolve); [simpl; lra|].
  eexists. exact Hsolve.
Qed.

Lemma solve_result_invariants_witness :
  exists res,
    LoadFlow.solve singular_solver (example_system example_idle_bus) = Some res /\
    (LoadFlow.LoadFlowResult.iterations res
     <= LoadFlow.max_iterations (example_system example_idle_bus))%nat /\
    (LoadFlow.LoadFlowResult.converged res = true <->
     exists m, LoadFlow.LoadFlowResult.max_mismatch res = LoadFlow.Finite m /\
               m < LoadFlow.tolerance (example_system example_idle_bus)).
Proof.
  destruct example_solve_idle as [res Hres]. exists res. split; [exact Hres|].
  destruct (proj1 (solve_result_invariants singular_solver
                     (example_system example_idle_bus)) res Hres) as (H1 & H2 & _).
  split; [exact H1|exact H2].
Defined.

Section BoundaryValues.
Import LoadFlow.
Variable linalg_solve : list (list R) -> list R -> linalg_result.
Variable self : NewtonRaphsonLoadFlow.

Ltac bind_cases H :=
  repeat match type of H with
  | (?o ≫= _) = Some _ =>
      let E := fresh "E" in
      destruct o eqn:E; cbn [mbind option_bind] in H; [|discriminate]
  | (let '(_, _) := ?x in _) = Some _ => destruct x
  | (match ?x with (_, _) => _ end) = Some _ => destruct x
  end.

Lemma set_slack_entries (bs : list Bus) (v theta v' theta' : list R) :
  (forall b1 b2, b1 ∈ bs -> b2 ∈ bs ->
     bus_index self !! id b1 = bus_index self !! id b2 -> b1 = b2) ->
  set_slack self bs v theta = Some (v', theta') ->
  (forall b idx, b ∈ bs -> bus_index self !! id b = Some idx ->
     v' !! idx = Some (v_specified b) /\ theta' !! idx = Some (theta_specified b)) /\
  (forall k, (forall b, b ∈ bs -> bus_index self !! id b <> Some k) ->
     v' !! k = v !! k /\ theta' !! k = theta !! k).
Proof.
  revert v theta. induction bs as [|bus bs IH]; intros v theta Hd H; simpl in H.
  - injection H as <- <-. split; [intros b idx Hb; inversion Hb|auto].
  - bind_cases H. rename E into Ei, E0 into Ev, E1 into Et.
    apply set_at_Some in Ev. destruct Ev as (Hlt & -> & _).
    apply set_at_Some in Et. destruct Et as (Hlt' & -> & _).
    destruct (IH _ _ (fun b1 b2 H1 H2 => Hd b1 b2 (list_elem_of_further _ _ _ H1)
                                            (list_elem_of_further _ _ _ H2)) H)
      as [IH1 IH2].
    split.
    + intros b idx Hb Hidx. apply elem_of_cons in Hb. destruct Hb as [->|Hb].
      * assert (n = idx) as -> by congruence.
        destruct (decide (Exists (fun b' => bus_index self !! id b' = Some idx) bs))
          as [Hex|Hnex].
        -- apply Exists_exists in Hex. destruct Hex as (b' & Hb' & Hi').
           assert (b' = bus) as ->.
           { apply Hd; [right; exact Hb'|left|congruence]. }
           apply IH1; assumption.
        -- destruct (IH2 idx) as [Hv Ht].
           { intros b' Hb' Hi'. apply Hnex, Exists_exists. exists b'. auto. }
           rewrite Hv, Ht, !list_lookup_insert_eq by assumption. auto.
      * apply IH1; assumption.
    + intros k Hk. destruct (IH2 k) as [Hv Ht].
      { intros b Hb. apply Hk. right. exact Hb. }
      assert (n <> k).
      { intros ->. apply (Hk bus); [left|exact Ei]. }
      rewrite Hv, Ht, !list_lookup_insert_ne by assumption. auto.
Qed.

Lemma set_pv_entries (bs : list Bus) (v v' : list R) :
  (forall b1 b2, b1 ∈ bs -> b2 ∈ bs ->
     bus_index self !! id b1 = bus_index self !! id b2 -> b1 = b2) ->
  set_pv self bs v = Some v' ->
  (forall b idx, b ∈ bs -> bus_index self !! id b = Some idx ->
     v' !! idx = Some (v_specified b)) /\
  (forall k, (forall b, b ∈ bs -> bus_index self !! id b <> Some k) ->
     v' !! k = v !! k).
Proof.
  revert v. induction bs as [|bus bs IH]; intros v Hd H; simpl in H.
  - injection H as <-. split; [intros b idx Hb; inversion Hb|auto].
  - bind_cases H. rename E into Ei, E0 into Ev.
    apply set_at_Some in Ev. destruct Ev as (Hlt & -> & _).
    destruct (IH _ (fun b1 b2 H1 H2 => Hd b1 b2 (list_elem_of_further _ _ _ H1)
                                          (list_elem_of_further _ _ _ H2)) H)
      as [IH1 IH2].
    split.
    + intros b idx Hb Hidx. apply elem_of_cons in Hb. destruct Hb as [->|Hb].
      * assert (n = idx) as -> by congruence.
        destruct (decide (Exists (fun b' => bus_index self !! id b' = Some idx) bs))
          as [Hex|Hnex].
        -- apply Exists_exists in Hex. destruct Hex as (b' & Hb' & Hi').
           assert (b' = bus) as ->.
           { apply Hd; [right; exact Hb'|left|congruence]. }
           apply IH1; assumption.
        -- rewrite IH2.
           2:{ intros b' Hb' Hi'. apply Hnex, Exists_exists. exists b'. auto. }
           apply list_lookup_insert_eq. assumption.
      * apply IH1; assumption.
    + intros k Hk. rewrite IH2.
      2:{ intros b Hb. apply Hk. right. exact Hb. }
      apply list_lookup_insert_ne. intros ->. apply (Hk bus); [left|exact Ei].
Qed.

Lemma add_corrections_other (bs : list Bus) (a delta a' : list R) (i0 k : nat) :
  add_corrections self bs a delta i0 = Some a' ->
  (forall b, b ∈ bs -> bus_index self !! id b <> Some k) ->
  a' !! k = a !! k.
Proof.
  revert a i0. induction bs as [|bus bs IH]; intros a i0 H Hk; simpl in H.
  - congruence.
  - bind_cases H. rename E into Ei, E2 into Es.
    apply set_at_Some in Es. destruct Es as (_ & -> & _).
    rewrite (IH _ _ H) by (intros b Hb; apply Hk; right; exact Hb).
    apply list_lookup_insert_ne. intros ->. apply (Hk bus); [left|exact Ei].
Qed.

Hypothesis Hdistinct : distinct_indices self.

Lemma initial_state_boundary (v theta : list R) :
  initial_state self = Some (v, theta) -> boundary_values_hold self v theta.
Proof.
  unfold initial_state. intros H.
  destruct (set_slack _ _ _ _) as [[v1 theta1]|] eqn:E1;
    cbn [mbind option_bind] in H; [|discriminate].
  destruct (set_pv _ _ _) as [v2|] eqn:E2; cbn [mbind option_bind] in H; [|discriminate].
  injection H as <- <-.
  apply set_slack_entries in E1.
  2:{ intros b1 b2 H1 H2. apply Hdistinct.
      - apply list_elem_of_filter in H1. tauto.
      - apply list_elem_of_filter in H2. tauto. }
  apply set_pv_entries in E2.
  2:{ intros b1 b2 H1 H2. apply Hdistinct.
      - apply list_elem_of_filter in H1. tauto.
      - apply list_elem_of_filter in H2. tauto. }
  destruct E1 as [S1 _]. destruct E2 as [P1 P2].
  intros b idx Hb Hidx. split.
  - intros Hs. destruct (S1 b idx) as [Hv Ht]; [|exact Hidx|].
    { apply list_elem_of_filter. auto. }
    split; [|exact Ht]. rewrite P2; [exact Hv|].
    intros b' Hb' Hi'. apply list_elem_of_filter in Hb'. destruct Hb' as [Hpv Hb'].
    assert (b' = b) as -> by (apply Hdistinct; [assumption..|congruence]).
    congruence.
  - intros Hpv. apply P1; [|exact Hidx]. apply list_elem_of_filter. auto.
Qed.

Lemma update_state_boundary (v theta delta_x v' theta' : list R) :
  boundary_values_hold self v theta ->
  _update_state self v theta delta_x = Some (v', theta') ->
  boundary_values_hold self v' theta'.
Proof.
  intros Hb H. unfold _update_state in H. bind_cases H. rename E into Et, E0 into Ev.
  injection H as <- <-.
  intros b idx Hin Hidx. destruct (Hb b idx Hin Hidx) as [Hs Hp]. split.
  - intros Hslack. destruct (Hs Hslack) as [Hv Hth]. split.
    + rewrite (add_corrections_other _ _ _ _ _ _ Ev); [exact Hv|].
      intros b' Hb' Hi'. apply list_elem_of_filter in Hb'. destruct Hb' as [Hpq Hb'].
      assert (b' = b) as -> by (apply Hdistinct; [assumption..|congruence]).
      congruence.
    + rewrite (add_corrections_other _ _ _ _ _ _ Et); [exact Hth|].
      intros b' Hb' Hi'. apply list_elem_of_filter in Hb'. destruct Hb' as [Hns Hb'].
      assert (b' = b) as -> by (apply Hdistinct; [assumption..|congruence]).
      contradiction.
  - intros Hpv. rewrite (add_corrections_other _ _ _ _ _ _ Ev); [exact (Hp Hpv)|].
    intros b' Hb' Hi'. apply list_elem_of_filter in Hb'. destruct Hb' as [Hpq Hb'].
    assert (b' = b) as -> by (apply Hdistinct; [assumption..|congruence]).
    congruence.
Qed.

Lemma newton_raphson_boundary (remaining : nat) (st st' : loop_state) :
  boundary_values_hold self (ls_v st) (ls_theta st) ->
  newton_raphson linalg_solve self remaining st = Some st' ->
  boundary_values_hold self (ls_v st') (ls_theta st').
Proof.
  revert st. induction remaining as [|r IH]; intros st Hb H.
  - simpl in H. apply (inj Some) in H. subst st'. exact Hb.
  - cbn [newton_raphson] in H.
    destruct (_calculate_power self (ls_v st) (ls_theta st)) as [[p_calc q_calc]|];
      cbn [mbind option_bind] in H; [|discriminate].
    destruct (power_mismatch _ _ _ _ _ _) as [[delta_p delta_q]|];
      cbn [mbind option_bind] in H; [|discriminate].
    destruct (max_abs_mismatch delta_p delta_q) as [m|];
      cbn [mbind option_bind] in H; [|discriminate].
    destruct (decide (m < tolerance self)) as [Hm|Hm].
    + apply (inj Some) in H. subst st'. exact Hb.
    + destruct (_build_jacobian self _ _) as [jacobian|];
        cbn [mbind option_bind] in H; [|discriminate].
      destruct (_build_mismatch_vector self _ _) as [mismatch|];
        cbn [mbind option_bind] in H; [|discriminate].
      destruct (linalg_solve jacobian mismatch) as [delta_x| |]; [| |discriminate].
      * destruct (_update_state self _ _ _) as [[v' theta']|] eqn:Eu;
          cbn [mbind option_bind] in H; [|discriminate].
        eapply IH; [|exact H]. cbn [ls_v ls_theta].
        exact (update_state_boundary _ _ _ _ _ Hb Eu).
      * apply (inj Some) in H. subst st'. exact Hb.
Qed.

End BoundaryValues.

Section StoredBuses.
Import LoadFlow.
Variable self : NewtonRaphsonLoadFlow.

Lemma store_results_fields (bs stored : list (string * Bus)) (st : loop_state) :
  store_results self bs st = Some stored ->
  Forall2 (fun kb kb' =>
     kb'.1 = kb.1 /\ same_specification kb.2 kb'.2 /\
     exists idx, bus_index self !! id kb.2 = Some idx /\
       ls_v st !! idx = Some (v_magnitude kb'.2) /\
       ls_theta st !! idx = Some (v_angle kb'.2)) bs stored.
Proof.
  revert stored. induction bs as [|[key bus] bs IH]; intros stored H; simpl in H.
  - apply (inj Some) in H. subst stored. constructor.
  - destruct (bus_index self !! id bus) as [idx|] eqn:Ei; cbn [mbind option_bind] in H; [|discriminate].
    destruct (ls_v st !! idx) as [vm|] eqn:Ev; cbn [mbind option_bind] in H; [|discriminate].
    destruct (ls_theta st !! idx) as [va|] eqn:Ea; cbn [mbind option_bind] in H; [|discriminate].
    destruct (ls_calc st) as [[p_calc q_calc]|] eqn:Ec; cbn [mbind option_bind] in H; [|discriminate].
    destruct (p_calc !! idx) as [p|] eqn:Ep; cbn [mbind option_bind] in H; [|discriminate].
    destruct (q_calc !! idx) as [q|] eqn:Eq; cbn [mbind option_bind] in H; [|discriminate].
    destruct (store_results self bs st) as [rest|] eqn:Er; cbn [mbind option_bind] in H; [|discriminate].
    apply (inj Some) in H. subst stored. constructor.
    + cbn. split; [reflexivity|]. split; [repeat split|].
      exists idx. rewrite Ei. auto.
    + apply IH. reflexivity.
Qed.

End StoredBuses.

Section BoundaryTheorem.
Import LoadFlow.
Import LoadFlowResult.

(** X17. [solve] returns the buses it was given, in their order, with only
    the four calculated fields changed; when no two buses share an index,
    every slack bus comes back at its specified voltage and angle and every
    PV bus at its specified voltage, however many iterations were run. *)
Theorem solve_keeps_boundary_values
    (linalg_solve : list (list R) -> list R -> linalg_result)
    (self : NewtonRaphsonLoadFlow) (res : LoadFlowResult.t) :
  solve linalg_solve self = Some res ->
  (buses res).*1 = (LoadFlow.buses self).*1 /\
  Forall2 (fun kb kb' => same_specification kb.2 kb'.2)
    (LoadFlow.buses self) (buses res) /\
  (distinct_indices self ->
   forall key b, (key, b) ∈ buses res ->
     (bus_type b = SLACK ->
      v_magnitude b = v_specified b /\ v_angle b = theta_specified b) /\
     (bus_type b = PV -> v_magnitude b = v_specified b)).
Proof.
  intros H. unfold solve in H.
  destruct (initial_state self) as [[v theta]|] eqn:Ei;
    cbn [mbind option_bind] in H; [|discriminate].
  destruct (newton_raphson _ _ _ _) as [st|] eqn:Enr;
    cbn [mbind option_bind] in H; [|discriminate].
  destruct (store_results _ _ _) as [stored|] eqn:Est;
    cbn [mbind option_bind] in H; [|discriminate].
  apply (inj Some) in H. subst res. cbn [_compile_results buses].
  apply store_results_fields in Est.
  split; [|split].
  - clear -Est. induction Est as [|kb kb' l l' (Hk & _) _ IH]; [reflexivity|].
    cbn. rewrite Hk. f_equal. exact IH.
  - eapply Forall2_impl; [exact Est|]. intros kb kb' (_ & Hs & _). exact Hs.
  - intros Hd key b Hin.
    assert (Hb : boundary_values_hold self (ls_v st) (ls_theta st)).
    { eapply (newton_raphson_boundary linalg_solve self Hd); [|exact Enr].
      cbn [ls_v ls_theta]. exact (initial_state_boundary self Hd _ _ Ei). }
    apply list_elem_of_lookup in Hin. destruct Hin as [k Hk].
    destruct (Forall2_lookup_r _ _ _ _ _ Est Hk)
      as ([key0 b0] & Hk0 & Hkey & Hspec & idx & Hidx & Hv & Ht).
    cbn [fst snd] in *.
    destruct Hspec as (Hid & Hty & _ & _ & Hvs & Hts).
    assert (Hb0 : b0 ∈ buses_values self).
    { unfold buses_values. apply list_elem_of_fmap. exists (key0, b0).
      split; [reflexivity|]. eapply list_elem_of_lookup_2; exact Hk0. }
    destruct (Hb b0 idx Hb0 Hidx) as [Hslack Hpv].
    rewrite Hty, Hvs, Hts. split.
    + intros Hs. destruct (Hslack Hs) as [Hv' Ht']. split; congruence.
    + intros Hp. specialize (Hpv Hp). congruence.
Qed.

End BoundaryTheorem.

Lemma example_distinct_indices : distinct_indices (example_system example_idle_bus).
Proof.
  intros b1 b2 H1 H2 Hi.
  unfold LoadFlow.buses_values, example_system in H1, H2. cbn in H1, H2.
  apply elem_of_cons in H1. apply elem_of_cons in H2.
  destruct H1 as [->|H1], H2 as [->|H2]; try reflexivity.
  - apply list_elem_of_singleton in H2. subst b2. cbn in Hi.
    rewrite example_bus_index_1, example_bus_index_2 in Hi. discriminate.
  - apply list_elem_of_singleton in H1. subst b1. cbn in Hi.
    rewrite example_bus_index_1, example_bus_index_2 in Hi. discriminate.
  - apply list_elem_of_singleton in H1. apply list_elem_of_singleton in H2. congruence.
Qed.

Lemma solve_keeps_boundary_values_witness :
  exists res,
    LoadFlow.solve singular_solver (example_system example_idle_bus) = Some res /\
    forall key b, (key, b) ∈ LoadFlow.LoadFlowResult.buses res ->
      (LoadFlow.bus_type b = LoadFlow.SLACK ->
       LoadFlow.v_magnitude b = LoadFlow.v_specified b /\
       LoadFlow.v_angle b = LoadFlow.theta_specified b) /\
      (LoadFlow.bus_type b = LoadFlow.PV ->
       LoadFlow.v_magnitude b = LoadFlow.v_specified b).
Proof.
  destruct (solve_first_pass singular_solver (example_system example_idle_bus) 0
              example_first_mismatch_idle)
    as (v0 & theta0 & p & q & stored & _ & _ & _ & _ & Hsolve); [simpl; lra|].
  eexists. split; [exact Hsolve|].
  apply (proj2 (proj2 (solve_keeps_boundary_values singular_solver
                         (example_system example_idle_bus) _ Hsolve))).
  exact example_distinct_indices.
Defined.

(** ** Branch flows *)

Section BranchFlows.
Import LoadFlow.







End BranchFlows.


(** ** Upstream and downstream nodes, paths *)

Section Traversals.
Import Topology.
Variable adjacency : gmap string (list string).

Lemma collect_neighbours_sim (l : Z) (ds : list string) (q : list string)
    (gq : list (string * Z)) (vis : gset string) (found : list string) :
  exists new,
    enqueue_downstream l ds gq vis
      = (gq ++ new, (enqueue_downstream l ds gq vis).2) /\
    collect_neighbours ds q vis found
      = (q ++ new.*1, (enqueue_downstream l ds gq vis).2, found ++ new.*1).
Proof.
  unfold enqueue_downstream, collect_neighbours. revert q gq vis found.
  induction ds as [|d ds IH]; intros q gq vis found; simpl.
  - exists []. simpl. rewrite !app_nil_r. auto.
  - destruct (decide (d ∈ vis)) as [Hd|Hd]; [apply IH|].
    destruct (IH (q ++ [d]) (gq ++ [(d, (l + 1)%Z)]) ({[d]} ∪ vis) (found ++ [d]))
      as (new & E1 & E2).
    exists ((d, (l + 1)%Z) :: new). simpl. rewrite E2.
    split; [|rewrite <- !app_assoc; reflexivity].
    rewrite E1 at 1. rewrite <- app_assoc. reflexivity.
Qed.

Lemma extend_paths_sim (p : list string) (l : Z) (ds : list string)
    (q : list (string * list string)) (gq : list (string * Z)) (vis : gset string) :
  exists new,
    enqueue_downstream l ds gq vis
      = (gq ++ new, (enqueue_downstream l ds gq vis).2) /\
    extend_paths p ds q vis
      = (q ++ ((fun x : string * Z => (x.1, p ++ [x.1])) <$> new),
         (enqueue_downstream l ds gq vis).2).
Proof.
  unfold enqueue_downstream, extend_paths. revert q gq vis.
  induction ds as [|d ds IH]; intros q gq vis; simpl.
  - exists []. simpl. rewrite !app_nil_r. auto.
  - destruct (decide (d ∈ vis)) as [Hd|Hd]; [apply IH|].
    destruct (IH (q ++ [(d, p ++ [d])]) (gq ++ [(d, (l + 1)%Z)]) ({[d]} ∪ vis))
      as (new & E1 & E2).
    exists ((d, (l + 1)%Z) :: new). simpl. rewrite E2.
    split; [|rewrite <- !app_assoc; reflexivity].
    rewrite E1 at 1. rewrite <- app_assoc. reflexivity.
Qed.

(** What one pass queues: targets of edges that were not visited. *)
Lemma enqueue_downstream_new (l : Z) (ds : list string)
    (gq new : list (string * Z)) (vis vis' : gset string) :
  enqueue_downstream l ds gq vis = (gq ++ new, vis') ->
  vis' = list_to_set (new.*1) ∪ vis /\
  Forall (fun x => x.1 ∈ ds /\ (x.1 ∉ vis) /\ x.2 = (l + 1)%Z) new /\
  NoDup new.*1.
Proof.
  intros E.
  destruct (enqueue_downstream_spec l ds gq vis) as (new' & E' & HF & HN & _).
  rewrite E in E'. injection E' as Hq Hv. apply app_inv_head in Hq. subst new'.
  auto.
Qed.

Lemma enqueue_measure (v : string) (new : list (string * Z)) (vis : gset string)
    (n : nat) :
  Forall (fun x => x.1 ∈ downstream_of adjacency v /\ (x.1 ∉ vis)) new ->
  NoDup new.*1 ->
  (n + length new + size (targets adjacency ∖ (list_to_set (new.*1) ∪ vis))
   <= n + size (targets adjacency ∖ vis))%nat.
Proof.
  intros HF HN.
  set (N := list_to_set (new.*1) : gset string).
  assert (HsizeN : size N = length new).
  { unfold N. rewrite size_list_to_set by exact HN. apply length_fmap. }
  assert (Hsub : N ⊆ targets adjacency ∖ vis).
  { intros x Hx. unfold N in Hx. apply elem_of_list_to_set in Hx.
    apply list_elem_of_fmap in Hx. destruct Hx as (y & -> & Hy).
    rewrite Forall_forall in HF. destruct (HF y Hy) as (H1 & H2).
    apply elem_of_difference. split; [|exact H2].
    eapply targets_downstream. exact H1. }
  assert (Hsplit : targets adjacency ∖ vis
                   = N ∪ (targets adjacency ∖ (N ∪ vis))).
  { apply set_eq. intros x. destruct (decide (x ∈ N)); set_solver. }
  assert (Hsize : size (targets adjacency ∖ vis)
                  = (size N + size (targets adjacency ∖ (N ∪ vis)))%nat).
  { rewrite Hsplit at 1. apply size_union. set_solver. }
  lia.
Qed.

Lemma initial_measure (s : string) :
  (length [s] + size (targets adjacency ∖ {[s]}) <= bfs_fuel adjacency)%nat.
Proof.
  unfold bfs_fuel. simpl.
  pose proof (subseteq_size (targets adjacency ∖ {[s]}) (targets adjacency)
                ltac:(set_solver)). lia.
Qed.

Lemma distance_path (s v : string) (n : nat) :
  distance adjacency s v n -> path adjacency s v n.
Proof. intros [H _]. exact H. Qed.

Section FromOneNode.
Variable s : string.

Lemma collect_loop_spec (fuel : nat) (q : list string) (gq : list (string * Z))
    (vis : gset string) (found : list string)
    (nodes : gmap string TopologyNode.t) (done : gset string) :
  q = gq.*1 ->
  bfs_invariant adjacency s ∅ gq vis nodes done ->
  NoDup found ->
  (forall x, x ∈ found <-> x ∈ vis /\ x <> s) ->
  (length q + size (targets adjacency ∖ vis) <= fuel)%nat ->
  exists out,
    collect_loop fuel adjacency q vis found = Some out /\
    NoDup out /\
    forall x, x ∈ out <-> x <> s /\ exists n, path adjacency s x n.
Proof.
  revert q gq vis found nodes done.
  induction fuel as [|fuel IH]; intros q gq vis found nodes done Hq Inv Hnd Hfound Hfuel.
  - destruct q as [|v q]; simpl in Hfuel; [|lia].
    destruct gq as [|g gq]; [|discriminate].
    exists found. split; [reflexivity|]. split; [exact Hnd|].
    intros x. rewrite Hfound. split.
    + intros [Hx Hne]. split; [exact Hne|].
      apply (inv_visited _ _ _ _ _ _ _ Inv) in Hx. destruct Hx as [Hx|Hx]; [|inversion Hx].
      destruct (inv_done _ _ _ _ _ _ _ Inv x Hx) as (n & Hn & _).
      exists n. apply distance_path. exact Hn.
    + intros [Hne (n & Hn)]. split; [|exact Hne].
      destruct (decide (x ∈ vis)) as [Hv|Hv]; [exact Hv|].
      destruct (frontier adjacency s ∅ _ _ _ _ x n Inv Hn Hv) as (u & l & Hin & _).
      inversion Hin.
  - destruct q as [|v q].
    + destruct gq as [|g gq]; [|discriminate].
      exists found. split; [reflexivity|]. split; [exact Hnd|].
      intros x. rewrite Hfound. split.
      * intros [Hx Hne]. split; [exact Hne|].
        apply (inv_visited _ _ _ _ _ _ _ Inv) in Hx. destruct Hx as [Hx|Hx]; [|inversion Hx].
        destruct (inv_done _ _ _ _ _ _ _ Inv x Hx) as (n & Hn & _).
        exists n. apply distance_path. exact Hn.
      * intros [Hne (n & Hn)]. split; [|exact Hne].
        destruct (decide (x ∈ vis)) as [Hv|Hv]; [exact Hv|].
        destruct (frontier adjacency s ∅ _ _ _ _ x n Inv Hn Hv) as (u & l & Hin & _).
        inversion Hin.
    + destruct gq as [|[v' l] gq]; [discriminate|]. simpl in Hq.
      injection Hq as <- Hq.
      cbn [collect_loop].
      destruct (collect_neighbours_sim l (downstream_of adjacency v) q gq vis found)
        as (new & E1 & E2).
      pose proof (bfs_invariant_step adjacency s ∅ v l gq vis nodes done Inv) as Inv'.
      rewrite E2. cbn [fst snd].
      destruct (enqueue_downstream_new _ _ _ _ _ _ E1) as (Hvis & HF & HN).
      rewrite E1 in Inv'. cbn [fst snd] in Inv'.
      rewrite Forall_forall in HF.
      eapply IH; [| exact Inv' | | |].
      * rewrite fmap_app, Hq. reflexivity.
      * apply NoDup_app. split; [exact Hnd|]. split; [|exact HN].
        intros x Hx Hx'. apply Hfound in Hx. destruct Hx as [Hx _].
        apply list_elem_of_fmap in Hx'. destruct Hx' as (y & -> & Hy).
        destruct (HF y Hy) as (_ & Hnv & _). contradiction.
      * intros x. rewrite elem_of_app, Hfound, Hvis, elem_of_union, elem_of_list_to_set.
        split; [intros [[H1 H2]|H]; [auto|]|intros [[H|H] Hne]; auto].
        split; [left; exact H|].
        apply list_elem_of_fmap in H. destruct H as (y & -> & Hy).
        destruct (HF y Hy) as (_ & Hnv & _). intros E. apply Hnv. rewrite E.
        apply (inv_source _ _ _ _ _ _ _ Inv).
      * rewrite Hvis, length_app. simpl in Hfuel.
        pose proof (enqueue_measure v new vis (length q)) as Hm.
        rewrite length_fmap.
        assert (length q + length new
                + size (targets adjacency ∖ (list_to_set new.*1 ∪ vis))
                <= length q + size (targets adjacency ∖ vis))%nat; [|lia].
        apply Hm; [|exact HN].
        apply Forall_forall. intros y Hy. destruct (HF y Hy) as (H1 & H2 & _). auto.
Qed.

Lemma collect_from_spec :
  exists out,
    collect_loop (bfs_fuel adjacency) adjacency [s] {[s]} [] = Some out /\
    NoDup out /\
    forall x, x ∈ out <-> x <> s /\ exists n, path adjacency s x n.
Proof.
  apply (collect_loop_spec _ [s] [(s, 0%Z)] {[s]} [] ∅ ∅).
  - reflexivity.
  - apply bfs_invariant_init.
  - constructor.
  - intros x. split; [intros H; inversion H|].
    intros [H Hne]. apply elem_of_singleton in H. contradiction.
  - apply initial_measure.
Qed.

Lemma is_walk_snoc (p : list string) (u v : string) :
  is_walk adjacency p -> last p = Some u -> v ∈ downstream_of adjacency u ->
  is_walk adjacency (p ++ [v]).
Proof.
  intros Hw Hl Hv i a b Ha Hb.
  destruct (decide (S i < length p)%nat) as [Hlt|Hge].
  - rewrite lookup_app_l in Ha by lia. rewrite lookup_app_l in Hb by lia.
    eapply Hw; eassumption.
  - assert (Hi : S i = length p).
    { apply lookup_lt_Some in Hb. rewrite length_app in Hb. simpl in Hb. lia. }
    rewrite lookup_app_l in Ha by lia.
    rewrite lookup_app_r in Hb by lia.
    replace (S i - length p)%nat with 0%nat in Hb by lia. simpl in Hb.
    injection Hb as <-.
    rewrite last_lookup in Hl. replace (pred (length p)) with i in Hl by lia.
    rewrite Ha in Hl. injection Hl as ->. exact Hv.
Qed.

Lemma find_path_loop_spec (to_id : string) (fuel : nat)
    (q : list (string * list string)) (gq : list (string * Z))
    (vis : gset string) (nodes : gmap string TopologyNode.t) (done : gset string) :
  Forall2 (queued_path adjacency s) q gq ->
  bfs_invariant adjacency s ∅ gq vis nodes done ->
  to_id ∉ done ->
  (length q + size (targets adjacency ∖ vis) <= fuel)%nat ->
  exists r,
    find_path_loop fuel adjacency to_id q vis = Some r /\
    (forall p, r = Some p ->
       head p = Some s /\ last p = Some to_id /\ is_walk adjacency p /\
       exists d, length p = S d /\ distance adjacency s to_id d) /\
    (r = None -> forall n, ~ path adjacency s to_id n).
Proof.
  revert q gq vis nodes done.
  assert (Hempty : forall vis nodes done,
    bfs_invariant adjacency s ∅ [] vis nodes done -> to_id ∉ done ->
    forall n, ~ path adjacency s to_id n).
  { intros vis nodes done Inv Hnd n Hn.
    assert (Hv : to_id ∉ vis).
    { intros Hv. apply (inv_visited _ _ _ _ _ _ _ Inv) in Hv.
      destruct Hv as [Hv|Hv]; [contradiction|inversion Hv]. }
    destruct (frontier adjacency s ∅ _ _ _ _ to_id n Inv Hn Hv) as (u & l & Hin & _).
    inversion Hin. }
  induction fuel as [|fuel IH]; intros q gq vis nodes done HR Inv Hnd Hfuel.
  - destruct q as [|e q]; simpl in Hfuel; [|lia].
    inversion HR; subst.
    exists None. split; [reflexivity|]. split; [discriminate|].
    intros _. eapply Hempty; eassumption.
  - destruct q as [|[v p] q].
    + inversion HR; subst.
      exists None. split; [reflexivity|]. split; [discriminate|].
      intros _. eapply Hempty; eassumption.
    + inversion HR as [|e [v' l] q0 gq' He HR' E1 E2]; subst.
      destruct He as (Hv & Hl & Hhead & Hlast & Hwalk). cbn [fst snd] in *. subst v'.
      cbn [find_path_loop].
      destruct (decide (v = to_id)) as [->|Hne].
      * exists (Some p). split; [reflexivity|]. split; [|discriminate].
        intros p' [= <-]. split; [exact Hhead|]. split; [exact Hlast|].
        split; [exact Hwalk|].
        destruct (inv_queue _ _ _ _ _ _ _ Inv to_id l) as (k & Hk & Hd); [left|].
        exists k. split; [lia|exact Hd].
      * destruct (extend_paths_sim p l (downstream_of adjacency v) q gq' vis)
          as (new & E1 & E2).
        pose proof (bfs_invariant_step adjacency s ∅ v l gq' vis nodes done Inv) as Inv'.
        rewrite E2. cbn [fst snd].
        destruct (enqueue_downstream_new _ _ _ _ _ _ E1) as (Hvis & HF & HN).
        rewrite E1 in Inv'. cbn [fst snd] in Inv'.
        rewrite Forall_forall in HF.
        eapply IH; [| exact Inv' | |].
        -- apply Forall2_app; [exact HR'|].
           apply Forall2_fmap_l. apply Forall2_same_length_lookup_2; [reflexivity|].
           intros i x y Hx Hy. rewrite Hx in Hy. injection Hy as <-.
           destruct (HF x (list_elem_of_lookup_2 _ _ _ Hx)) as (Hin & _ & Hx2).
           unfold queued_path. destruct x as [x1 x2]. simpl in Hin, Hx2 |- *.
           split; [reflexivity|]. split; [rewrite length_app; simpl; lia|].
           split; [destruct p; [discriminate|exact Hhead]|].
           split; [apply last_snoc|].
           eapply is_walk_snoc; eassumption.
        -- set_solver.
        -- rewrite Hvis, length_app, length_fmap. simpl in Hfuel.
           pose proof (enqueue_measure v new vis (length q)) as Hm.
           assert (length q + length new
                   + size (targets adjacency ∖ (list_to_set new.*1 ∪ vis))
                   <= length q + size (targets adjacency ∖ vis))%nat; [|lia].
           apply Hm; [|exact HN].
           apply Forall_forall. intros y Hy. destruct (HF y Hy) as (H1 & H2 & _). auto.
Qed.

Lemma find_path_from_spec (to_id : string) :
  exists r,
    find_path_loop (bfs_fuel adjacency) adjacency to_id [(s, [s])] {[s]} = Some r /\
    (forall p, r = Some p ->
       head p = Some s /\ last p = Some to_id /\ is_walk adjacency p /\
       exists d, length p = S d /\ distance adjacency s to_id d) /\
    (r = None -> forall n, ~ path adjacency s to_id n).
Proof.
  apply (find_path_loop_spec to_id _ [(s, [s])] [(s, 0%Z)] {[s]} ∅ ∅).
  - constructor; [|constructor]. unfold queued_path. cbn.
    repeat split; try reflexivity.
    intros i u v Hu Hv. destruct i; discriminate.
  - apply bfs_invariant_init.
  - set_solver.
  - apply initial_measure.
Qed.

End FromOneNode.
End Traversals.

Section GraphQueries.
Import Topology.

(** X19. [get_downstream_nodes] and [get_upstream_nodes] always return: for a
    node of the graph, each node other than the start that a directed path
    reaches along [adjacency] (along [reverse_adjacency] for upstream), once
    each; for an unknown node, the empty list. *)
Theorem downstream_nodes_are_the_reachable_ones (g : TopologyGraph) (x : string) :
  (exists down,
     get_downstream_nodes g x = Some down /\ NoDup down /\ x ∉ down /\
     forall y, y ∈ down <->
       is_Some (nodes g !! x) /\ y <> x /\ exists n, path (adjacency g) x y n) /\
  (exists up,
     get_upstream_nodes g x = Some up /\ NoDup up /\ x ∉ up /\
     forall y, y ∈ up <->
       is_Some (nodes g !! x) /\ y <> x /\
       exists n, path (reverse_adjacency g) x y n).
Proof.
  unfold get_downstream_nodes, get_upstream_nodes.
  destruct (decide (is_Some (nodes g !! x))) as [Hx|Hx].
  - split.
    + destruct (collect_from_spec (adjacency g) x) as (out & E & Hnd & Hout).
      exists out. split; [exact E|]. split; [exact Hnd|]. split.
      * intros H. apply Hout in H. destruct H as [H _]. contradiction.
      * intros y. rewrite Hout. tauto.
    + destruct (collect_from_spec (reverse_adjacency g) x) as (out & E & Hnd & Hout).
      exists out. split; [exact E|]. split; [exact Hnd|]. split.
      * intros H. apply Hout in H. destruct H as [H _]. contradiction.
      * intros y. rewrite Hout. tauto.
  - split; exists []; (split; [reflexivity|]); (split; [constructor|]);
      (split; [apply not_elem_of_nil|]); intros y;
      (split; [intros H; inversion H|intros [H _]; contradiction]).
Qed.

(** X20. [find_path] always returns.  A path it returns starts at [from_id],
    ends at [to_id], follows an edge at every step and has the least number
    of edges of all such paths; it returns [None] exactly when one of the two
    nodes is unknown or no directed path joins them. *)
Theorem find_path_is_shortest (g : TopologyGraph) (from_id to_id : string) :
  exists r,
    find_path g from_id to_id = Some r /\
    (forall p, r = Some p ->
       is_Some (nodes g !! from_id) /\ is_Some (nodes g !! to_id) /\
       head p = Some from_id /\ last p = Some to_id /\
       is_walk (adjacency g) p /\
       exists d, length p = S d /\ distance (adjacency g) from_id to_id d) /\
    (r = None <->
     ~ (is_Some (nodes g !! from_id) /\ is_Some (nodes g !! to_id) /\
        exists n, path (adjacency g) from_id to_id n)).
Proof.
  unfold find_path.
  destruct (decide (is_Some (nodes g !! from_id) /\ is_Some (nodes g !! to_id)))
    as [[Hf Ht]|Hno].
  - destruct (find_path_from_spec (adjacency g) from_id to_id) as (r & E & Hsome & Hnone).
    exists r. split; [exact E|]. split.
    + intros p Hp. split; [exact Hf|]. split; [exact Ht|]. apply Hsome. exact Hp.
    + split.
      * intros Hr (_ & _ & n & Hn). exact (Hnone Hr n Hn).
      * intros Hn. destruct r as [p|]; [|reflexivity].
        exfalso. apply Hn. split; [exact Hf|]. split; [exact Ht|].
        destruct (Hsome p eq_refl) as (_ & _ & _ & d & _ & Hd & _).
        exists d. exact Hd.
  - exists None. split; [reflexivity|]. split; [discriminate|].
    split; [|reflexivity]. intros _ (Hf & Ht & _). apply Hno. split; assumption.
Qed.

Lemma is_feeder_load_spec (g : TopologyGraph) (y : string) :
  is_feeder_load g y <->
  exists node, nodes g !! y = Some node /\
    (TopologyNode.type node = "Motor"%string \/
     TopologyNode.type node = "Load"%string).
Proof.
  unfold is_feeder_load. destruct (nodes g !! y) as [node|].
  - rewrite bool_decide_spec. split.
    + intros H. exists node. auto.
    + intros (n & [= <-] & H). exact H.
  - split; [intros []|intros (n & H & _); discriminate].
Qed.

(** X21. [get_feeder_loads] always returns, without repetition, the nodes
    of type Motor or Load that a directed path from the start of the feeder
    reaches, the start itself excluded. *)
Theorem feeder_loads_are_downstream_loads (g : TopologyGraph) (x : string) :
  exists loads,
    get_feeder_loads g x = Some loads /\ NoDup loads /\
    forall y, y ∈ loads <->
      is_Some (nodes g !! x) /\ y <> x /\
      (exists n, path (adjacency g) x y n) /\
      exists node, nodes g !! y = Some node /\
        (TopologyNode.type node = "Motor"%string \/
         TopologyNode.type node = "Load"%string).
Proof.
  unfold get_feeder_loads, get_downstream_nodes.
  destruct (decide (is_Some (nodes g !! x))) as [Hx|Hx].
  - destruct (collect_from_spec (adjacency g) x) as (out & E & Hnd & Hout).
    rewrite E. cbn [mbind option_bind]. eexists. split; [reflexivity|].
    split; [apply NoDup_filter; exact Hnd|].
    intros y. rewrite list_elem_of_filter, Hout, is_feeder_load_spec. tauto.
  - cbn [mbind option_bind]. exists []. split; [reflexivity|].
    split; [constructor|]. intros y.
    split; [intros H; inversion H|intros [H _]; contradiction].
Qed.

End GraphQueries.

Section MirroredAdjacency.
Import Topology.

Lemma occurrences_app (x : string) (l l' : list string) :
  occurrences x (l ++ l') = (occurrences x l + occurrences x l')%nat.
Proof. unfold occurrences. rewrite filter_app, length_app. reflexivity. Qed.

Lemma occurrences_singleton (x y : string) :
  occurrences x [y] = if decide (y = x) then 1%nat else 0%nat.
Proof.
  unfold occurrences. rewrite filter_cons, filter_nil.
  destruct (decide (y = x)); reflexivity.
Qed.

Lemma occurrences_remove_first (x y : string) (l : list string) :
  occurrences y (remove_first x l) =
  if decide (y = x) then pred (occurrences x l) else occurrences y l.
Proof.
  unfold occurrences. induction l as [|z l IH]; simpl.
  - destruct (decide (y = x)); reflexivity.
  - rewrite !filter_cons. destruct (decide (z = x)) as [->|Hzx].
    + destruct (decide (y = x)) as [->|Hyx].
      * destruct (decide (x = x)); [reflexivity|contradiction].
      * destruct (decide (x = y)); [congruence|reflexivity].
    + rewrite filter_cons. destruct (decide (y = x)) as [->|Hyx].
      * destruct (decide (z = x)); [contradiction|]. exact IH.
      * destruct (decide (z = y)); simpl; rewrite IH; reflexivity.
Qed.

Lemma occurrences_elem_of (x : string) (l : list string) :
  x ∈ l <-> occurrences x l <> 0%nat.
Proof.
  unfold occurrences. induction l as [|z l IH]; simpl.
  - split; [intros H; inversion H|intros H; contradiction].
  - rewrite filter_cons, elem_of_cons. destruct (decide (z = x)) as [->|Hne]; simpl.
    + split; [intros _; lia|auto].
    + rewrite <- IH. split; [intros [H|H]; [congruence|exact H]|auto].
Qed.

Lemma downstream_of_append_to (d : gmap string (list string)) (k x a : string) :
  downstream_of (append_to d k x) a =
  if decide (a = k) then downstream_of d a ++ [x] else downstream_of d a.
Proof.
  unfold downstream_of, append_to. destruct (decide (a = k)) as [->|Hne].
  - rewrite lookup_insert_eq. reflexivity.
  - rewrite lookup_insert_ne by congruence. reflexivity.
Qed.

Lemma downstream_of_remove_from (d : gmap string (list string)) (k x a : string) :
  downstream_of (remove_from d k x) a =
  if decide (a = k) then remove_first x (downstream_of d a) else downstream_of d a.
Proof.
  unfold downstream_of, remove_from. destruct (decide (a = k)) as [->|Hne].
  - rewrite lookup_insert_eq. reflexivity.
  - rewrite lookup_insert_ne by congruence. reflexivity.
Qed.

Lemma built_mirrored (g : TopologyGraph) :
  built g ->
  forall a b,
    occurrences b (downstream_of (adjacency g) a) =
    occurrences a (downstream_of (reverse_adjacency g) b).
Proof.
  induction 1 as [|g node _ IH|g edge _ IH|g edge_id _ IH|g g' _ IH Hl]; intros a b.
  - reflexivity.
  - unfold add_node. destruct (decide _); apply IH.
  - unfold add_edge. cbn [adjacency reverse_adjacency].
    rewrite !downstream_of_append_to.
    destruct (decide (a = TopologyEdge.source_id edge)) as [->|Ha];
      destruct (decide (b = TopologyEdge.target_id edge)) as [->|Hb];
      rewrite ?occurrences_app, ?occurrences_singleton, IH;
      repeat case_decide; try congruence; lia.
  - unfold remove_edge. destruct (edges g !! edge_id) as [edge|]; [|apply IH].
    cbn [adjacency reverse_adjacency].
    rewrite !downstream_of_remove_from.
    destruct (decide (a = TopologyEdge.source_id edge)) as [->|Ha];
      destruct (decide (b = TopologyEdge.target_id edge)) as [->|Hb];
      rewrite ?occurrences_remove_first, ?IH;
      repeat case_decide; try congruence; try reflexivity.
  - unfold calculate_network_levels in Hl.
    destruct (bfs_all _ _ _) as [nodes'|]; cbn [mbind option_bind] in Hl; [|discriminate].
    injection Hl as <-. apply IH.
Qed.

(** X22. in every graph built by [add_node], [add_edge], [remove_edge] and
    [calculate_network_levels], [reverse_adjacency] mirrors [adjacency]: [b]
    is listed under [a] in the one as often as [a] under [b] in the other. *)
Theorem adjacency_is_mirrored (g : TopologyGraph) :
  built g ->
  forall a b,
    occurrences b (downstream_of (adjacency g) a) =
    occurrences a (downstream_of (reverse_adjacency g) b) /\
    (b ∈ downstream_of (adjacency g) a <->
     a ∈ downstream_of (reverse_adjacency g) b).
Proof.
  intros Hb a b. pose proof (built_mirrored g Hb a b) as H.
  split; [exact H|]. rewrite !occurrences_elem_of, H. reflexivity.
Qed.

Lemma path_cons (adj : gmap string (list string)) (s u v : string) (n : nat) :
  u ∈ downstream_of adj s -> path adj u v n -> path adj s v (S n).
Proof.
  intros Hu Hp. induction Hp as [u|u w v n Hp IH Hv].
  - econstructor; [constructor|exact Hu].
  - econstructor; [apply IH; exact Hu|exact Hv].
Qed.

Lemma path_reverse (adj radj : gmap string (list string)) (s v : string) (n : nat) :
  (forall a b, b ∈ downstream_of adj a -> a ∈ downstream_of radj b) ->
  path adj s v n -> path radj v s n.
Proof.
  intros Hm Hp. induction Hp as [s|s u v n Hp IH Hv].
  - constructor.
  - eapply path_cons; [apply Hm; exact Hv|exact IH].
Qed.

(** X23. in a built graph [y] is upstream of [x] exactly when [x] is
    downstream of [y]. *)
Theorem upstream_is_converse_of_downstream (g : TopologyGraph) (x y : string)
    (up down : list string) :
  built g ->
  is_Some (nodes g !! x) -> is_Some (nodes g !! y) ->
  get_upstream_nodes g x = Some up ->
  get_downstream_nodes g y = Some down ->
  (y ∈ up <-> x ∈ down).
Proof.
  intros Hb Hx Hy Hup Hdown. unfold get_upstream_nodes in Hup.
  unfold get_downstream_nodes in Hdown.
  destruct (decide (is_Some (nodes g !! x))); [|contradiction].
  destruct (decide (is_Some (nodes g !! y))); [|contradiction].
  destruct (collect_from_spec (reverse_adjacency g) x) as (up' & E1 & _ & Hup').
  destruct (collect_from_spec (adjacency g) y) as (down' & E2 & _ & Hdown').
  rewrite Hup in E1. injection E1 as <-. rewrite Hdown in E2. injection E2 as <-.
  rewrite Hup', Hdown'.
  pose proof (built_mirrored g Hb) as Hm.
  assert (H1 : forall a b, b ∈ downstream_of (adjacency g) a ->
                           a ∈ downstream_of (reverse_adjacency g) b).
  { intros a b. rewrite !occurrences_elem_of, Hm. auto. }
  assert (H2 : forall a b, b ∈ downstream_of (reverse_adjacency g) a ->
                           a ∈ downstream_of (adjacency g) b).
  { intros a b. rewrite !occurrences_elem_of, <- Hm. auto. }
  split; intros [Hne (n & Hn)]; (split; [congruence|]); exists n.
  - eapply path_reverse; [exact H2|exact Hn].
  - eapply path_reverse; [exact H1|exact Hn].
Qed.

(** X24. [calculate_network_levels] is stable: run again on its own
    result, it returns that result unchanged. *)
Theorem network_levels_are_stable (g g' : TopologyGraph) :
  well_formed g ->
  calculate_network_levels g = Some g' ->
  calculate_network_levels g' = Some g'.
Proof.
  intros [Hsrc Hlev] H. unfold calculate_network_levels in H |- *.
  destruct (bfs_all (adjacency g) (sources g) (reset_level <$> nodes g))
    as [nodes'|] eqn:E; cbn [mbind option_bind] in H; [|discriminate].
  injection H as <-. cbn [nodes adjacency sources edges reverse_adjacency buses].
  assert (Hreset : reset_level <$> nodes' = reset_level <$> nodes g).
  { destruct (bfs_all_spec (adjacency g) (reset_level <$> nodes g) (sources g) []
                (reset_level <$> nodes g)) as (nodes'' & E'' & Hspec).
    { intros x. destruct ((reset_level <$> nodes g) !! x) as [n|] eqn:En; constructor.
      split; [apply same_but_level_refl|].
      rewrite lookup_fmap in En. destruct (nodes g !! x) as [n0|] eqn:E0; [|discriminate].
      injection En as <-. unfold reset_level.
      destruct (decide (TopologyNode.type n0 <> "Source"%string)) as [Ht|Ht].
      - right. split; [reflexivity|]. left. split; [reflexivity|].
        intros s m Hs. inversion Hs.
      - left. assert (TopologyNode.level n0 = 0%Z) as ->; [|split; reflexivity].
        apply (Hlev x n0 E0).
        destruct (decide (TopologyNode.type n0 = "Source"%string));
          [assumption|contradiction]. }
    rewrite E in E''. injection E'' as <-.
    apply map_eq. intros x. specialize (Hspec x).
    rewrite !lookup_fmap in *.
    destruct (nodes g !! x) as [n0|] eqn:E0; simpl in Hspec.
    - inversion Hspec as [a b [Hsame Hl] Ea Eb|]. subst a. simpl. f_equal.
      destruct Hsame as [l ->]. unfold reset_level in *.
      destruct (decide (TopologyNode.type n0 <> "Source"%string)) as [Ht|Ht]; simpl.
      + destruct (decide (TopologyNode.type n0 <> "Source"%string)); [|contradiction].
        reflexivity.
      + destruct (decide (TopologyNode.type n0 <> "Source"%string)); [contradiction|].
        assert (H0 : TopologyNode.level n0 = 0%Z).
        { apply (Hlev x n0 E0).
          destruct (decide (TopologyNode.type n0 = "Source"%string));
            [assumption|contradiction]. }
        simpl in Hl. destruct Hl as [[_ Hl]|[Hl _]]; [|lia].
        subst l. destruct n0; simpl in *. subst. reflexivity.
    - inversion Hspec. reflexivity. }
  rewrite Hreset, E. reflexivity.
Qed.

Lemma built_add_nodes (g : TopologyGraph) (ns : list TopologyNode.t) :
  built g -> built (foldl add_node g ns).
Proof.
  revert g. induction ns as [|n ns IH]; intros g Hg; simpl; [exact Hg|].
  apply IH. constructor. exact Hg.
Qed.

Lemma built_add_edges (g : TopologyGraph) (es : list TopologyEdge.t) :
  built g -> built (foldl add_edge g es).
Proof.
  revert g. induction es as [|e es IH]; intros g Hg; simpl; [exact Hg|].
  apply IH. constructor. exact Hg.
Qed.

End MirroredAdjacency.

Lemma example_topology_built : Topology.built example_topology.
Proof.
  unfold example_topology. apply built_add_edges, built_add_nodes. constructor.
Qed.

Lemma example_topology_well_formed : Topology.well_formed example_topology.
Proof.
  unfold example_topology. apply graph_well_formed_add_edges.
  apply graph_well_formed_add_nodes.
  - apply graph_well_formed_init.
  - apply (bool_decide_unpack (NoDup _)). vm_compute. exact I.
  - intros node Hn. simpl. apply lookup_empty.
Qed.

Lemma adjacency_is_mirrored_witness :
  Topology.occurrences "2" (Topology.downstream_of
                     (Topology.adjacency
                        (Topology.remove_edge example_topology "e5")) "1") =
  Topology.occurrences "1" (Topology.downstream_of
                     (Topology.reverse_adjacency
                        (Topology.remove_edge example_topology "e5")) "2").
Proof.
  apply (adjacency_is_mirrored (Topology.remove_edge example_topology "e5")).
  constructor. exact example_topology_built.
Defined.

Lemma upstream_is_converse_of_downstream_witness :
  ("1"%string ∈ ["2"; "1"]%string <-> "3"%string ∈ ["2"; "3"; "4"; "6"; "5"; "7"]%string).
Proof.
  apply (upstream_is_converse_of_downstream example_topology "3" "1").
  - exact example_topology_built.
  - vm_compute. eexists; reflexivity.
  - vm_compute. eexists; reflexivity.
  - vm_compute. reflexivity.
  - vm_compute. reflexivity.
Defined.

Lemma network_levels_are_stable_witness :
  exists g',
    Topology.calculate_network_levels example_topology = Some g' /\
    Topology.calculate_network_levels g' = Some g'.
Proof.
  destruct (Topology.calculate_network_levels example_topology) as [g'|] eqn:E.
  - exists g'. split; [reflexivity|].
    apply (network_levels_are_stable example_topology g'
             example_topology_well_formed E).
  - exfalso. vm_compute in E. discriminate E.
Defined.

Lemma find_path_is_shortest_witness :
  Topology.is_walk (Topology.adjacency example_topology)
    ["1"; "2"; "3"; "4"; "5"]%string /\
  exists d, length ["1"; "2"; "3"; "4"; "5"]%string = S d /\
    Topology.distance (Topology.adjacency example_topology) "1" "5" d.
Proof.
  destruct (find_path_is_shortest example_topology "1" "5") as (r & E & Hs & _).
  assert (E' : Topology.find_path example_topology "1" "5"
               = Some (Some ["1"; "2"; "3"; "4"; "5"]%string))
    by (vm_compute; reflexivity).
  rewrite E' in E. injection E as <-.
  destruct (Hs _ eq_refl) as (_ & _ & _ & _ & Hw & Hd).
  split; assumption.
Defined.

(** ** The list of sources *)

Section SourceList.
Import Topology.



End SourceList.




(** ** Breaker validation and the summary of a network analysis *)

Section IntegratedCalcProperties.
Import IntegratedCalc.

Lemma get_downstream_nodes_returns (g : Topology.TopologyGraph) (x : string) :
  exists downstream, Topology.get_downstream_nodes g x = Some downstream.
Proof.
  unfold Topology.get_downstream_nodes. destruct (decide _); [|eexists; reflexivity].
  destruct (collect_from_spec (Topology.adjacency g) x) as (out & E & _).
  exists out. exact E.
Qed.

(** The search for the largest fault current: the result is not NaN, is at
    least every downstream fault current that is not NaN, and is zero or one
    of them. *)
Lemma max_fault_current_spec (downstream : list string)
    (i_k3_initial : gmap string float) :
  is_nan (max_fault_current downstream i_k3_initial) = false /\
  (forall y i, y ∈ downstream -> i_k3_initial !! y = Some i -> is_nan i = false ->
     (i <=? max_fault_current downstream i_k3_initial)%float = true) /\
  (max_fault_current downstream i_k3_initial = 0%float \/
   exists y, y ∈ downstream /\
     i_k3_initial !! y = Some (max_fault_current downstream i_k3_initial)).
Proof.
  unfold max_fault_current.
  set (f := fun (max_fault_current : float) (down_id : string) =>
              match i_k3_initial !! down_id with
              | Some fault_i =>
                  if (max_fault_current <? fault_i)%float then fault_i
                  else max_fault_current
              | None => max_fault_current
              end).
  assert (H : forall l acc, is_nan acc = false ->
            is_nan (foldl f acc l) = false /\
            (acc <=? foldl f acc l)%float = true /\
            (forall y i, y ∈ l -> i_k3_initial !! y = Some i -> is_nan i = false ->
               (i <=? foldl f acc l)%float = true) /\
            (foldl f acc l = acc \/
             exists y, y ∈ l /\ i_k3_initial !! y = Some (foldl f acc l))).
  { induction l as [|d l IH]; intros acc Hacc; simpl.
    - split; [exact Hacc|]. split; [apply leb_refl; exact Hacc|].
      split; [intros y i Hy; inversion Hy|left; reflexivity].
    - assert (Hstep : is_nan (f acc d) = false /\ (acc <=? f acc d)%float = true /\
                (forall i, i_k3_initial !! d = Some i -> is_nan i = false ->
                   (i <=? f acc d)%float = true) /\
                (f acc d = acc \/ i_k3_initial !! d = Some (f acc d))).
      { unfold f. destruct (i_k3_initial !! d) as [fault_i|] eqn:Ed.
        - destruct (acc <? fault_i)%float eqn:Elt.
          + destruct (ltb_not_nan _ _ Elt) as [_ Hn].
            split; [exact Hn|]. split; [apply ltb_leb; exact Elt|].
            split; [|right; reflexivity].
            intros i [= <-] _. apply leb_refl. exact Hn.
          + split; [exact Hacc|]. split; [apply leb_refl; exact Hacc|].
            split; [|left; reflexivity].
            intros i [= <-] Hn. apply leb_total; assumption.
        - split; [exact Hacc|]. split; [apply leb_refl; exact Hacc|].
          split; [intros i [=]|left; reflexivity]. }
      destruct Hstep as (Hn & Hle & Hd & Hatt).
      destruct (IH (f acc d) Hn) as (Hn' & Hle' & Hall & Hatt').
      split; [exact Hn'|]. split; [exact (leb_trans _ _ _ Hle Hle')|]. split.
      + intros y i Hy Hi Hni. apply elem_of_cons in Hy. destruct Hy as [->|Hy].
        * exact (leb_trans _ _ _ (Hd i Hi Hni) Hle').
        * exact (Hall y i Hy Hi Hni).
      + destruct Hatt' as [E|(y & Hy & Hi)].
        * rewrite E. destruct Hatt as [E'|Hi]; [left; exact E'|].
          right. exists d. split; [left|exact Hi].
        * right. exists y. split; [right; exact Hy|exact Hi]. }
  destruct (H downstream 0%float eq_refl) as (Hn & _ & Hall & Hatt).
  split; [exact Hn|]. split; [exact Hall|exact Hatt].
Qed.

(** X25. a breaker is validated against the largest fault current found
    among its downstream nodes, in the order of binary64 values, and only
    when that current is positive; the report says adequate exactly when the
    binary64 product of that current and 1.1 is at most the rating; and a
    breaker of rating zero facing a positive fault current raises
    [ZeroDivisionError]. *)
Theorem breaker_covers_downstream_faults (topology : Topology.TopologyGraph)
    (i_k3_initial : gmap string float)
    (breaker_rating : float) (node : Topology.TopologyNode.t) :
  Topology.TopologyNode.type node = "Breaker"%string ->
  exists downstream,
    Topology.get_downstream_nodes topology (Topology.TopologyNode.id node)
      = Some downstream /\
    (forall v,
       validate_breaker topology i_k3_initial breaker_rating node = Some (Some v) ->
       exists y fault_i,
         y ∈ downstream /\ i_k3_initial !! y = Some fault_i /\
         (0 <? fault_i)%float = true /\
         ShortCircuit.validate_breaker_rating fault_i
           breaker_rating (Topology.TopologyNode.voltage_level node) = Some v /\
         (forall y' i', y' ∈ downstream -> i_k3_initial !! y' = Some i' ->
            is_nan i' = false -> (i' <=? fault_i)%float = true) /\
         (ShortCircuit.is_adequate v = true <->
          (fault_i * 1.1 <=? breaker_rating)%float = true)) /\
    (validate_breaker topology i_k3_initial breaker_rating node = Some None <->
     forall y i, y ∈ downstream -> i_k3_initial !! y = Some i ->
       (0 <? i)%float = false) /\
    (validate_breaker topology i_k3_initial breaker_rating node = None <->
     (breaker_rating =? 0)%float = true /\
     exists y i, y ∈ downstream /\ i_k3_initial !! y = Some i /\
       (0 <? i)%float = true).
Proof.
  intros Hty. unfold validate_breaker.
  destruct (decide (Topology.TopologyNode.type node = "Breaker"%string));
    [|contradiction].
  destruct (get_downstream_nodes_returns topology (Topology.TopologyNode.id node))
    as [downstream Hd].
  exists downstream. split; [exact Hd|]. rewrite Hd. cbn [mbind option_bind].
  destruct (max_fault_current_spec downstream i_k3_initial) as (Hn & Hall & Hatt).
  set (m := max_fault_current downstream i_k3_initial) in *.
  assert (Hsmall : (0 <? m)%float = false ->
            forall y i, y ∈ downstream -> i_k3_initial !! y = Some i ->
              (0 <? i)%float = false).
  { intros Hm y i Hy Hi. destruct (0 <? i)%float eqn:E; [|reflexivity].
    destruct (ltb_not_nan _ _ E) as [_ Hni].
    rewrite <- Hm. symmetry.
    exact (ltb_leb_trans _ _ _ E (Hall y i Hy Hi Hni)). }
  unfold ShortCircuit.validate_breaker_rating, Binary64.truediv.
  destruct (0 <? m)%float eqn:Hm.
  - destruct Hatt as [Hz|(y & Hy & Hi)]; [rewrite Hz in Hm; discriminate Hm|].
    destruct (breaker_rating =? 0)%float eqn:Hr; cbn [mbind option_bind].
    + split; [intros v [=]|]. split.
      * split; [intros [=]|]. intros H. rewrite (H y m Hy Hi) in Hm. discriminate.
      * split; [|reflexivity]. intros _. split; [reflexivity|].
        exists y, m. split; [exact Hy|]. split; [exact Hi|exact Hm].
    + split; [|split].
      * intros v [= <-]. exists y, m. split; [exact Hy|]. split; [exact Hi|].
        split; [exact Hm|]. split; [reflexivity|]. split; [exact Hall|].
        cbn [ShortCircuit.is_adequate]. reflexivity.
      * split; [intros [=]|]. intros H. rewrite (H y m Hy Hi) in Hm. discriminate.
      * split; [intros [=]|]. intros [[=] _].
  - split; [intros v [=]|]. split.
    + split; [|reflexivity]. intros _. exact (Hsmall eq_refl).
    + split; [intros [=]|]. intros (_ & y & i & Hy & Hi & Hpos).
      rewrite (Hsmall eq_refl y i Hy Hi) in Hpos. discriminate.
Qed.

End IntegratedCalcProperties.

(** The feeder of the example: the breaker faces the 8 kA fault found at the
    load. *)
Example example_breaker_report :
  IntegratedCalc.validate_breaker example_feeder example_fault_currents 10
    example_breaker =
  Some (Some (ShortCircuit.mkBreakerValidation 8 10 8.8 true 80 2 20 "PASS")).
Proof. vm_compute. reflexivity. Qed.

Lemma breaker_covers_downstream_faults_witness :
  exists downstream,
    Topology.get_downstream_nodes example_feeder
      (Topology.TopologyNode.id example_breaker) = Some downstream /\
    (IntegratedCalc.validate_breaker example_feeder example_fault_currents 10
       example_breaker = Some None <->
     forall y i, y ∈ downstream -> example_fault_currents !! y = Some i ->
       (0 <? i)%float = false).
Proof.
  destruct (breaker_covers_downstream_faults example_feeder example_fault_currents
              10 example_breaker) as (downstream & Hd & _ & Hnone & _).
  - reflexivity.
  - exists downstream. split; [exact Hd|exact Hnone].
Defined.

Section SummaryProperties.
Import IntegratedCalc.

Lemma max_fault_spec (sc_results : list (string * ShortCircuit.ShortCircuitResult)) :
  0 <= (max_fault sc_results).1 /\
  (forall b r, (b, r) ∈ sc_results ->
     ShortCircuit.i_k3_initial r <= (max_fault sc_results).1) /\
  match (max_fault sc_results).2 with
  | None => (max_fault sc_results).1 = 0
  | Some b =>
      0 < (max_fault sc_results).1 /\
      exists r, (b, r) ∈ sc_results /\
        ShortCircuit.i_k3_initial r = (max_fault sc_results).1
  end.
Proof.
  unfold max_fault.
  set (f := fun (acc : R * option string)
                (item : string * ShortCircuit.ShortCircuitResult) =>
              if decide (ShortCircuit.i_k3_initial item.2 > acc.1)
              then (ShortCircuit.i_k3_initial item.2, Some item.1) else acc).
  assert (H : forall acc,
    0 <= acc.1 ->
    match acc.2 with
    | None => acc.1 = 0
    | Some b => 0 < acc.1
    end ->
    acc.1 <= (foldl f acc sc_results).1 /\
    (forall b r, (b, r) ∈ sc_results ->
       ShortCircuit.i_k3_initial r <= (foldl f acc sc_results).1) /\
    (foldl f acc sc_results = acc \/
     exists b r, (foldl f acc sc_results).2 = Some b /\
       0 < (foldl f acc sc_results).1 /\ (b, r) ∈ sc_results /\
       ShortCircuit.i_k3_initial r = (foldl f acc sc_results).1)).
  { induction sc_results as [|[b r] l IH]; intros acc Hpos Hbus; simpl.
    - split; [lra|]. split; [intros b r Hin; inversion Hin|left; reflexivity].
    - assert (Hacc : acc.1 <= (f acc (b, r)).1 /\ 0 <= (f acc (b, r)).1 /\
                     ShortCircuit.i_k3_initial r <= (f acc (b, r)).1 /\
                     match (f acc (b, r)).2 with
                     | None => (f acc (b, r)).1 = 0
                     | Some _ => 0 < (f acc (b, r)).1
                     end).
      { unfold f. cbn [fst snd]. destruct (decide _); cbn [fst snd]; [|repeat split; try lra; exact Hbus].
        repeat split; lra. }
      destruct Hacc as (H1 & H2 & H3 & H4).
      destruct (IH (f acc (b, r)) H2 H4) as (Hge & Hall & Hatt).
      split; [lra|]. split.
      + intros b' r' Hin. apply elem_of_cons in Hin. destruct Hin as [[= -> ->]|Hin].
        * lra.
        * eapply Hall; exact Hin.
      + destruct Hatt as [Heq|(b' & r' & Hb' & Hp & Hin & Hi)].
        * rewrite Heq. unfold f. cbn [fst snd].
          destruct (decide (ShortCircuit.i_k3_initial r > acc.1)) as [Hgt|Hle];
            [|left; reflexivity].
          right. exists b, r. cbn [fst snd]. split; [reflexivity|].
          split; [lra|]. split; [left|reflexivity].
        * right. exists b', r'. split; [exact Hb'|]. split; [exact Hp|].
          split; [right; exact Hin|exact Hi]. }
  destruct (H (0, None)) as (Hge & Hall & Hatt); [simpl; lra|reflexivity|].
  cbn [fst] in Hge. split; [exact Hge|]. split; [exact Hall|].
  destruct Hatt as [Heq|(b & r & Hb & Hp & Hin & Hi)].
  - rewrite Heq. reflexivity.
  - rewrite Hb. split; [exact Hp|]. exists r. auto.
Qed.

(** X26. the summary counts every analysed bus and every breaker, and its
    passing and failing breakers add up to the total; the fault current it
    reports is the largest initial current of all results, rounded to two
    decimals, with a bus that attains it, or zero and no bus when no result
    has a positive current; the load-flow part is present exactly when a
    load-flow result is. *)
Theorem summary_reports_largest_fault (base_mva : R)
    (sc_results : list (string * ShortCircuit.ShortCircuitResult))
    (lf_result : option LoadFlow.LoadFlowResult.t)
    (breaker_vals : list ShortCircuit.BreakerValidation) :
  let summary := _compile_summary base_mva sc_results lf_result breaker_vals in
  buses_analyzed summary = length sc_results /\
  breakers_total summary = length breaker_vals /\
  (breakers_pass summary + breakers_fail summary)%nat = breakers_total summary /\
  (load_flow summary = None <-> lf_result = None) /\
  exists m,
    max_fault_current_ka summary = py_round m 2 /\ 0 <= m /\
    (forall b r, (b, r) ∈ sc_results -> ShortCircuit.i_k3_initial r <= m) /\
    match max_fault_bus summary with
    | None => m = 0
    | Some b =>
        0 < m /\ exists r, (b, r) ∈ sc_results /\ ShortCircuit.i_k3_initial r = m
    end.
Proof.
  cbv zeta. unfold _compile_summary.
  pose proof (max_fault_spec sc_results) as Hmax.
  destruct (max_fault sc_results) as [m bus]. cbn [fst snd] in Hmax.
  cbn [buses_analyzed breakers_total breakers_pass breakers_fail load_flow
       max_fault_current_ka max_fault_bus].
  split; [reflexivity|]. split; [reflexivity|]. split.
  { pose proof (length_filter (fun v => ShortCircuit.is_adequate v = true) breaker_vals).
    lia. }
  split.
  { destruct lf_result; cbn [mbind option_bind]; split; intros H;
      try discriminate; reflexivity. }
  exists m. split; [reflexivity|]. exact Hmax.
Qed.

End SummaryProperties.

(** ** A uniform voltage *)

Section UniformVoltage.
Import LoadFlow.



End UniformVoltage.



(** ** Removing an edge *)

Section RemoveEdge.
Import Topology.

(** X28. [remove_edge] leaves a graph alone when the edge is unknown;
    otherwise it forgets the edge and takes one occurrence of the target out
    of the source's adjacency list and one of the source out of the target's
    reverse list, touching no other list; so removing an edge just added
    under a fresh identifier restores the edges and, up to order, both
    adjacency tables. *)
Theorem remove_edge_takes_one_connection (g : TopologyGraph) (edge_id : string) :
  (edges g !! edge_id = None -> remove_edge g edge_id = g) /\
  (forall edge, edges g !! edge_id = Some edge ->
     edges (remove_edge g edge_id) = delete edge_id (edges g) /\
     sources (remove_edge g edge_id) = sources g /\
     forall a b,
       occurrences b (downstream_of (adjacency (remove_edge g edge_id)) a) =
         (if decide (a = TopologyEdge.source_id edge /\
                     b = TopologyEdge.target_id edge)
          then pred (occurrences b (downstream_of (adjacency g) a))
          else occurrences b (downstream_of (adjacency g) a)) /\
       occurrences a (downstream_of (reverse_adjacency (remove_edge g edge_id)) b) =
         (if decide (a = TopologyEdge.source_id edge /\
                     b = TopologyEdge.target_id edge)
          then pred (occurrences a (downstream_of (reverse_adjacency g) b))
          else occurrences a (downstream_of (reverse_adjacency g) b))) /\
  (forall edge, TopologyEdge.id edge = edge_id -> edges g !! edge_id = None ->
     edges (remove_edge (add_edge g edge) edge_id) = edges g /\
     forall a b,
       occurrences b (downstream_of
                        (adjacency (remove_edge (add_edge g edge) edge_id)) a) =
       occurrences b (downstream_of (adjacency g) a) /\
       occurrences a (downstream_of
                        (reverse_adjacency (remove_edge (add_edge g edge) edge_id)) b) =
       occurrences a (downstream_of (reverse_adjacency g) b)).
Proof.
  split; [|split].
  - intros H. unfold remove_edge. rewrite H. reflexivity.
  - intros edge H. unfold remove_edge. rewrite H.
    cbn [edges sources adjacency reverse_adjacency].
    split; [reflexivity|]. split; [reflexivity|].
    intros a b. rewrite !downstream_of_remove_from.
    split; repeat case_decide; rewrite ?occurrences_remove_first;
      repeat case_decide; destruct_and?; subst; try reflexivity;
      exfalso; intuition congruence.
  - intros edge Hid Hfresh. subst edge_id. unfold remove_edge, add_edge.
    cbn [edges]. rewrite lookup_insert_eq.
    cbn [edges sources adjacency reverse_adjacency].
    split; [rewrite delete_insert_eq; apply delete_id; exact Hfresh|].
    intros a b.
    rewrite !downstream_of_remove_from, !downstream_of_append_to.
    split; repeat case_decide; subst;
      rewrite ?occurrences_remove_first, ?occurrences_app, ?occurrences_singleton;
      repeat case_decide; subst; try congruence; try lia.
Qed.

End RemoveEdge.

Lemma remove_edge_takes_one_connection_witness :
  Topology.edges (Topology.remove_edge example_topology "e5")
    = delete "e5"%string (Topology.edges example_topology) /\
  Topology.sources (Topology.remove_edge example_topology "e5")
    = Topology.sources example_topology.
Proof.
  destruct (proj1 (proj2 (remove_edge_takes_one_connection example_topology "e5"))
              (Topology.TopologyEdge.mk "e5" "3" "6" (Some "cable2"%string)
                 (Complex 0.012 0.006) 75))
    as (H1 & H2 & _).
  - vm_compute. reflexivity.
  - split; assumption.
Defined.
